(** * AntigravityManager CLI: credential vault and injection pipeline

    A shallow embedding of [cli/proto_utils.py] and of the parts of
    [cli/core.py] that recover the master key, seal and unseal stored
    fields, read the account table, switch accounts and refresh tokens,
    and of its maintenance functions: validating all accounts, removing
    an account, selecting the best account by quota, reading the host's
    auth status, aliases, and the user's PATH in the registry.

    Conventions.
    - A Python [int] is a [Z].
    - A Python [bytes] object is a [list Z] whose elements lie in [0, 256).
    - A Python [str] is the list of its Unicode code points ([list Z]).
    - A Python call that may raise returns a [result]; [Raise e] records
      the exception class.
    - Files, processes, the clock, the random source, the two SQLite
      stores and the refresh exchange are fields of a [World]; a function
      that touches them is a computation in [M], which threads the world
      and records what was done to the outside in a trace.
    - AES-GCM, the OS unwrap primitive, [json.loads], [json.dumps] and
      [str.lower] are library calls: they are the fields of a [Platform].

    Left out: what the functions print; JSON numbers that are not
    integers; an unreadable ".mk" file (a file that exists is read); the
    quota requests, export and import, and the command-line front end
    [cli/main.py]. *)

From Stdlib Require Import String Ascii DecimalString ZArith List Lia Bool.
From Equations Require Import Equations.
Import ListNotations.

Open Scope Z_scope.

(** ** Exceptions and results *)

Inductive exn : Type :=
| ValueError
| IndexError
| TypeError
| AttributeError
| KeyError
| UnicodeError
| InvalidTag
| OSError.

Inductive result (A : Type) : Type :=
| Ok (a : A)
| Raise (e : exn).

Arguments Ok {A} a.
Arguments Raise {A} e.

Definition bind {A B : Type} (m : result A) (k : A -> result B) : result B :=
  match m with
  | Ok a => k a
  | Raise e => Raise e
  end.

Notation "x <- m ;; k" := (bind m (fun x => k))
  (at level 61, m at next level, right associativity).
Notation "' p <- m ;; k" := (bind m (fun x => let p := x in k))
  (at level 61, p pattern, m at next level, right associativity).

(** [try: m except: d] is a [try] block whose handler catches every
    exception and evaluates to [d]. *)
Definition try_except {A : Type} (m : result A) (d : A) : A :=
  match m with
  | Ok a => a
  | Raise _ => d
  end.

Definition is_ok {A : Type} (m : result A) : bool :=
  match m with
  | Ok _ => true
  | Raise _ => false
  end.

(** ** Python sequences *)

Definition bytes := list Z.
Definition pystr := list Z.

Definition is_byte (b : Z) : Prop := 0 <= b < 256.

Definition len {A : Type} (l : list A) : Z := Z.of_nat (length l).

(** [l[i]] with Python's negative indices. *)
Definition getitem {A : Type} (l : list A) (i : Z) : result A :=
  let j := if i <? 0 then i + len l else i in
  if (0 <=? j) && (j <? len l) then
    match nth_error l (Z.to_nat j) with
    | Some x => Ok x
    | None => Raise IndexError
    end
  else Raise IndexError.

(** The code points of an ASCII literal. *)
Fixpoint lit (s : string) : pystr :=
  match s with
  | EmptyString => []
  | String c s' => Z.of_N (N_of_ascii c) :: lit s'
  end.

Arguments lit : simpl never.

(** * proto_utils.py *)

Module ProtoUtils.

(** The [while val >= 128] loop of [encode_varint]; [buf] is the list the
    loop appends to. *)
Equations? encode_varint_loop (buf : list Z) (val : Z) : list Z
  by wf (Z.to_nat (Z.log2 val)) lt :=
  encode_varint_loop buf val with Z_le_gt_dec 128 val := {
    | left _ => encode_varint_loop (buf ++ [Z.lor (Z.land val 0x7F) 0x80])
                                   (Z.shiftr val 7);
    | right _ => buf ++ [val] }.
Proof.
  rewrite Z.log2_shiftr by lia.
  assert (7 <= Z.log2 val) by (apply (Z.log2_le_mono 128 val); lia).
  lia.
Qed.

Definition encode_varint (value : Z) : result bytes :=
  if value <? 0 then Raise ValueError
  else Ok (encode_varint_loop [] value).

(** The [while pos < length] loop of [read_varint].  [fuel] is
    [length - pos], the number of iterations the loop can still make;
    running out of it is leaving the loop and raising. *)
Fixpoint read_varint_loop (fuel : nat) (data : bytes) (res shift pos : Z)
  : result (Z * Z) :=
  match fuel with
  | O => Raise ValueError
  | S fuel' =>
      byte <- getitem data pos ;;
      let res := Z.lor res (Z.shiftl (Z.land byte 0x7F) shift) in
      let pos := pos + 1 in
      if Z.land byte 0x80 =? 0 then Ok (res, pos)
      else read_varint_loop fuel' data res (shift + 7) pos
  end.

Definition read_varint (data : bytes) (offset : Z) : result (Z * Z) :=
  read_varint_loop (Z.to_nat (len data - offset)) data 0 0 offset.

(** [str.encode('utf-8')]: one to four bytes per code point; a surrogate
    (or a value outside the Unicode range) cannot be encoded. *)
Definition utf8_encode_char (c : Z) : result bytes :=
  if c <? 0 then Raise UnicodeError
  else if c <? 0x80 then Ok [c]
  else if c <? 0x800 then
    Ok [Z.lor 0xC0 (Z.shiftr c 6); Z.lor 0x80 (Z.land c 0x3F)]
  else if (0xD800 <=? c) && (c <=? 0xDFFF) then Raise UnicodeError
  else if c <? 0x10000 then
    Ok [Z.lor 0xE0 (Z.shiftr c 12);
        Z.lor 0x80 (Z.land (Z.shiftr c 6) 0x3F);
        Z.lor 0x80 (Z.land c 0x3F)]
  else if c <? 0x110000 then
    Ok [Z.lor 0xF0 (Z.shiftr c 18);
        Z.lor 0x80 (Z.land (Z.shiftr c 12) 0x3F);
        Z.lor 0x80 (Z.land (Z.shiftr c 6) 0x3F);
        Z.lor 0x80 (Z.land c 0x3F)]
  else Raise UnicodeError.

Fixpoint utf8_encode (s : pystr) : result bytes :=
  match s with
  | [] => Ok []
  | c :: s' =>
      b <- utf8_encode_char c ;;
      bs <- utf8_encode s' ;;
      Ok (b ++ bs)
  end.

Definition is_cont (b : Z) : bool := Z.land b 0xC0 =? 0x80.

(** [bytes.decode('utf-8')], strict: overlong forms, surrogates, values
    above U+10FFFF and truncated sequences are rejected. *)
Fixpoint utf8_decode (bs : bytes) : result pystr :=
  match bs with
  | [] => Ok []
  | b0 :: r0 =>
      if (0 <=? b0) && (b0 <? 0x80) then
        s <- utf8_decode r0 ;; Ok (b0 :: s)
      else if (0xC0 <=? b0) && (b0 <? 0xE0) then
        match r0 with
        | b1 :: r1 =>
            let c := Z.lor (Z.shiftl (Z.land b0 0x1F) 6) (Z.land b1 0x3F) in
            if is_cont b1 && (0x80 <=? c) then
              s <- utf8_decode r1 ;; Ok (c :: s)
            else Raise UnicodeError
        | _ => Raise UnicodeError
        end
      else if (0xE0 <=? b0) && (b0 <? 0xF0) then
        match r0 with
        | b1 :: b2 :: r2 =>
            let c := Z.lor (Z.shiftl (Z.land b0 0x0F) 12)
                       (Z.lor (Z.shiftl (Z.land b1 0x3F) 6) (Z.land b2 0x3F)) in
            if is_cont b1 && is_cont b2 && (0x800 <=? c)
               && negb ((0xD800 <=? c) && (c <=? 0xDFFF)) then
              s <- utf8_decode r2 ;; Ok (c :: s)
            else Raise UnicodeError
        | _ => Raise UnicodeError
        end
      else if (0xF0 <=? b0) && (b0 <? 0xF8) then
        match r0 with
        | b1 :: b2 :: b3 :: r3 =>
            let c := Z.lor (Z.shiftl (Z.land b0 0x07) 18)
                       (Z.lor (Z.shiftl (Z.land b1 0x3F) 12)
                          (Z.lor (Z.shiftl (Z.land b2 0x3F) 6)
                                 (Z.land b3 0x3F))) in
            if is_cont b1 && is_cont b2 && is_cont b3
               && (0x10000 <=? c) && (c <? 0x110000) then
              s <- utf8_decode r3 ;; Ok (c :: s)
            else Raise UnicodeError
        | _ => Raise UnicodeError
        end
      else Raise UnicodeError
  end.

(** The standard base64 alphabet, by index. *)
Definition b64_char (i : Z) : Z :=
  if i <? 26 then 65 + i
  else if i <? 52 then 97 + (i - 26)
  else if i <? 62 then 48 + (i - 52)
  else if i =? 62 then 43
  else 47.

(** [base64.b64encode]. *)
Fixpoint b64encode (bs : bytes) : bytes :=
  match bs with
  | [] => []
  | [a] =>
      [b64_char (Z.shiftr a 2);
       b64_char (Z.shiftl (Z.land a 3) 4); 61; 61]
  | [a; b] =>
      [b64_char (Z.shiftr a 2);
       b64_char (Z.lor (Z.shiftl (Z.land a 3) 4) (Z.shiftr b 4));
       b64_char (Z.shiftl (Z.land b 15) 2); 61]
  | a :: b :: c :: rest =>
      b64_char (Z.shiftr a 2)
      :: b64_char (Z.lor (Z.shiftl (Z.land a 3) 4) (Z.shiftr b 4))
      :: b64_char (Z.lor (Z.shiftl (Z.land b 15) 2) (Z.shiftr c 6))
      :: b64_char (Z.land c 63)
      :: b64encode rest
  end.

Definition create_string_field (field_num : Z) (value : pystr)
  : result bytes :=
  let tag := Z.lor (Z.shiftl field_num 3) 2 in
  tag_bytes <- encode_varint tag ;;
  value_bytes <- utf8_encode value ;;
  len_bytes <- encode_varint (len value_bytes) ;;
  Ok (tag_bytes ++ len_bytes ++ value_bytes).

Definition create_timestamp_field (field_num : Z) (seconds : Z)
  : result bytes :=
  let inner_tag := Z.lor (Z.shiftl 1 3) 0 in
  inner_tag_bytes <- encode_varint inner_tag ;;
  seconds_bytes <- encode_varint seconds ;;
  let inner_msg := inner_tag_bytes ++ seconds_bytes in
  let tag := Z.lor (Z.shiftl field_num 3) 2 in
  tag_bytes <- encode_varint tag ;;
  len_bytes <- encode_varint (len inner_msg) ;;
  Ok (tag_bytes ++ len_bytes ++ inner_msg).

Definition create_oauth_info (access_token refresh_token : pystr)
  (expiry : Z) : result bytes :=
  field1 <- create_string_field 1 access_token ;;
  field2 <- create_string_field 2 (lit "Bearer") ;;
  field3 <- create_string_field 3 refresh_token ;;
  field4 <- create_timestamp_field 4 expiry ;;
  Ok (field1 ++ field2 ++ field3 ++ field4).

Definition create_unified_oauth_token (access_token refresh_token : pystr)
  (expiry : Z) : result pystr :=
  oauth_info <- create_oauth_info access_token refresh_token expiry ;;
  oauth_info_b64 <- utf8_decode (b64encode oauth_info) ;;
  inner2_data <- create_string_field 1 oauth_info_b64 ;;
  let tag2 := Z.lor (Z.shiftl 2 3) 2 in
  tag2_bytes <- encode_varint tag2 ;;
  len2_bytes <- encode_varint (len inner2_data) ;;
  let inner_field2 := tag2_bytes ++ len2_bytes ++ inner2_data in
  inner1 <- create_string_field 1 (lit "oauthTokenInfoSentinelKey") ;;
  let inner := inner1 ++ inner_field2 in
  let tag1 := Z.lor (Z.shiftl 1 3) 2 in
  tag1_bytes <- encode_varint tag1 ;;
  len1_bytes <- encode_varint (len inner) ;;
  let outer := tag1_bytes ++ len1_bytes ++ inner in
  utf8_decode (b64encode outer).

End ProtoUtils.

(** * Reading a token blob back

    The repository only writes token blobs.  To state what a blob
    contains, this module reads one back by undoing each step of
    [create_unified_oauth_token]: base64, the outer and middle messages,
    base64 again, and the four fields of the leaf [OAuthInfo] message.
    Varints are read with the repository's own [read_varint]. *)

Module WireReader.
Import ProtoUtils.

Definition b64_index (c : Z) : result Z :=
  if (65 <=? c) && (c <=? 90) then Ok (c - 65)
  else if (97 <=? c) && (c <=? 122) then Ok (c - 97 + 26)
  else if (48 <=? c) && (c <=? 57) then Ok (c - 48 + 52)
  else if c =? 43 then Ok 62
  else if c =? 47 then Ok 63
  else Raise ValueError.

(** Strict base64 decoding: whole quadruples, padding only in the last. *)
Fixpoint b64decode (cs : bytes) : result bytes :=
  match cs with
  | [] => Ok []
  | c0 :: c1 :: c2 :: c3 :: rest =>
      i0 <- b64_index c0 ;;
      i1 <- b64_index c1 ;;
      let b0 := Z.lor (Z.shiftl i0 2) (Z.shiftr i1 4) in
      if c3 =? 61 then
        match rest with
        | [] =>
            if c2 =? 61 then
              if Z.land i1 15 =? 0 then Ok [b0] else Raise ValueError
            else
              i2 <- b64_index c2 ;;
              if Z.land i2 3 =? 0 then
                Ok [b0; Z.lor (Z.shiftl (Z.land i1 15) 4) (Z.shiftr i2 2)]
              else Raise ValueError
        | _ => Raise ValueError
        end
      else
        i2 <- b64_index c2 ;;
        i3 <- b64_index c3 ;;
        bs <- b64decode rest ;;
        Ok (b0
            :: Z.lor (Z.shiftl (Z.land i1 15) 4) (Z.shiftr i2 2)
            :: Z.lor (Z.shiftl (Z.land i2 3) 6) i3
            :: bs)
  | _ => Raise ValueError
  end.

(** [data[lo:lo+n]], required to be exactly [n] bytes long. *)
Definition take_exact (data : bytes) (lo n : Z) : result bytes :=
  if (0 <=? lo) && (0 <=? n) && (lo + n <=? len data) then
    Ok (firstn (Z.to_nat n) (skipn (Z.to_nat lo) data))
  else Raise ValueError.

(** One length-delimited field with number [field_num] at [offset]: its
    payload and the offset after it. *)
Definition read_len_delim (field_num : Z) (data : bytes) (offset : Z)
  : result (bytes * Z) :=
  '(tag, pos1) <- read_varint data offset ;;
  if tag =? Z.lor (Z.shiftl field_num 3) 2 then
    '(n, pos2) <- read_varint data pos1 ;;
    payload <- take_exact data pos2 n ;;
    Ok (payload, pos2 + n)
  else Raise ValueError.

(** One varint field with number [field_num] at [offset]. *)
Definition read_varint_field (field_num : Z) (data : bytes) (offset : Z)
  : result (Z * Z) :=
  '(tag, pos1) <- read_varint data offset ;;
  if tag =? Z.lor (Z.shiftl field_num 3) 0 then read_varint data pos1
  else Raise ValueError.

Definition at_end (data : bytes) (pos : Z) : result unit :=
  if pos =? len data then Ok tt else Raise ValueError.

Record OAuthInfo : Type := {
  accessToken : pystr;
  tokenType : pystr;
  refreshToken : pystr;
  expirySeconds : Z
}.

Definition read_timestamp (data : bytes) : result Z :=
  '(seconds, pos) <- read_varint_field 1 data 0 ;;
  _ <- at_end data pos ;;
  Ok seconds.

Definition read_oauth_info (data : bytes) : result OAuthInfo :=
  '(f1, p1) <- read_len_delim 1 data 0 ;;
  '(f2, p2) <- read_len_delim 2 data p1 ;;
  '(f3, p3) <- read_len_delim 3 data p2 ;;
  '(f4, p4) <- read_len_delim 4 data p3 ;;
  _ <- at_end data p4 ;;
  access <- utf8_decode f1 ;;
  type <- utf8_decode f2 ;;
  refresh <- utf8_decode f3 ;;
  seconds <- read_timestamp f4 ;;
  Ok {| accessToken := access; tokenType := type;
        refreshToken := refresh; expirySeconds := seconds |}.

Definition list_eqb (a b : list Z) : bool :=
  if list_eq_dec Z.eq_dec a b then true else false.

Definition read_unified_oauth_token (blob : pystr) : result OAuthInfo :=
  blob_bytes <- utf8_encode blob ;;
  outer <- b64decode blob_bytes ;;
  '(inner, p0) <- read_len_delim 1 outer 0 ;;
  _ <- at_end outer p0 ;;
  '(sentinel, p1) <- read_len_delim 1 inner 0 ;;
  '(wrapped, p2) <- read_len_delim 2 inner p1 ;;
  _ <- at_end inner p2 ;;
  sentinel_str <- utf8_decode sentinel ;;
  if list_eqb sentinel_str (lit "oauthTokenInfoSentinelKey") then
    '(info_b64, p3) <- read_len_delim 1 wrapped 0 ;;
    _ <- at_end wrapped p3 ;;
    info <- b64decode info_b64 ;;
    read_oauth_info info
  else Raise ValueError.

End WireReader.

(** * core.py: values and the outside world *)

(** What [json.loads] returns and [json.dumps] takes.  A [dict] keeps its
    keys in insertion order.  Numbers are integers here. *)
#[warnings="-register-all"]
Inductive json : Type :=
| JNull
| JBool (b : bool)
| JInt (z : Z)
| JStr (s : pystr)
| JList (l : list json)
| JDict (d : list (pystr * json)).

(** The libraries the module calls and does not define. *)
Class Platform : Type := {
  (** AES-GCM with no associated data: [gcm_seal key nonce plaintext] is
      the ciphertext followed by the 16-byte tag; [gcm_open key nonce
      data] is the plaintext, or [None] when the tag does not verify. *)
  gcm_seal : bytes -> bytes -> bytes -> bytes;
  gcm_open : bytes -> bytes -> bytes -> option bytes;
  (** [win32crypt.CryptUnprotectData(blob, None, None, None, 0)[1]]. *)
  CryptUnprotectData : bytes -> result bytes;
  json_loads : pystr -> result json;
  json_dumps : json -> pystr;
  (** [str.lower]. *)
  str_lower : pystr -> pystr
}.

(** What is assumed of AES-GCM: sealing adds a 16-byte tag and maps
    bytes to bytes, opening what was sealed under the same key and nonce
    gives the plaintext back, and opening removes 16 bytes. *)
Class PlatformLaws (platform : Platform) : Prop := {
  gcm_seal_length : forall key nonce plaintext,
    length (gcm_seal key nonce plaintext) = (length plaintext + 16)%nat;
  gcm_seal_bytes : forall key nonce plaintext,
    Forall is_byte key -> Forall is_byte nonce -> Forall is_byte plaintext ->
    Forall is_byte (gcm_seal key nonce plaintext);
  gcm_open_seal : forall key nonce plaintext,
    Forall is_byte key -> Forall is_byte nonce -> Forall is_byte plaintext ->
    gcm_open key nonce (gcm_seal key nonce plaintext) = Some plaintext;
  gcm_open_length : forall key nonce data plaintext,
    gcm_open key nonce data = Some plaintext ->
    (length plaintext + 16 = length data)%nat
}.

Definition str_eqb (a b : pystr) : bool :=
  if list_eq_dec Z.eq_dec a b then true else false.

(** [s.startswith(p)], also on [bytes]. *)
Fixpoint startswith (s p : list Z) : bool :=
  match p, s with
  | [], _ => true
  | _ :: _, [] => false
  | c :: p', d :: s' => (c =? d) && startswith s' p'
  end.

(** [sub in s]. *)
Fixpoint contains (s sub : pystr) : bool :=
  startswith s sub
  || match s with
     | [] => false
     | _ :: s' => contains s' sub
     end.

(** [s.split(sep)] for a one-character separator. *)
Fixpoint split (sep : Z) (s : pystr) : list pystr :=
  match s with
  | [] => [[]]
  | c :: s' =>
      if c =? sep then [] :: split sep s'
      else match split sep s' with
           | p :: ps => (c :: p) :: ps
           | [] => [[c]]
           end
  end.

Definition hex_digit (d : Z) : Z := if d <? 10 then 48 + d else 87 + d.

(** [bytes.hex()]: two lower-case digits per byte. *)
Definition hex (bs : bytes) : pystr :=
  flat_map (fun b => [hex_digit (Z.shiftr b 4); hex_digit (Z.land b 15)]) bs.

Definition hex_value (c : Z) : result Z :=
  if (48 <=? c) && (c <=? 57) then Ok (c - 48)
  else if (97 <=? c) && (c <=? 102) then Ok (c - 87)
  else if (65 <=? c) && (c <=? 70) then Ok (c - 55)
  else Raise ValueError.

Definition is_space (c : Z) : bool :=
  ((9 <=? c) && (c <=? 13)) || (c =? 32).

(** [bytes.fromhex]: ASCII whitespace is skipped between bytes, never
    between the two digits of one byte. *)
Fixpoint fromhex (s : pystr) : result bytes :=
  match s with
  | [] => Ok []
  | c :: s' =>
      if is_space c then fromhex s'
      else
        top <- hex_value c ;;
        match s' with
        | [] => Raise ValueError
        | d :: s'' =>
            bot <- hex_value d ;;
            bs <- fromhex s'' ;;
            Ok (Z.lor (Z.shiftl top 4) bot :: bs)
        end
  end.

(** Python truth value of a JSON value. *)
Definition truthy (j : json) : bool :=
  match j with
  | JNull => false
  | JBool b => b
  | JInt z => negb (z =? 0)
  | JStr s => match s with [] => false | _ => true end
  | JList l => match l with [] => false | _ => true end
  | JDict d => match d with [] => false | _ => true end
  end.

Fixpoint assoc_get (d : list (pystr * json)) (k : pystr) : option json :=
  match d with
  | [] => None
  | (k', v) :: d' => if str_eqb k' k then Some v else assoc_get d' k
  end.

(** [d[k] = v]: an existing key keeps its place, a new one goes last. *)
Fixpoint assoc_set (d : list (pystr * json)) (k : pystr) (v : json)
  : list (pystr * json) :=
  match d with
  | [] => [(k, v)]
  | (k', v') :: d' =>
      if str_eqb k' k then (k', v) :: d' else (k', v') :: assoc_set d' k v
  end.

(** [j.get(k, default)]; only a [dict] has [get]. *)
Definition dict_get (j : json) (k : pystr) (default : json) : result json :=
  match j with
  | JDict d => Ok (match assoc_get d k with Some v => v | None => default end)
  | _ => Raise AttributeError
  end.

(** [j[k]] for a string key. *)
Definition dict_index (j : json) (k : pystr) : result json :=
  match j with
  | JDict d =>
      match assoc_get d k with Some v => Ok v | None => Raise KeyError end
  | _ => Raise TypeError
  end.

(** Where the code needs a [str] or an [int] and gets something else,
    Python raises. *)
Definition as_str (j : json) : result pystr :=
  match j with
  | JStr s => Ok s
  | _ => Raise AttributeError
  end.

Definition as_int (j : json) : result Z :=
  match j with
  | JInt z => Ok z
  | JBool b => Ok (if b then 1 else 0)
  | _ => Raise TypeError
  end.

(** ** Files, processes and stores *)

(** A row of the [accounts] table; [token_json] and [quota_json] are TEXT
    columns, [None] is SQL NULL. *)
Record Row : Type := {
  email : pystr;
  token_json : option pystr;
  quota_json : option pystr;
  name : option pystr;
  avatar_url : option pystr;
  last_used : Z;
  is_active : Z
}.

(** The dict [get_accounts] builds from a row: the columns, and the keys
    ['token'] and ['quota'] when they were set. *)
Record Account : Type := {
  row : Row;
  token : option json;
  quota : option json
}.

(** A [cloud_accounts.db] file: one that [sqlite3.connect] cannot open,
    or the [accounts] table in the order
    [SELECT * FROM accounts ORDER BY last_used DESC] returns it. *)
Inductive DbFile : Type :=
| DbUnopenable
| DbTable (rows : list Row).

(** One candidate directory of [get_data_dirs].
    - [local_state]: [None] when there is no "Local State" file;
      otherwise what opening it, parsing it, reading
      [['os_crypt']['encrypted_key']] and base64-decoding that gives.
    - [mk]: the bytes of the ".mk" file, if it exists.
    - [accounts_db]: the account database, if it exists. *)
Record DataDir : Type := {
  local_state : option (result bytes);
  mk : option bytes;
  accounts_db : option DbFile
}.

(** A running process as [psutil] shows it; [kill_ok] tells whether
    [proc.kill()] returns or raises. *)
Record Proc : Type := {
  pid : Z;
  pname : option pystr;
  pexe : option pystr;
  kill_ok : bool
}.

(** The host's [state.vscdb]: its [ItemTable], and whether a write
    transaction on it goes through. *)
Record StateDb : Type := {
  items : list (pystr * pystr);
  writable : bool
}.

(** What a run does to the outside, in order. *)
Inductive Event : Type :=
| EvKill (p : Z)
| EvSleep
| EvBackup
| EvCommit
| EvLaunch (exe : pystr).

Record World : Type := {
  data_dirs : list DataDir;
  (** the first existing candidate of [get_antigravity_db_path] *)
  state_db : option StateDb;
  copy_ok : bool;
  state_db_backup : option (list (pystr * pystr));
  procs : list Proc;
  (** [ANTIGRAVITY_EXE_PATH], fixed when the module was imported *)
  exe_path_global : option pystr;
  (** the four install locations, in order *)
  exe_candidates : list pystr;
  path_exists : pystr -> bool;
  popen_ok : pystr -> bool;
  (** the k-th reading of [int(time.time() * 1000)] *)
  clock : nat -> Z;
  ticks : nat;
  (** the operating system's random bytes *)
  entropy : nat -> Z;
  drawn : nat;
  (** the OAuth refresh exchange, by refresh token *)
  refresh_exchange : json -> result json;
  trace : list Event
}.

Definition with_data_dirs (w : World) (x : list DataDir) : World :=
  {| data_dirs := x; state_db := state_db w; copy_ok := copy_ok w;
     state_db_backup := state_db_backup w; procs := procs w;
     exe_path_global := exe_path_global w;
     exe_candidates := exe_candidates w; path_exists := path_exists w;
     popen_ok := popen_ok w; clock := clock w; ticks := ticks w;
     entropy := entropy w; drawn := drawn w;
     refresh_exchange := refresh_exchange w; trace := trace w |}.

Definition with_state_db (w : World) (x : option StateDb) : World :=
  {| data_dirs := data_dirs w; state_db := x; copy_ok := copy_ok w;
     state_db_backup := state_db_backup w; procs := procs w;
     exe_path_global := exe_path_global w;
     exe_candidates := exe_candidates w; path_exists := path_exists w;
     popen_ok := popen_ok w; clock := clock w; ticks := ticks w;
     entropy := entropy w; drawn := drawn w;
     refresh_exchange := refresh_exchange w; trace := trace w |}.

Definition with_state_db_backup (w : World)
  (x : option (list (pystr * pystr))) : World :=
  {| data_dirs := data_dirs w; state_db := state_db w; copy_ok := copy_ok w;
     state_db_backup := x; procs := procs w;
     exe_path_global := exe_path_global w;
     exe_candidates := exe_candidates w; path_exists := path_exists w;
     popen_ok := popen_ok w; clock := clock w; ticks := ticks w;
     entropy := entropy w; drawn := drawn w;
     refresh_exchange := refresh_exchange w; trace := trace w |}.

Definition with_procs (w : World) (x : list Proc) : World :=
  {| data_dirs := data_dirs w; state_db := state_db w; copy_ok := copy_ok w;
     state_db_backup := state_db_backup w; procs := x;
     exe_path_global := exe_path_global w;
     exe_candidates := exe_candidates w; path_exists := path_exists w;
     popen_ok := popen_ok w; clock := clock w; ticks := ticks w;
     entropy := entropy w; drawn := drawn w;
     refresh_exchange := refresh_exchange w; trace := trace w |}.

Definition with_ticks (w : World) (x : nat) : World :=
  {| data_dirs := data_dirs w; state_db := state_db w; copy_ok := copy_ok w;
     state_db_backup := state_db_backup w; procs := procs w;
     exe_path_global := exe_path_global w;
     exe_candidates := exe_candidates w; path_exists := path_exists w;
     popen_ok := popen_ok w; clock := clock w; ticks := x;
     entropy := entropy w; drawn := drawn w;
     refresh_exchange := refresh_exchange w; trace := trace w |}.

Definition with_drawn (w : World) (x : nat) : World :=
  {| data_dirs := data_dirs w; state_db := state_db w; copy_ok := copy_ok w;
     state_db_backup := state_db_backup w; procs := procs w;
     exe_path_global := exe_path_global w;
     exe_candidates := exe_candidates w; path_exists := path_exists w;
     popen_ok := popen_ok w; clock := clock w; ticks := ticks w;
     entropy := entropy w; drawn := x;
     refresh_exchange := refresh_exchange w; trace := trace w |}.

Definition with_trace (w : World) (x : list Event) : World :=
  {| data_dirs := data_dirs w; state_db := state_db w; copy_ok := copy_ok w;
     state_db_backup := state_db_backup w; procs := procs w;
     exe_path_global := exe_path_global w;
     exe_candidates := exe_candidates w; path_exists := path_exists w;
     popen_ok := popen_ok w; clock := clock w; ticks := ticks w;
     entropy := entropy w; drawn := drawn w;
     refresh_exchange := refresh_exchange w; trace := x |}.

(** ** Computations that act on the world

    The world persists when a computation raises. *)
Definition M (A : Type) : Type := World -> result A * World.

Definition ret {A : Type} (a : A) : M A := fun w => (Ok a, w).

Definition raise {A : Type} (e : exn) : M A := fun w => (Raise e, w).

Definition bindM {A B : Type} (m : M A) (k : A -> M B) : M B :=
  fun w =>
    match m w with
    | (Ok a, w') => k a w'
    | (Raise e, w') => (Raise e, w')
    end.

Definition lift {A : Type} (r : result A) : M A := fun w => (r, w).

Definition gets {A : Type} (f : World -> A) : M A := fun w => (Ok (f w), w).

Definition modify (f : World -> World) : M unit := fun w => (Ok tt, f w).

Definition emit (e : Event) : M unit :=
  modify (fun w => with_trace w (trace w ++ [e])).

(** [try: m  except Exception as e: h e]. *)
Definition catch {A : Type} (m : M A) (h : exn -> M A) : M A :=
  fun w =>
    match m w with
    | (Ok a, w') => (Ok a, w')
    | (Raise e, w') => h e w'
    end.

Declare Scope world_scope.
Delimit Scope world_scope with world.
Notation "x <- m ;; k" := (bindM m (fun x => k))
  (at level 61, m at next level, right associativity) : world_scope.

(** [int(time.time() * 1000)]. *)
Definition now_ms : M Z :=
  fun w => (Ok (clock w (ticks w)), with_ticks w (S (ticks w))).

(** [secrets.token_bytes(n)]. *)
Definition token_bytes (n : nat) : M bytes :=
  fun w =>
    (Ok (map (fun i => entropy w (drawn w + i)%nat mod 256) (seq 0 n)),
     with_drawn w (drawn w + n)%nat).

(** * core.py: the functions *)

Module Core.
Import ProtoUtils.

Section WithPlatform.
Context {platform : Platform}.

(** ** [cryptography]'s [AESGCM] object *)

(** [AESGCM(key)]: the key must be 128, 192 or 256 bits long. *)
Definition AESGCM (key : bytes) : result bytes :=
  if (len key =? 16) || (len key =? 24) || (len key =? 32) then Ok key
  else Raise ValueError.

Definition check_nonce (nonce : bytes) : result unit :=
  if (len nonce <? 8) || (128 <? len nonce) then Raise ValueError
  else Ok tt.

(** [aesgcm.encrypt(nonce, data, None)]. *)
Definition AESGCM_encrypt (aesgcm nonce data : bytes) : result bytes :=
  _ <- check_nonce nonce ;;
  Ok (gcm_seal aesgcm nonce data).

(** [aesgcm.decrypt(nonce, data, None)]. *)
Definition AESGCM_decrypt (aesgcm nonce data : bytes) : result bytes :=
  _ <- check_nonce nonce ;;
  if len data <? 16 then Raise InvalidTag
  else match gcm_open aesgcm nonce data with
       | Some plaintext => Ok plaintext
       | None => Raise InvalidTag
       end.

(** ** Master key *)

Definition get_data_dirs (w : World) : list DataDir := data_dirs w.

(** The loop of [find_db_path]; a path is the index of its directory. *)
Fixpoint find_db_path_from (i : nat) (dirs : list DataDir) : option nat :=
  match dirs with
  | [] => None
  | d :: rest =>
      match accounts_db d with
      | Some _ => Some i
      | None => find_db_path_from (S i) rest
      end
  end.

Definition find_db_path (w : World) : option nat :=
  find_db_path_from 0 (get_data_dirs w).

(** Body of the first loop of [get_master_key] for a directory that has
    a "Local State" file. *)
Definition unwrap_local_state (ls : result bytes) : result bytes :=
  encrypted_key <- ls ;;
  let raw_key := skipn 5 encrypted_key in
  CryptUnprotectData raw_key.

(** First loop of [get_master_key]: [break] on the first success,
    [continue] on an exception. *)
Fixpoint oscrypt_key_loop (dirs : list DataDir) : option bytes :=
  match dirs with
  | [] => None
  | d :: rest =>
      match local_state d with
      | Some ls =>
          match unwrap_local_state ls with
          | Ok master_key_v10 => Some master_key_v10
          | Raise _ => oscrypt_key_loop rest
          end
      | None => oscrypt_key_loop rest
      end
  end.

(** [b[lo:hi]] for [0 <= lo <= hi]. *)
Definition slice (lo hi : nat) (b : bytes) : bytes :=
  firstn (hi - lo) (skipn lo b).

(** Body of the second loop for a directory that has a ".mk" file:
    [Some key] is [return key], [None] is [continue]. *)
Definition unseal_mk (oscrypt_key : option bytes) (blob : bytes)
  : option bytes :=
  if startswith blob (lit "v10") then
    match oscrypt_key with
    | None | Some [] => None
    | Some key =>
        let nonce := slice 3 15 blob in
        let ciphertext := skipn 15 blob in
        try_except
          (aesgcm <- AESGCM key ;;
           decrypted <- AESGCM_decrypt aesgcm nonce ciphertext ;;
           key_hex <- utf8_decode decrypted ;;
           k <- fromhex key_hex ;;
           Ok (Some k))
          None
    end
  else
    try_except
      (decrypted_bytes <- CryptUnprotectData blob ;;
       key_hex <- utf8_decode decrypted_bytes ;;
       k <- fromhex key_hex ;;
       Ok (Some k))
      None.

Fixpoint master_key_loop (oscrypt_key : option bytes) (dirs : list DataDir)
  : option bytes :=
  match dirs with
  | [] => None
  | d :: rest =>
      match mk d with
      | Some blob =>
          match unseal_mk oscrypt_key blob with
          | Some k => Some k
          | None => master_key_loop oscrypt_key rest
          end
      | None => master_key_loop oscrypt_key rest
      end
  end.

Definition get_master_key (w : World) : option bytes :=
  let data_dirs := get_data_dirs w in
  let oscrypt_key := oscrypt_key_loop data_dirs in
  master_key_loop oscrypt_key data_dirs.

(** ** Sealed fields *)

(** The [try] block of [decrypt_db_value]. *)
Definition unseal_parts (iv_hex tag_hex cipher_hex : pystr)
  (master_key : bytes) : result pystr :=
  iv <- fromhex iv_hex ;;
  tag <- fromhex tag_hex ;;
  ciphertext <- fromhex cipher_hex ;;
  aesgcm <- AESGCM master_key ;;
  plaintext <- AESGCM_decrypt aesgcm iv (ciphertext ++ tag) ;;
  utf8_decode plaintext.

Definition decrypt_db_value (value : option pystr) (master_key : bytes)
  : option pystr :=
  match value with
  | None => value
  | Some [] => value
  | Some v =>
      if startswith v (lit "{") || startswith v (lit "[") then value
      else
        match split 58 v with
        | [iv_hex; tag_hex; cipher_hex] =>
            match unseal_parts iv_hex tag_hex cipher_hex master_key with
            | Ok s => Some s
            | Raise _ => None
            end
        | _ => value
        end
  end.

Definition encrypt_db_value (text : pystr) (master_key : bytes) : M pystr :=
  (iv <- token_bytes 16 ;;
   aesgcm <- lift (AESGCM master_key) ;;
   data <- lift (utf8_encode text) ;;
   combined <- lift (AESGCM_encrypt aesgcm iv data) ;;
   let tag := skipn (length combined - 16) combined in
   let ciphertext := firstn (length combined - 16) combined in
   ret (hex iv ++ lit ":" ++ hex tag ++ lit ":" ++ hex ciphertext))%world.

(** ** Account store *)

Definition nonempty {A : Type} (o : option (list A)) : bool :=
  match o with
  | Some (_ :: _) => true
  | _ => false
  end.

(** [acc[key] = json.loads(decrypt_db_value(column, master_key))] when the
    decrypted text is truthy. *)
Definition load_field (column : option pystr) (master_key : bytes)
  : result (option json) :=
  match decrypt_db_value column master_key with
  | Some (c :: text) => j <- json_loads (c :: text) ;; Ok (Some j)
  | _ => Ok None
  end.

(** Body of the loop of [get_accounts]. *)
Definition load_account (master_key : option bytes) (r : Row)
  : result Account :=
  match master_key with
  | Some (b :: key) =>
      tok <- load_field (token_json r) (b :: key) ;;
      quo <- load_field (quota_json r) (b :: key) ;;
      Ok {| row := r; token := tok; quota := quo |}
  | _ => Ok {| row := r; token := None; quota := None |}
  end.

Fixpoint load_accounts (master_key : option bytes) (rows : list Row)
  : result (list Account) :=
  match rows with
  | [] => Ok []
  | r :: rest =>
      acc <- load_account master_key r ;;
      accounts <- load_accounts master_key rest ;;
      Ok (acc :: accounts)
  end.

Definition db_at (w : World) (path : nat) : option DbFile :=
  match nth_error (get_data_dirs w) path with
  | Some d => accounts_db d
  | None => None
  end.

Definition get_accounts : M (list Account) :=
  fun w =>
    match find_db_path w with
    | None => (Ok [], w)
    | Some db_path =>
        match db_at w db_path with
        | Some (DbTable rows) =>
            let master_key := get_master_key w in
            (load_accounts master_key rows, w)
        | _ => (Ok [], w)
        end
    end.

(** ** Injection *)

Fixpoint upsert (tbl : list (pystr * pystr)) (k v : pystr)
  : list (pystr * pystr) :=
  match tbl with
  | [] => [(k, v)]
  | (k', v') :: tbl' =>
      if str_eqb k' k then (k, v) :: tbl' else (k', v') :: upsert tbl' k v
  end.

Definition delete_key (tbl : list (pystr * pystr)) (k : pystr)
  : list (pystr * pystr) :=
  filter (fun kv => negb (str_eqb (fst kv) k)) tbl.

(** The four statements of the write transaction of [inject_token]. *)
Definition injected_items (tbl : list (pystr * pystr))
  (value_b64 auth_status : pystr) : list (pystr * pystr) :=
  let t1 := upsert tbl (lit "antigravityUnifiedStateSync.oauthToken")
              value_b64 in
  let t2 := upsert t1 (lit "antigravityAuthStatus") auth_status in
  let t3 := upsert t2 (lit "antigravityOnboarding") (lit "true") in
  delete_key t3 (lit "google.antigravity").

(** [account.get('name') or account.get('email')]. *)
Definition name_or_email (account : Account) : json :=
  match name (row account) with
  | Some (c :: n) => JStr (c :: n)
  | _ => JStr (email (row account))
  end.

(** The call [create_unified_oauth_token(access_token, refresh_token,
    expiry)] on values read from a token dict: the tokens must be [str]
    and the expiry an [int]. *)
Definition call_create_unified_oauth_token
  (access_token refresh_token expiry : json) : result pystr :=
  a <- as_str access_token ;;
  r <- as_str refresh_token ;;
  e <- as_int expiry ;;
  create_unified_oauth_token a r e.

(** The backup step of [inject_token]: a failed copy is printed and
    otherwise ignored. *)
Definition backup_state_db (sdb : StateDb) : M unit :=
  fun w =>
    if copy_ok w then
      emit EvBackup (with_state_db_backup w (Some (items sdb)))
    else (Ok tt, w).

(** The rest of [inject_token], from reading the token data on. *)
Definition write_token (account : Account) (sdb : StateDb) : M bool :=
  (let token_data :=
     match token account with Some t => t | None => JDict [] end in
   access_token <- lift (dict_get token_data (lit "access_token") JNull) ;;
   refresh_token <- lift (dict_get token_data (lit "refresh_token") JNull) ;;
   expiry <- lift (dict_get token_data (lit "expiry_timestamp") JNull) ;;
   if negb (truthy access_token) || negb (truthy refresh_token) then
     ret false
   else
     value_b64 <-
       lift (call_create_unified_oauth_token access_token refresh_token
               expiry) ;;
     if writable sdb then
       let auth_status :=
         json_dumps
           (JDict [(lit "name", name_or_email account);
                   (lit "email", JStr (email (row account)));
                   (lit "apiKey", access_token)]) in
       _ <- modify (fun w =>
              with_state_db w
                (Some {| items :=
                           injected_items (items sdb) value_b64 auth_status;
                         writable := writable sdb |})) ;;
       _ <- emit EvCommit ;;
       ret true
     else ret false)%world.

Definition inject_token (account : Account) : M bool :=
  (db <- gets state_db ;;
   match db with
   | None => ret false
   | Some sdb =>
       _ <- backup_state_db sdb ;;
       write_token account sdb
   end)%world.

(** ** Host process *)

Definition name_matches (name_hints : list pystr) (p : Proc) : bool :=
  match pname p with
  | Some (c :: n) =>
      existsb (fun hint => contains (str_lower (c :: n)) (str_lower hint))
        name_hints
  | _ => false
  end.

Definition remove_proc (p : Proc) (ps : list Proc) : list Proc :=
  filter (fun q => negb (pid q =? pid p)) ps.

(** The loop of [kill_process] over the processes seen. *)
Fixpoint kill_loop (name_hints : list pystr) (seen : list Proc)
  (killed : bool) : M bool :=
  match seen with
  | [] => ret killed
  | p :: rest =>
      if name_matches name_hints p && kill_ok p then
        (_ <- modify (fun w => with_procs w (remove_proc p (procs w))) ;;
         _ <- emit (EvKill (pid p)) ;;
         kill_loop name_hints rest true)%world
      else kill_loop name_hints rest killed
  end.

Definition kill_process (name_hints : list pystr) : M bool :=
  (seen <- gets procs ;;
   kill_loop name_hints seen false)%world.

(** First loop of [find_antigravity_executable]. *)
Fixpoint running_exe (exists_ : pystr -> bool) (seen : list Proc)
  : option pystr :=
  match seen with
  | [] => None
  | p :: rest =>
      match pname p, pexe p with
      | Some (c :: n), Some (e :: exe) =>
          if contains (str_lower (c :: n)) (lit "antigravity")
             && negb (contains (str_lower (c :: n)) (lit "manager"))
             && exists_ (e :: exe)
          then Some (e :: exe)
          else running_exe exists_ rest
      | _, _ => running_exe exists_ rest
      end
  end.

(** Second loop of [find_antigravity_executable]. *)
Fixpoint installed_exe (exists_ : pystr -> bool) (candidates : list pystr)
  : option pystr :=
  match candidates with
  | [] => None
  | path :: rest =>
      match path with
      | _ :: _ => if exists_ path then Some path
                  else installed_exe exists_ rest
      | [] => installed_exe exists_ rest
      end
  end.

Definition find_antigravity_executable (w : World) : option pystr :=
  match running_exe (path_exists w) (procs w) with
  | Some exe => Some exe
  | None => installed_exe (path_exists w) (exe_candidates w)
  end.

Definition start_process : M bool :=
  fun w =>
    let exe_path :=
      match exe_path_global w with
      | Some (c :: path) => Some (c :: path)
      | _ => find_antigravity_executable w
      end in
    match exe_path with
    | Some (c :: path) =>
        if path_exists w (c :: path) then
          if popen_ok w (c :: path) then
            (_ <- emit (EvLaunch (c :: path)) ;; ret true)%world w
          else (Ok false, w)
        else (Ok false, w)
    | _ => (Ok false, w)
    end.

(** ** Switching *)

Definition email_matches (email_pattern : pystr) (acc : Account) : bool :=
  contains (str_lower (email (row acc))) (str_lower email_pattern).

Definition switch_account (email_pattern : pystr) : M bool :=
  (accounts <- get_accounts ;;
   match find (email_matches email_pattern) accounts with
   | None => ret false
   | Some target =>
       _ <- kill_process [lit "Antigravity.exe"; lit "Antigravity"] ;;
       _ <- emit EvSleep ;;
       injected <- inject_token target ;;
       if injected then
         _ <- start_process ;;
         ret true
       else ret false
   end)%world.

(** ** Token lifecycle *)

Definition is_token_expired (token_data : json) : M bool :=
  (if negb (truthy token_data) then ret true
   else
     expiry <- lift (dict_get token_data (lit "expiry_timestamp") JNull) ;;
     if negb (truthy expiry) then ret true
     else
       now <- now_ms ;;
       e <- lift (as_int expiry) ;;
       ret (e <=? now))%world.

(** [refresh_access_token]: the response body, or the exception the
    HTTP exchange raised. *)
Definition refresh_access_token (refresh_token : json) : M json :=
  fun w => (refresh_exchange w refresh_token, w).

Inductive ErrorText : Type :=
| NoTokenData
| NoRefreshToken
| CannotAccessMasterKey
| ExceptionText (e : exn).

(** The status dict of [validate_and_refresh_account]. *)
Record Status : Type := {
  status_email : pystr;
  valid : bool;
  refreshed : bool;
  error : option ErrorText
}.

Definition set_token_json (r : Row) (x : option pystr) : Row :=
  {| email := email r; token_json := x; quota_json := quota_json r;
     name := name r; avatar_url := avatar_url r; last_used := last_used r;
     is_active := is_active r |}.

(** [UPDATE accounts SET token_json = ? WHERE email = ?]. *)
Definition update_token_json (rows : list Row) (encrypted_token : pystr)
  (email_ : pystr) : list Row :=
  map (fun r =>
         if str_eqb (email r) email_
         then set_token_json r (Some encrypted_token) else r)
      rows.

Fixpoint replace_nth {A : Type} (n : nat) (x : A) (l : list A) : list A :=
  match l, n with
  | [], _ => []
  | _ :: l', O => x :: l'
  | y :: l', S n' => y :: replace_nth n' x l'
  end.

(** Connect to [db_path], run the update and commit. *)
Definition store_token (db_path : option nat) (encrypted_token : pystr)
  (email_ : pystr) : M unit :=
  fun w =>
    match db_path with
    | None => (Raise TypeError, w)
    | Some path =>
        match nth_error (get_data_dirs w) path with
        | Some d =>
            match accounts_db d with
            | Some (DbTable rows) =>
                let d' :=
                  {| local_state := local_state d; mk := mk d;
                     accounts_db :=
                       Some (DbTable
                               (update_token_json rows encrypted_token
                                  email_)) |} in
                (Ok tt,
                 with_data_dirs w (replace_nth path d' (get_data_dirs w)))
            | _ => (Raise OSError, w)
            end
        | None => (Raise OSError, w)
        end
    end.

(** [updated_token[key] = v] on the copy of the token dict. *)
Definition dict_set (j : json) (k : pystr) (v : json) : result json :=
  match j with
  | JDict d => Ok (JDict (assoc_set d k v))
  | _ => Raise TypeError
  end.

Definition status (email_ : pystr) (v r : bool) (e : option ErrorText)
  : Status :=
  {| status_email := email_; valid := v; refreshed := r; error := e |}.

(** The [try] block of [validate_and_refresh_account]. *)
Definition refresh_and_store (email_ : pystr) (token_data : json)
  : M Status :=
  (refresh_token <- lift (dict_get token_data (lit "refresh_token") JNull) ;;
   if negb (truthy refresh_token) then
     ret (status email_ false false (Some NoRefreshToken))
   else
     new_tokens <- refresh_access_token refresh_token ;;
     db_path <- gets find_db_path ;;
     master_key <- gets get_master_key ;;
     match master_key with
     | Some (b :: key) =>
         access <- lift (dict_index new_tokens (lit "access_token")) ;;
         updated1 <- lift (dict_set token_data (lit "access_token") access) ;;
         now <- now_ms ;;
         expires_in <-
           lift (dict_get new_tokens (lit "expires_in") (JInt 3600)) ;;
         seconds <- lift (as_int expires_in) ;;
         updated_token <-
           lift (dict_set updated1 (lit "expiry_timestamp")
                   (JInt (now + seconds * 1000))) ;;
         encrypted_token <-
           encrypt_db_value (json_dumps updated_token) (b :: key) ;;
         _ <- store_token db_path encrypted_token email_ ;;
         ret (status email_ true true None)
     | _ => ret (status email_ false false (Some CannotAccessMasterKey))
     end)%world.

Definition validate_and_refresh_account (account : Account) : M Status :=
  (let email_ := email (row account) in
   match token account with
   | Some token_data =>
       if negb (truthy token_data) then
         ret (status email_ false false (Some NoTokenData))
       else
         expired <- is_token_expired token_data ;;
         if negb expired then ret (status email_ true false None)
         else
           catch (refresh_and_store email_ token_data)
             (fun e => ret (status email_ false false (Some (ExceptionText e))))
   | None => ret (status email_ false false (Some NoTokenData))
   end)%world.

End WithPlatform.
End Core.

(** * A reference platform

    A small stand-in for the libraries, on which the model runs on
    concrete worlds: a checksum cipher in the shape of AES-GCM (ciphertext
    then a 16-byte tag), an OS unwrap that strips a 4-byte "SEAL" header,
    a JSON printer for the values used here (no string escapes) with a
    reader that knows a fixed list of documents, and ASCII lower-casing. *)

Module Reference.

Definition checksum (key nonce data : bytes) : Z :=
  (fold_right Z.add 0 key + fold_right Z.add 0 nonce
   + fold_right Z.add 0 data) mod 256.

Definition ref_tag (key nonce data : bytes) : bytes :=
  repeat (checksum key nonce data) 16.

Definition mask (key : bytes) : Z :=
  match key with
  | k :: _ => k mod 256
  | [] => 0
  end.

Definition ref_seal (key nonce plaintext : bytes) : bytes :=
  let ct := map (fun b => (b + mask key) mod 256) plaintext in
  ct ++ ref_tag key nonce ct.

Definition ref_open (key nonce data : bytes) : option bytes :=
  let ct := firstn (length data - 16) data in
  let tag := skipn (length data - 16) data in
  if list_eq_dec Z.eq_dec tag (ref_tag key nonce ct) then
    Some (map (fun b => (b - mask key) mod 256) ct)
  else None.

Definition ref_unprotect (blob : bytes) : result bytes :=
  if startswith blob (lit "SEAL") then Ok (skipn 4 blob)
  else Raise OSError.

Definition join (sep : pystr) (parts : list pystr) : pystr :=
  match parts with
  | [] => []
  | p :: ps => p ++ flat_map (fun q => sep ++ q) ps
  end.

Definition decimal (z : Z) : pystr := lit (NilZero.string_of_int (Z.to_int z)).

Fixpoint ref_dumps (j : json) : pystr :=
  match j with
  | JNull => lit "null"
  | JBool true => lit "true"
  | JBool false => lit "false"
  | JInt z => decimal z
  | JStr s => [34] ++ s ++ [34]
  | JList l => lit "[" ++ join (lit ", ") (map ref_dumps l) ++ lit "]"
  | JDict d =>
      lit "{"
      ++ join (lit ", ")
           (map (fun kv => [34] ++ fst kv ++ [34] ++ lit ": "
                           ++ ref_dumps (snd kv)) d)
      ++ lit "}"
  end.

(** The documents the reader knows. *)
Definition token_AT1_RT1 : json :=
  JDict [(lit "access_token", JStr (lit "AT1"));
         (lit "refresh_token", JStr (lit "RT1"));
         (lit "expiry_timestamp", JInt 1700000000000)].

Definition token_AT1_only : json :=
  JDict [(lit "access_token", JStr (lit "AT1"));
         (lit "expiry_timestamp", JInt 1700000000000)].

Definition known_documents : list json := [token_AT1_RT1; token_AT1_only].

Definition ref_loads (s : pystr) : result json :=
  match find (fun j => str_eqb (ref_dumps j) s) known_documents with
  | Some j => Ok j
  | None => Raise ValueError
  end.

Definition ascii_lower (s : pystr) : pystr :=
  map (fun c => if (65 <=? c) && (c <=? 90) then c + 32 else c) s.

#[export] Instance platform : Platform := {|
  gcm_seal := ref_seal;
  gcm_open := ref_open;
  CryptUnprotectData := ref_unprotect;
  json_loads := ref_loads;
  json_dumps := ref_dumps;
  str_lower := ascii_lower
|}.

End Reference.

(** * Concrete worlds *)

Module Scenario.
Import Reference.

(** A 32-byte master key and its ".mk" file in the legacy format. *)
Definition master_key : bytes :=
  map (fun i => 16 + Z.of_nat i) (seq 0 32).

Definition mk_file : bytes := lit "SEAL" ++ hex master_key.

(** A quiet machine: one data directory with the key file and an account
    table, a writable host store, no host process, no executable. *)
Definition base_world (rows : list Row) : World :=
  {| data_dirs :=
       [{| local_state := None; mk := Some mk_file;
           accounts_db := Some (DbTable rows) |}];
     state_db := Some {| items := []; writable := true |};
     copy_ok := true;
     state_db_backup := None;
     procs := [];
     exe_path_global := None;
     exe_candidates := [];
     path_exists := fun _ => false;
     popen_ok := fun _ => true;
     clock := fun k => Z.of_nat k * 250 + 1700000100000;
     ticks := 0;
     entropy := fun k => Z.of_nat k * 7 + 1;
     drawn := 0;
     refresh_exchange := fun _ => Raise OSError;
     trace := [] |}.

(** [text] sealed under [master_key], as the model's own
    [encrypt_db_value] seals it. *)
Definition sealed (text : pystr) : pystr :=
  match fst (Core.encrypt_db_value text master_key (base_world [])) with
  | Ok envelope => envelope
  | Raise _ => []
  end.

Definition account_row (token_text : pystr) (quota_text : option pystr)
  : Row :=
  {| email := lit "ann@example.com";
     token_json := Some (sealed token_text);
     quota_json := quota_text;
     name := Some (lit "Ann");
     avatar_url := None;
     last_used := 1700000000000;
     is_active := 1 |}.

Definition host_proc : Proc :=
  {| pid := 4242; pname := Some (lit "Antigravity.exe");
     pexe := Some (lit "C:\Antigravity\Antigravity.exe");
     kill_ok := true |}.

(** The stored token has no refresh token; the host is running. *)
Definition world_missing_refresh : World :=
  with_procs (base_world [account_row (ref_dumps token_AT1_only) None])
    [host_proc].

(** The stored token is complete; no executable can be found. *)
Definition world_no_executable : World :=
  base_world [account_row (ref_dumps token_AT1_RT1) None].

(** Key files spread over two directories: the first has only a
    "Local State" record, the second only a versioned ".mk" file sealed
    under the key that record unwraps to. *)
Definition oscrypt_key : bytes := map (fun i => 64 + Z.of_nat i) (seq 0 32).

Definition dir_local_state_only : DataDir :=
  {| local_state := Some (Ok (lit "DPAPI" ++ lit "SEAL" ++ oscrypt_key));
     mk := None; accounts_db := None |}.

Definition mk_nonce : bytes := map (fun i => 200 + Z.of_nat i) (seq 0 12).

Definition dir_mk_only : DataDir :=
  {| local_state := None;
     mk := Some (lit "v10" ++ mk_nonce
                 ++ ref_seal oscrypt_key mk_nonce (hex master_key));
     accounts_db := None |}.

Definition world_with_dirs (dirs : list DataDir) : World :=
  with_data_dirs (base_world []) dirs.

(** An envelope of well-formed hexadecimal parts whose tag is wrong. *)
Definition tampered_envelope : pystr :=
  hex (repeat 0 16) ++ lit ":" ++ hex (repeat 255 16) ++ lit ":"
  ++ lit "7b7d".

(** The stored token opens; the stored quota is garbled. *)
Definition row_garbled_quota : Row :=
  account_row (ref_dumps token_AT1_RT1) (Some tampered_envelope).

Definition world_garbled_quota : World := base_world [row_garbled_quota].

(** A text with code points of one, two, three and four bytes. *)
Definition sample_text : pystr := [104; 233; 8364; 128512].

(** The stored token has expired, and the refresh exchange answers with
    a new access token and a new refresh token. *)
Definition exchange_response : json :=
  JDict [(lit "access_token", JStr (lit "AT2"));
         (lit "expires_in", JInt 3599);
         (lit "refresh_token", JStr (lit "RT2"))].

Definition world_expired_token : World :=
  let w := base_world [account_row (ref_dumps token_AT1_RT1) None] in
  {| data_dirs := data_dirs w; state_db := state_db w; copy_ok := copy_ok w;
     state_db_backup := state_db_backup w; procs := procs w;
     exe_path_global := exe_path_global w;
     exe_candidates := exe_candidates w; path_exists := path_exists w;
     popen_ok := popen_ok w; clock := clock w; ticks := ticks w;
     entropy := entropy w; drawn := drawn w;
     refresh_exchange := fun _ => Ok exchange_response;
     trace := trace w |}.

(** The world of [world_expired_token] after the expiry check has read
    the clock, and the envelope the refresh then writes: the merged
    record sealed after the second clock reading. *)
Definition world_after_expiry_check : World :=
  with_ticks world_expired_token 1.

Definition refreshed_record : list (pystr * json) :=
  [(lit "access_token", JStr (lit "AT2"));
   (lit "refresh_token", JStr (lit "RT1"));
   (lit "expiry_timestamp", JInt 1700003699250)].

Definition refreshed_envelope : pystr :=
  match fst (Core.encrypt_db_value (ref_dumps (JDict refreshed_record))
               master_key (with_ticks world_expired_token 2)) with
  | Ok envelope => envelope
  | Raise _ => []
  end.

Definition target_missing_refresh : Account :=
  {| row := account_row (ref_dumps token_AT1_only) None;
     token := Some token_AT1_only; quota := None |}.

Definition target_complete : Account :=
  {| row := account_row (ref_dumps token_AT1_RT1) None;
     token := Some token_AT1_RT1; quota := None |}.

(** The stored token is complete and the executable is there, but the
    launch call raises. *)
Definition world_launch_raises : World :=
  let w := world_no_executable in
  {| data_dirs := data_dirs w; state_db := state_db w; copy_ok := copy_ok w;
     state_db_backup := state_db_backup w; procs := procs w;
     exe_path_global := Some (lit "C:\Antigravity\Antigravity.exe");
     exe_candidates := exe_candidates w;
     path_exists := fun _ => true;
     popen_ok := fun _ => false;
     clock := clock w; ticks := ticks w; entropy := entropy w;
     drawn := drawn w; refresh_exchange := refresh_exchange w;
     trace := trace w |}.

End Scenario.

(** * Vocabulary of the properties *)

Module Props.

Definition ascii_char (c : Z) : Prop := 0 <= c < 128.

(** A length-delimited field as [create_string_field] lays it out: the
    tag, the length of the payload, the payload. *)
Definition delimited (field_num : Z) (payload : bytes) : bytes :=
  ProtoUtils.encode_varint_loop [] (Z.lor (Z.shiftl field_num 3) 2)
  ++ ProtoUtils.encode_varint_loop [] (len payload)
  ++ payload.

(** A lower-case hexadecimal digit. *)
Definition hexdigit (c : Z) : bool :=
  ((48 <=? c) && (c <=? 57)) || ((97 <=? c) && (c <=? 102)).

(** A code point [str.encode('utf-8')] accepts. *)
Definition is_scalar (c : Z) : Prop :=
  0 <= c < 0x110000 /\ ~ (0xD800 <= c <= 0xDFFF).

(** The token data of an account has no usable access token or no usable
    refresh token: the record is absent, or it is a dict in which one of
    the two keys is absent or falsy. *)
Definition missing_credentials (acc : Account) : Prop :=
  match token acc with
  | None => True
  | Some (JDict d) =>
      truthy (match assoc_get d (lit "access_token") with
              | Some v => v | None => JNull end) = false
      \/ truthy (match assoc_get d (lit "refresh_token") with
                 | Some v => v | None => JNull end) = false
  | Some _ => False
  end.

(** The processes [kill_process] terminates: those it sees whose name
    matches a hint and whose [kill()] does not raise. *)
Definition victims {platform : Platform} (name_hints : list pystr)
  (seen : list Proc) : list Proc :=
  filter (fun p => Core.name_matches name_hints p && kill_ok p) seen.

(** The backup step of [inject_token] as it shows in the trace. *)
Definition backup_events (w : World) : list Event :=
  match state_db w with
  | Some _ => if copy_ok w then [EvBackup] else []
  | None => []
  end.

(** The envelope [encrypt_db_value] writes for the encoded text [data]
    once it has drawn [iv]. *)
Definition envelope_of {platform : Platform} (key iv data : bytes)
  : pystr :=
  let combined := gcm_seal key iv data in
  let tag := skipn (length combined - 16) combined in
  let ciphertext := firstn (length combined - 16) combined in
  hex iv ++ lit ":" ++ hex tag ++ lit ":" ++ hex ciphertext.

(** What [decrypt_db_value] answers on a three-part envelope when it goes
    through AES-GCM rather than handing the value back. *)
Definition opened {platform : Platform} (iv_hex tag_hex cipher_hex : pystr)
  (key : bytes) : option pystr :=
  match Core.unseal_parts iv_hex tag_hex cipher_hex key with
  | Ok s => Some s
  | Raise _ => None
  end.

(** The token record [validate_and_refresh_account] writes back: the
    stored record [d] with the access token and the expiry replaced. *)
Definition merged_token (d : list (pystr * json)) (access : json)
  (now seconds : Z) : list (pystr * json) :=
  assoc_set (assoc_set d (lit "access_token") access)
    (lit "expiry_timestamp") (JInt (now + seconds * 1000)).

(** The [token_json] column of the row of [email_] in the table at
    [db_path]. *)
Definition stored_token (w : World) (db_path : nat) (email_ : pystr)
  : option pystr :=
  match Core.db_at w db_path with
  | Some (DbTable rows) =>
      match find (fun r => str_eqb (email r) email_) rows with
      | Some r => token_json r
      | None => None
      end
  | _ => None
  end.

Definition switch_hints : list pystr :=
  [lit "Antigravity.exe"; lit "Antigravity"].

(** What the first loop of [get_master_key] gets out of one directory. *)
Definition local_state_key {platform : Platform} (d : DataDir)
  : option bytes :=
  match local_state d with
  | Some ls =>
      match Core.unwrap_local_state ls with
      | Ok k => Some k
      | Raise _ => None
      end
  | None => None
  end.

(** What the second loop gets out of one directory, given the key the
    first loop ended with. *)
Definition mk_key {platform : Platform} (oscrypt_key : option bytes)
  (d : DataDir) : option bytes :=
  match mk d with
  | Some blob => Core.unseal_mk oscrypt_key blob
  | None => None
  end.

(** The first answer of [f] along [l]. *)
Fixpoint first_some {A B : Type} (f : A -> option B) (l : list A)
  : option B :=
  match l with
  | [] => None
  | a :: l' =>
      match f a with
      | Some b => Some b
      | None => first_some f l'
      end
  end.

(** [i] is the first position of [l] at which [f] answers, and it
    answers [b]. *)
Definition first_at {A B : Type} (f : A -> option B) (l : list A)
  (i : nat) (b : B) : Prop :=
  (exists a, nth_error l i = Some a /\ f a = Some b) /\
  (forall j a, (j < i)%nat -> nth_error l j = Some a -> f a = None).

(** A stored field that is a three-part envelope, not taken for plain
    JSON, which fails to open under [key]: a part is not hexadecimal, the
    key or nonce is refused, the tag does not verify, or the plaintext is
    not UTF-8. *)
Definition garbled {platform : Platform} (field : pystr) (key : bytes)
  : Prop :=
  field <> [] /\
  startswith field (lit "{") = false /\
  startswith field (lit "[") = false /\
  exists iv_hex tag_hex cipher_hex e,
    split 58 field = [iv_hex; tag_hex; cipher_hex] /\
    Core.unseal_parts iv_hex tag_hex cipher_hex key = Raise e.

End Props.

(** * Further vocabulary and worlds *)

Module MoreProps.

(** The number of colons in a value. *)
Definition colons (v : pystr) : nat := count_occ Z.eq_dec v 58.

(** A key length [AESGCM] accepts. *)
Definition aes_key_length (key : bytes) : Prop :=
  length key = 16%nat \/ length key = 24%nat \/ length key = 32%nat.

(** The rows [get_accounts] reads: those of the first database found,
    none when there is no database or it cannot be opened. *)
Definition table_rows (w : World) : list Row :=
  match Core.find_db_path w with
  | Some db_path =>
      match Core.db_at w db_path with
      | Some (DbTable rows) => rows
      | _ => []
      end
  | None => []
  end.


(** [SELECT value FROM ItemTable WHERE key = k]. *)
Fixpoint table_get (tbl : list (pystr * pystr)) (k : pystr)
  : option pystr :=
  match tbl with
  | [] => None
  | (k', v) :: tbl' => if str_eqb k' k then Some v else table_get tbl' k
  end.

(** The item table of the host store, empty when there is no store. *)
Definition store_items (w : World) : list (pystr * pystr) :=
  match state_db w with
  | Some sdb => items sdb
  | None => []
  end.

(** The auth-status record [inject_token] writes for an account. *)
Definition auth_status_record (account : Account) (access_token : json)
  : json :=
  JDict [(lit "name", Core.name_or_email account);
         (lit "email", JStr (email (row account)));
         (lit "apiKey", access_token)].

Definition key_oauth_token : pystr :=
  lit "antigravityUnifiedStateSync.oauthToken".
Definition key_auth_status : pystr := lit "antigravityAuthStatus".
Definition key_onboarding : pystr := lit "antigravityOnboarding".
Definition key_legacy : pystr := lit "google.antigravity".

(** The token data of an account holds string tokens [a] and [r], both
    non-empty, and an integer expiry [e]. *)
Definition has_credentials (account : Account) (a r : pystr) (e : Z)
  : Prop :=
  exists d,
    token account = Some (JDict d) /\
    assoc_get d (lit "access_token") = Some (JStr a) /\ a <> [] /\
    assoc_get d (lit "refresh_token") = Some (JStr r) /\ r <> [] /\
    assoc_get d (lit "expiry_timestamp") = Some (JInt e).

End MoreProps.

Module MoreScenario.
Import Reference Scenario.

(** One directory holding both key files in the versioned format. *)
Definition dir_both_files : DataDir :=
  {| local_state := Some (Ok (lit "DPAPI" ++ lit "SEAL" ++ oscrypt_key));
     mk := Some (lit "v10" ++ mk_nonce
                 ++ ref_seal oscrypt_key mk_nonce (hex master_key));
     accounts_db := None |}.

(** A directory with a "Local State" record that does not unwrap, before
    one with a legacy key file. *)
Definition dir_bad_local_state : DataDir :=
  {| local_state := Some (Raise ValueError); mk := None;
     accounts_db := None |}.

Definition dir_legacy_mk : DataDir :=
  {| local_state := None; mk := Some mk_file; accounts_db := None |}.


(** Token data with both tokens and no expiry. *)
Definition target_no_expiry : Account :=
  {| row := account_row (lit "{}") None;
     token := Some (JDict [(lit "access_token", JStr (lit "AT1"));
                           (lit "refresh_token", JStr (lit "RT1"))]);
     quota := None |}.

End MoreScenario.

Module HostProps.

(** The processes [kill_process] leaves running. *)
Definition survivors {platform : Platform} (name_hints : list pystr)
  (seen : list Proc) : list Proc :=
  filter (fun p => negb (Core.name_matches name_hints p && kill_ok p)) seen.

(** A process [find_antigravity_executable] takes for the running host:
    its name contains "antigravity" and not "manager", whatever the case,
    and its executable [exe] exists. *)
Definition running_host {platform : Platform} (w : World) (p : Proc)
  (exe : pystr) : Prop :=
  exists n,
    pname p = Some n /\ n <> [] /\
    contains (str_lower n) (lit "antigravity") = true /\
    contains (str_lower n) (lit "manager") = false /\
    pexe p = Some exe /\ exe <> [] /\ path_exists w exe = true.

(** A status dict is consistent: it names the account, it is valid
    exactly when it carries no error, and it is refreshed only when
    valid. *)
Definition consistent_status (email_ : pystr) (s : Core.Status) : Prop :=
  Core.status_email s = email_ /\
  (Core.valid s = true <-> Core.error s = None) /\
  (Core.refreshed s = true -> Core.valid s = true).

End HostProps.

Module LifecycleProps.

(** The token data of an account on which the expiry check raises: it is
    truthy and either no dict, or a dict whose ['expiry_timestamp'] is
    truthy and no number. *)
Definition unreadable_expiry (account : Account) : Prop :=
  exists j,
    token account = Some j /\ truthy j = true /\
    match j with
    | JDict d =>
        exists v e,
          assoc_get d (lit "expiry_timestamp") = Some v /\
          truthy v = true /\ as_int v = Raise e
    | _ => True
    end.

(** [w'] differs from [w] at most in the clock readings taken, the
    random bytes drawn and the data directories. *)
Definition vault_only (w w' : World) : Prop :=
  w' = with_data_dirs (with_drawn (with_ticks w (ticks w')) (drawn w'))
         (data_dirs w').

End LifecycleProps.

(** * core.py: maintenance of the account table *)

Module Maintenance.
Import Core.

(** The dict [get_ide_accounts] builds; its ['source'] is always
    ['ide']. *)
Record IdeAccount : Type := {
  ide_email : json;
  ide_name : json
}.

(** [j.items()]; only a [dict] has it. *)
Definition dict_items (j : json) : result (list (pystr * json)) :=
  match j with
  | JDict d => Ok d
  | _ => Raise AttributeError
  end.

(** [[m['percentage'] for n, m in models]]. *)
Fixpoint percentages (models : list (pystr * json)) : result (list json) :=
  match models with
  | [] => Ok []
  | (_, m) :: rest =>
      p <- dict_index m (lit "percentage") ;;
      ps <- percentages rest ;;
      Ok (p :: ps)
  end.

(** The numbers that [min] and the comparisons with [min_quota] and
    [best_score] need: on anything else one of them raises
    [TypeError]. *)
Fixpoint as_ints (values : list json) : result (list Z) :=
  match values with
  | [] => Ok []
  | v :: rest =>
      z <- as_int v ;;
      zs <- as_ints rest ;;
      Ok (z :: zs)
  end.

(** [min(p :: ps)]. *)
Definition minimum (p : Z) (ps : list Z) : Z := fold_left Z.min ps p.

(** [min] of a non-empty list of percentages, as a number. *)
Definition min_score (first : json) (others : list json) : result Z :=
  p <- as_int first ;;
  ps <- as_ints others ;;
  Ok (minimum p ps).

(** [DELETE FROM accounts WHERE email = ?]. *)
Definition delete_rows (rows : list Row) (email_ : pystr) : list Row :=
  filter (fun r => negb (str_eqb (email r) email_)) rows.

(** Connect to [db_path], run the delete and commit. *)
Definition delete_account (db_path : nat) (email_ : pystr) : M unit :=
  fun w =>
    match nth_error (get_data_dirs w) db_path with
    | Some d =>
        match accounts_db d with
        | Some (DbTable rows) =>
            let d' :=
              {| local_state := local_state d; mk := mk d;
                 accounts_db := Some (DbTable (delete_rows rows email_)) |} in
            (Ok tt,
             with_data_dirs w (replace_nth db_path d' (get_data_dirs w)))
        | _ => (Raise OSError, w)
        end
    | None => (Raise OSError, w)
    end.

Section WithPlatform.
Context {platform : Platform}.

(** The loop of [validate_all_accounts]. *)
Fixpoint validate_loop (accounts : list Account) : M (list Status) :=
  match accounts with
  | [] => ret []
  | acc :: rest =>
      (result <- validate_and_refresh_account acc ;;
       results <- validate_loop rest ;;
       ret (result :: results))%world
  end.

Definition validate_all_accounts : M (list Status) :=
  (accounts <- get_accounts ;;
   validate_loop accounts)%world.

Definition remove_account (email_pattern : pystr) : M bool :=
  (db_path <- gets find_db_path ;;
   match db_path with
   | None => ret false
   | Some path =>
       accounts <- get_accounts ;;
       match find (email_matches email_pattern) accounts with
       | None => ret false
       | Some target =>
           catch
             (_ <- delete_account path (email (row target)) ;;
              ret true)
             (fun _ => ret false)
       end
   end)%world.

(** Body of the loop of [auto_select_best_account] up to the score:
    [None] is [continue]. *)
Definition account_score (prefer_model : option pystr) (acc : Account)
  : result (option Z) :=
  quota_ <- dict_get (match quota acc with
                      | Some q => q
                      | None => JDict []
                      end) (lit "models") (JDict []) ;;
  if negb (truthy quota_) then Ok None
  else
    models <- dict_items quota_ ;;
    match prefer_model with
    | Some (c :: prefer) =>
        relevant <-
          percentages
            (filter (fun nm => contains (str_lower (fst nm))
                                 (str_lower (c :: prefer))) models) ;;
        match relevant with
        | [] => Ok None
        | v :: vs => score <- min_score v vs ;; Ok (Some score)
        end
    | _ =>
        all_quotas <- percentages models ;;
        match all_quotas with
        | [] => Ok (Some 0)
        | v :: vs => score <- min_score v vs ;; Ok (Some score)
        end
    end.

Fixpoint select_loop (min_quota : Z) (prefer_model : option pystr)
  (accounts : list Account) (best : option Account) (best_score : Z)
  : result (option Account) :=
  match accounts with
  | [] => Ok best
  | acc :: rest =>
      sc <- account_score prefer_model acc ;;
      match sc with
      | None => select_loop min_quota prefer_model rest best best_score
      | Some score =>
          if (min_quota <=? score) && (best_score <? score) then
            select_loop min_quota prefer_model rest (Some acc) score
          else select_loop min_quota prefer_model rest best best_score
      end
  end.

Definition auto_select_best_account (min_quota : Z)
  (prefer_model : option pystr) : M (option Account) :=
  (accounts <- get_accounts ;;
   lift (select_loop min_quota prefer_model accounts None (-1)))%world.

(** The [try] block of [get_ide_accounts] once a row was fetched. *)
Definition read_auth_status (value : pystr) : result (list IdeAccount) :=
  auth_data <- json_loads value ;;
  e <- dict_get auth_data (lit "email") (JStr []) ;;
  n <- dict_get auth_data (lit "name") (JStr []) ;;
  Ok [{| ide_email := e; ide_name := n |}].

(** A store that exists is read; whatever the [try] block raises gives
    the empty list. *)
Definition get_ide_accounts : M (list IdeAccount) :=
  (db <- gets state_db ;;
   match db with
   | None => ret []
   | Some sdb =>
       match MoreProps.table_get (items sdb)
               (lit "antigravityAuthStatus") with
       | None => ret []
       | Some value =>
           ret (try_except (read_auth_status value) [])
       end
   end)%world.

End WithPlatform.
End Maintenance.

Module MaintenanceProps.

(** A row whose email contains the pattern, whatever the case. *)
Definition row_matches {platform : Platform} (email_pattern : pystr)
  (r : Row) : bool :=
  contains (str_lower (email r)) (str_lower email_pattern).

(** The account [acc] has the score [s] (the least percentage of its
    models, or of those of the preferred family). *)
Definition scored {platform : Platform} (prefer_model : option pystr)
  (acc : Account) (s : Z) : Prop :=
  Maintenance.account_score prefer_model acc = Ok (Some s).

(** The invariant of the selection loop after the accounts [pre]: the
    best so far is the first of [pre] with the greatest passing score,
    or nothing has passed yet. *)
Definition selected {platform : Platform} (min_quota : Z)
  (prefer_model : option pystr)
  (pre : list Account) (best : option Account) (best_score : Z) : Prop :=
  match best with
  | Some b =>
      exists p1 p2,
        pre = p1 ++ b :: p2 /\
        scored prefer_model b best_score /\
        min_quota <= best_score /\ 0 <= best_score /\
        (forall acc s, In acc p1 -> scored prefer_model acc s ->
                       s < best_score) /\
        (forall acc s, In acc p2 -> scored prefer_model acc s ->
                       s <= best_score)
  | None =>
      best_score = -1 /\
      forall acc s, In acc pre -> scored prefer_model acc s ->
                    s < min_quota \/ s < 0
  end.

End MaintenanceProps.

(** * core.py: the user's PATH in the registry *)

Module WindowsPath.






End WindowsPath.

(** * core.py: aliases *)

Module Aliases.

(** The file [aliases.json] and its directory.
    - [alias_text]: the content of the file, [None] when it does not
      exist.
    - [makedirs_ok]: [os.makedirs(..., exist_ok=True)] returns.
    - [write_ok]: opening the file for writing and [json.dump] return.
    - [failed_write_text]: what the file holds after a write that
      raised. *)
Record AliasFile : Type := {
  alias_text : option pystr;
  makedirs_ok : bool;
  write_ok : bool;
  failed_write_text : option pystr
}.

Definition with_alias_text (f : AliasFile) (x : option pystr) : AliasFile :=
  {| alias_text := x; makedirs_ok := makedirs_ok f; write_ok := write_ok f;
     failed_write_text := failed_write_text f |}.

(** [x in container] for a string [x]. *)
Definition str_in (x : pystr) (container : json) : result bool :=
  match container with
  | JDict d =>
      Ok (match assoc_get d x with Some _ => true | None => false end)
  | JList l =>
      Ok (existsb (fun j => match j with
                            | JStr s => str_eqb s x
                            | _ => false
                            end) l)
  | JStr s => Ok (contains s x)
  | _ => Raise TypeError
  end.

(** [del j[k]] for a string key. *)
Definition dict_del (j : json) (k : pystr) : result json :=
  match j with
  | JDict d =>
      match assoc_get d k with
      | Some _ => Ok (JDict (filter (fun kv => negb (str_eqb (fst kv) k)) d))
      | None => Raise KeyError
      end
  | _ => Raise TypeError
  end.

Section WithPlatform.
Context {platform : Platform}.

(** [json.dump(obj, f, indent=2)] writes [json_dump_indent obj]. *)
Variable json_dump_indent : json -> pystr.

Definition get_aliases (f : AliasFile) : json :=
  match alias_text f with
  | None => JDict []
  | Some text => try_except (json_loads text) (JDict [])
  end.

(** The [try] block that writes the file. *)
Definition write_aliases (aliases : json) (f : AliasFile)
  : bool * AliasFile :=
  if write_ok f then
    (true, with_alias_text f (Some (json_dump_indent aliases)))
  else (false, with_alias_text f (failed_write_text f)).

Definition set_alias (alias email_ : pystr) (f : AliasFile)
  : result bool * AliasFile :=
  match Core.dict_set (get_aliases f) alias (JStr email_) with
  | Raise e => (Raise e, f)
  | Ok aliases =>
      if makedirs_ok f then
        let (b, f') := write_aliases aliases f in (Ok b, f')
      else (Raise OSError, f)
  end.

Definition remove_alias (alias : pystr) (f : AliasFile)
  : result bool * AliasFile :=
  match str_in alias (get_aliases f) with
  | Raise e => (Raise e, f)
  | Ok false => (Ok false, f)
  | Ok true =>
      match dict_del (get_aliases f) alias with
      | Raise e => (Raise e, f)
      | Ok aliases =>
          let (b, f') := write_aliases aliases f in (Ok b, f')
      end
  end.

Definition resolve_email_or_alias (pattern : pystr) (f : AliasFile)
  : result json :=
  dict_get (get_aliases f) pattern (JStr pattern).

End WithPlatform.

(** The aliases as a list of pairs, empty when the file holds no
    dict. *)
Definition alias_pairs {platform : Platform} (f : AliasFile)
  : list (pystr * json) :=
  match get_aliases f with
  | JDict d => d
  | _ => []
  end.

(** The pairs left by [del aliases[alias]]. *)
Definition without (d : list (pystr * json)) (alias : pystr)
  : list (pystr * json) :=
  filter (fun kv => negb (str_eqb (fst kv) alias)) d.

End Aliases.

Module HostScenario.
Import Reference Scenario.

(** Three processes: an editor, the host, and a helper of the host
    whose [kill()] raises. *)
Definition editor_proc : Proc :=
  {| pid := 77; pname := Some (lit "notepad.exe"); pexe := None;
     kill_ok := true |}.

Definition protected_proc : Proc :=
  {| pid := 4243; pname := Some (lit "antigravity-helper"); pexe := None;
     kill_ok := false |}.

Definition world_three_procs : World :=
  with_procs (base_world []) [editor_proc; host_proc; protected_proc].

(** The path fixed at load time is gone; the executable now sits at an
    install location. *)
Definition world_stale_path : World :=
  let w := base_world [] in
  {| data_dirs := data_dirs w; state_db := state_db w; copy_ok := copy_ok w;
     state_db_backup := state_db_backup w; procs := procs w;
     exe_path_global := Some (lit "C:\Old\Antigravity.exe");
     exe_candidates := [lit "D:\Antigravity\Antigravity.exe"];
     path_exists :=
       fun p => str_eqb p (lit "D:\Antigravity\Antigravity.exe");
     popen_ok := popen_ok w; clock := clock w; ticks := ticks w;
     entropy := entropy w; drawn := drawn w;
     refresh_exchange := refresh_exchange w; trace := trace w |}.

End HostScenario.

Module MaintenanceScenario.
Import Reference Scenario.

(** Quota records: Ann's weakest model is at 60, Bob's only model at
    90. *)
Definition quota_ann : json :=
  JDict [(lit "models",
          JDict [(lit "gemini-pro", JDict [(lit "percentage", JInt 80)]);
                 (lit "claude-sonnet",
                  JDict [(lit "percentage", JInt 60)])])].

Definition quota_bob : json :=
  JDict [(lit "models",
          JDict [(lit "gemini-pro", JDict [(lit "percentage", JInt 90)])])].

(** The auth-status record of Ann as [inject_token] writes it. *)
Definition auth_status_ann : json :=
  JDict [(lit "name", JStr (lit "Ann"));
         (lit "email", JStr (lit "ann@example.com"));
         (lit "apiKey", JStr (lit "AT1"))].

(** The reference platform with a reader that knows these documents
    too. *)
Definition documents : list json :=
  known_documents
  ++ [quota_ann; quota_bob; auth_status_ann;
      JDict [(lit "work", JStr (lit "ann@example.com"))]; JDict []].

Definition loads (s : pystr) : result json :=
  match find (fun j => str_eqb (ref_dumps j) s) documents with
  | Some j => Ok j
  | None => Raise ValueError
  end.

Definition wide_platform : Platform := {|
  gcm_seal := ref_seal;
  gcm_open := ref_open;
  CryptUnprotectData := ref_unprotect;
  json_loads := loads;
  json_dumps := ref_dumps;
  str_lower := ascii_lower
|}.

Definition ann_row : Row :=
  account_row (ref_dumps token_AT1_RT1) (Some (sealed (ref_dumps quota_ann))).

Definition bob_row : Row :=
  {| email := lit "bob@example.com";
     token_json := Some (sealed (ref_dumps token_AT1_only));
     quota_json := Some (sealed (ref_dumps quota_bob));
     name := None;
     avatar_url := None;
     last_used := 1690000000000;
     is_active := 0 |}.

Definition ann_account : Account :=
  {| row := ann_row; token := Some token_AT1_RT1; quota := Some quota_ann |}.

Definition bob_account : Account :=
  {| row := bob_row; token := Some token_AT1_only; quota := Some quota_bob |}.

(** Both tokens have expired; the refresh exchange answers. *)
Definition world_two_accounts : World :=
  with_data_dirs world_expired_token
    [{| local_state := None; mk := Some mk_file;
        accounts_db := Some (DbTable [ann_row; bob_row]) |}].

End MaintenanceScenario.

Module WindowsPathScenario.
Import WindowsPath.


End WindowsPathScenario.

Module AliasScenario.
Import Aliases.

(** No alias file yet; directory and file can be written. *)
Definition no_alias_file : AliasFile :=
  {| alias_text := None; makedirs_ok := true; write_ok := true;
     failed_write_text := None |}.

End AliasScenario.

(** * Properties

    From here on: lemmas and theorems only.  The theorems that settle a
    numbered claim of the specification carry its number in their
    comment. *)

Example enc300 : ProtoUtils.encode_varint 300 = Ok [172; 2].
Proof. reflexivity. Qed.
Example dec300 : ProtoUtils.read_varint [172; 2] 0 = Ok (300, 2).
Proof. reflexivity. Qed.

(** * Varints *)

Module VarintFacts.
Import ProtoUtils.

Lemma len_app {A : Type} (a b : list A) : len (a ++ b) = len a + len b.
Proof. unfold len. rewrite length_app. lia. Qed.

Lemma len_cons {A : Type} (x : A) (l : list A) : len (x :: l) = 1 + len l.
Proof. unfold len. simpl length. lia. Qed.

Lemma len_nonneg {A : Type} (l : list A) : 0 <= len l.
Proof. unfold len. lia. Qed.

Lemma getitem_middle {A : Type} (pre post : list A) (x : A) :
  getitem (pre ++ x :: post) (len pre) = Ok x.
Proof.
  unfold getitem.
  pose proof (len_nonneg pre) as Hp.
  destruct (Z.ltb_spec (len pre) 0); [lia |].
  rewrite len_app, len_cons.
  pose proof (len_nonneg post).
  destruct (Z.leb_spec 0 (len pre)); [| lia].
  destruct (Z.ltb_spec (len pre) (len pre + (1 + len post))); [| lia].
  simpl. unfold len. rewrite Nat2Z.id.
  rewrite nth_error_app2 by lia.
  rewrite Nat.sub_diag. reflexivity.
Qed.

(** One step of the encoder loop, as the [while] reads. *)
Lemma encode_varint_loop_step (buf : list Z) (val : Z) :
  encode_varint_loop buf val =
  if 128 <=? val
  then encode_varint_loop (buf ++ [Z.lor (Z.land val 0x7F) 0x80])
                          (Z.shiftr val 7)
  else buf ++ [val].
Proof.
  rewrite encode_varint_loop_equation_1.
  destruct (Z_le_gt_dec 128 val); simpl;
    destruct (Z.leb_spec 128 val); try lia; reflexivity.
Qed.

Lemma shiftr7_lt (val : Z) : 128 <= val -> 0 <= Z.shiftr val 7 < val.
Proof.
  intros H. rewrite Z.shiftr_div_pow2 by lia. change (2 ^ 7) with 128.
  split; [apply Z.div_pos; lia | apply Z.div_lt; lia].
Qed.

(** The accumulator only ever grows at its end. *)
Lemma encode_varint_loop_acc (val : Z) :
  0 <= val ->
  forall buf, encode_varint_loop buf val = buf ++ encode_varint_loop [] val.
Proof.
  intros Hval. pattern val. apply Z_lt_induction; [| exact Hval].
  clear val Hval. intros val IH buf.
  rewrite (encode_varint_loop_step buf), (encode_varint_loop_step []).
  destruct (Z.leb_spec 128 val) as [Hge | Hlt]; [| reflexivity].
  pose proof (shiftr7_lt val Hge) as Hs.
  rewrite (IH (Z.shiftr val 7) Hs (buf ++ _)).
  rewrite (IH (Z.shiftr val 7) Hs ([] ++ _)).
  rewrite <- app_assoc. reflexivity.
Qed.

Lemma encode_varint_loop_big (val : Z) :
  128 <= val ->
  encode_varint_loop [] val =
  Z.lor (Z.land val 0x7F) 0x80 :: encode_varint_loop [] (Z.shiftr val 7).
Proof.
  intros H. rewrite encode_varint_loop_step.
  destruct (Z.leb_spec 128 val); [| lia].
  rewrite encode_varint_loop_acc by (apply shiftr7_lt; lia).
  reflexivity.
Qed.

Lemma encode_varint_loop_small (val : Z) :
  val < 128 -> encode_varint_loop [] val = [val].
Proof.
  intros H. rewrite encode_varint_loop_step.
  destruct (Z.leb_spec 128 val); [lia | reflexivity].
Qed.

Lemma land_127 (val : Z) : Z.land val 0x7F = val mod 128.
Proof. change 0x7F with (Z.ones 7). rewrite Z.land_ones by lia. reflexivity. Qed.

Lemma land_128_zero (val : Z) : 0 <= val < 128 -> Z.land val 0x80 = 0.
Proof.
  intros H. apply Z.bits_inj'. intros n Hn.
  rewrite Z.land_spec, Z.bits_0.
  destruct (Z.eq_dec n 7) as [-> | Hne].
  - replace (Z.testbit val 7) with false; [reflexivity |].
    symmetry. apply Z.bits_above_log2; [lia |].
    destruct (Z.eq_dec val 0) as [-> | ?]; [simpl; lia |].
    apply Z.log2_lt_pow2; lia.
  - replace (Z.testbit 128 n) with false; [apply andb_false_r |].
    change 128 with (2 ^ 7). symmetry. apply Z.pow2_bits_false. lia.
Qed.

Lemma cont_byte_low (val : Z) :
  Z.land (Z.lor (Z.land val 0x7F) 0x80) 0x7F = Z.land val 0x7F.
Proof.
  rewrite Z.land_lor_distr_l.
  rewrite <- Z.land_assoc, Z.land_diag.
  change (Z.land 128 127) with 0. apply Z.lor_0_r.
Qed.

Lemma cont_byte_high (val : Z) :
  Z.land (Z.lor (Z.land val 0x7F) 0x80) 0x80 = 0x80.
Proof.
  rewrite Z.land_lor_distr_l.
  rewrite <- Z.land_assoc. change (Z.land 127 128) with 0.
  rewrite Z.land_0_r. reflexivity.
Qed.

(** A value is its low seven bits below the rest. *)
Lemma varint_split (val s : Z) :
  0 <= s ->
  Z.lor (Z.shiftl (Z.land val 0x7F) s) (Z.shiftl (Z.shiftr val 7) (s + 7))
  = Z.shiftl val s.
Proof.
  intros Hs. apply Z.bits_inj'. intros n Hn.
  rewrite Z.lor_spec, !Z.shiftl_spec by lia.
  rewrite land_127. change 128 with (2 ^ 7).
  destruct (Z_lt_ge_dec (n - s) 0) as [Hneg | Hpos].
  - rewrite !Z.testbit_neg_r by lia. reflexivity.
  - destruct (Z_lt_ge_dec (n - s) 7) as [Hlo | Hhi].
    + rewrite Z.mod_pow2_bits_low by lia.
      rewrite (Z.testbit_neg_r _ (n - (s + 7))) by lia.
      apply orb_false_r.
    + rewrite Z.mod_pow2_bits_high by lia.
      rewrite Z.shiftr_spec by lia.
      simpl. f_equal. lia.
Qed.

(** Reading an encoded value that sits anywhere in a buffer. *)
Lemma read_varint_loop_encoded (val : Z) :
  0 <= val ->
  forall (pre post : bytes) (res shift : Z),
    0 <= shift ->
    read_varint_loop (length (encode_varint_loop [] val ++ post))
      (pre ++ encode_varint_loop [] val ++ post) res shift (len pre)
    = Ok (Z.lor res (Z.shiftl val shift),
          len pre + len (encode_varint_loop [] val)).
Proof.
  intros Hval. generalize Hval. pattern val.
  apply Z_lt_induction; [| exact Hval].
  clear val Hval. intros val IH Hval pre post res shift Hshift.
  destruct (Z_lt_ge_dec val 128) as [Hlt | Hge].
  - rewrite encode_varint_loop_small by lia.
    simpl app. simpl length. cbn [read_varint_loop].
    rewrite getitem_middle. cbn [bind].
    rewrite land_128_zero by lia. simpl (0 =? 0).  cbv iota.
    rewrite land_127, Z.mod_small by lia.
    rewrite len_cons. reflexivity.
  - rewrite encode_varint_loop_big by lia.
    pose proof (shiftr7_lt val ltac:(lia)) as Hs.
    simpl app. simpl length. cbn [read_varint_loop].
    rewrite getitem_middle. cbn [bind].
    rewrite cont_byte_high. simpl (128 =? 0). cbv iota.
    rewrite cont_byte_low.
    set (b := Z.lor (Z.land val 0x7F) 0x80).
    set (rest := encode_varint_loop [] (Z.shiftr val 7)).
    replace (pre ++ b :: rest ++ post) with ((pre ++ [b]) ++ rest ++ post)
      by (rewrite <- app_assoc; reflexivity).
    replace (len pre + 1) with (len (pre ++ [b]))
      by (rewrite len_app, len_cons; reflexivity).
    unfold rest. rewrite IH by lia.
    rewrite <- Z.lor_assoc, varint_split by lia.
    rewrite len_app, !len_cons. fold rest. f_equal. f_equal.
    change (len (@nil Z)) with 0. lia.
Qed.

Lemma read_varint_encoded (val : Z) (pre post : bytes) :
  0 <= val ->
  read_varint (pre ++ encode_varint_loop [] val ++ post) (len pre)
  = Ok (val, len pre + len (encode_varint_loop [] val)).
Proof.
  intros Hval. unfold read_varint.
  replace (Z.to_nat (len (pre ++ encode_varint_loop [] val ++ post) - len pre))
    with (length (encode_varint_loop [] val ++ post))
    by (rewrite len_app; unfold len; lia).
  rewrite read_varint_loop_encoded by lia.
  rewrite Z.shiftl_0_r, Z.lor_0_l. reflexivity.
Qed.

Lemma encode_varint_ok (n : Z) :
  0 <= n -> encode_varint n = Ok (encode_varint_loop [] n).
Proof.
  intros H. unfold encode_varint.
  destruct (Z.ltb_spec n 0); [lia | reflexivity].
Qed.

End VarintFacts.

(** C5. For every non-negative [n], [read_varint(encode_varint(n), 0)]
    returns [n] together with the number of bytes [encode_varint(n)]
    produced: decoding inverts encoding and consumes exactly the encoded
    bytes. *)
Theorem read_varint_encode_varint (n : Z) :
  0 <= n ->
  exists enc : bytes,
    ProtoUtils.encode_varint n = Ok enc /\
    ProtoUtils.read_varint enc 0 = Ok (n, len enc).
Proof.
  intros Hn. exists (ProtoUtils.encode_varint_loop [] n). split.
  - apply VarintFacts.encode_varint_ok, Hn.
  - pose proof (VarintFacts.read_varint_encoded n [] [] Hn) as H.
    simpl app in H. rewrite app_nil_r in H. exact H.
Qed.

Lemma read_varint_encode_varint_witness :
  0 <= 300 /\
  exists enc : bytes,
    ProtoUtils.encode_varint 300 = Ok enc /\
    ProtoUtils.read_varint enc 0 = Ok (300, len enc).
Proof.
  split; [lia | apply (read_varint_encode_varint 300); lia].
Defined.

(** * The token blob *)

(** C1 (the code departs from the claim).  The blob built for
    [("AT1", "RT1", 1700000000000)] reads back to a leaf whose access
    token is "AT1", type "Bearer" and refresh token "RT1", and whose
    Timestamp field carries the expiry exactly as passed,
    [1700000000000]: the milliseconds are not divided by 1000, so the
    leaf does not carry [1700000000]. *)
Theorem unified_token_carries_expiry_undivided :
  bind (ProtoUtils.create_unified_oauth_token (lit "AT1") (lit "RT1")
          1700000000000)
       WireReader.read_unified_oauth_token
  = Ok {| WireReader.accessToken := lit "AT1";
          WireReader.tokenType := lit "Bearer";
          WireReader.refreshToken := lit "RT1";
          WireReader.expirySeconds := 1700000000000 |}
  /\ 1700000000000 <> 1700000000000 / 1000.
Proof. split; [vm_compute; reflexivity | vm_compute; discriminate]. Qed.

(** C7, as stated, fails: with an empty access token (and likewise an
    empty refresh token) [create_unified_oauth_token] raises nothing and
    returns a blob, whose leaf carries the empty string. *)
Lemma create_unified_oauth_token_accepts_empty :
  bind (ProtoUtils.create_unified_oauth_token [] (lit "RT1") 1700000000)
       WireReader.read_unified_oauth_token
  = Ok {| WireReader.accessToken := [];
          WireReader.tokenType := lit "Bearer";
          WireReader.refreshToken := lit "RT1";
          WireReader.expirySeconds := 1700000000 |}
  /\ is_ok (ProtoUtils.create_unified_oauth_token (lit "AT1") [] 1700000000)
     = true.
Proof. split; vm_compute; reflexivity. Qed.

(** * Switching accounts *)

Module SwitchFacts.
Import Core Props.

Section WithPlatform.
Context {platform : Platform}.

(** Reading the account table leaves the world as it was. *)
Lemma get_accounts_reads (w : World) :
  get_accounts w = (fst (get_accounts w), w).
Proof.
  unfold get_accounts.
  destruct (find_db_path w); [| reflexivity].
  destruct (db_at w n) as [[| rows] |]; reflexivity.
Qed.

Lemma with_trace_procs_id (w : World) :
  with_trace (with_procs w (procs w)) (trace w) = w.
Proof. destruct w; reflexivity. Qed.

(** The kill loop never raises; it changes the process table and the
    trace only, and adds one kill event per victim, in order. *)
Lemma kill_loop_spec (name_hints : list pystr) (seen : list Proc) :
  forall (killed : bool) (w : World),
  exists ps : list Proc,
    kill_loop name_hints seen killed w =
    (Ok (killed || negb (length (victims name_hints seen) =? 0)%nat),
     with_trace (with_procs w ps)
       (trace w ++ map (fun p => EvKill (pid p)) (victims name_hints seen))).
Proof.
  induction seen as [| p rest IH]; intros killed w.
  - exists (procs w). simpl. unfold ret.
    rewrite orb_false_r, app_nil_r, with_trace_procs_id. reflexivity.
  - cbn [kill_loop]. unfold victims. cbn [filter].
    fold (victims name_hints rest).
    destruct (name_matches name_hints p && kill_ok p).
    + unfold bindM, modify, emit, modify. cbn [fst snd].
      destruct (IH true
                  (with_trace (with_procs w (remove_proc p (procs w)))
                     (trace (with_procs w (remove_proc p (procs w)))
                      ++ [EvKill (pid p)]))) as [ps Hps].
      exists ps. rewrite Hps. cbn [map length]. cbn.
      rewrite orb_true_r. rewrite <- app_assoc. reflexivity.
    + apply IH.
Qed.

Lemma kill_process_spec (name_hints : list pystr) (w : World) :
  exists ps : list Proc,
    kill_process name_hints w =
    (Ok (negb (length (victims name_hints (procs w)) =? 0)%nat),
     with_trace (with_procs w ps)
       (trace w
        ++ map (fun p => EvKill (pid p)) (victims name_hints (procs w)))).
Proof.
  unfold kill_process, bindM, gets.
  destruct (kill_loop_spec name_hints (procs w) false w) as [ps H].
  exists ps. rewrite H. reflexivity.
Qed.

(** With credentials missing, the guard of [inject_token] answers
    [False] before anything is built or written. *)
Lemma write_token_missing_credentials (account : Account) (sdb : StateDb)
  (w : World) :
  missing_credentials account ->
  write_token account sdb w = (Ok false, w).
Proof.
  unfold missing_credentials, write_token. intros Hmiss.
  destruct (token account) as [[| | | | | d] |]; try contradiction.
  - unfold bindM, lift, dict_get.
    destruct Hmiss as [H | H]; rewrite H.
    + reflexivity.
    + rewrite orb_true_r. reflexivity.
  - reflexivity.
Qed.

Lemma inject_token_missing_credentials (account : Account) (w : World) :
  missing_credentials account ->
  inject_token account w =
  (Ok false,
   match state_db w with
   | Some sdb =>
       if copy_ok w
       then with_trace (with_state_db_backup w (Some (items sdb)))
              (trace w ++ [EvBackup])
       else w
   | None => w
   end).
Proof.
  intros Hmiss. unfold inject_token, bindM, gets.
  destruct (state_db w) as [sdb |]; [| reflexivity].
  unfold backup_state_db.
  destruct (copy_ok w).
  - unfold emit, modify.
    apply write_token_missing_credentials, Hmiss.
  - apply write_token_missing_credentials, Hmiss.
Qed.

End WithPlatform.
End SwitchFacts.

Section SwitchClaims.
Import Core Props.
Context {platform : Platform}.

(** C2, amended.  When the target's token data lacks a usable access or
    refresh token, [switch_account] answers [False] and neither writes
    the host store nor launches the host; but the credential check is
    the guard inside [inject_token], which runs after the kill step, the
    pause and the backup attempt: every matching process that could be
    killed has been killed by then. *)
Theorem switch_account_missing_credentials_after_kill
  (w : World) (email_pattern : pystr) (accounts : list Account)
  (target : Account) :
  fst (get_accounts w) = Ok accounts ->
  find (email_matches email_pattern) accounts = Some target ->
  missing_credentials target ->
  exists w' : World,
    switch_account email_pattern w = (Ok false, w') /\
    trace w' =
      trace w
      ++ map (fun p => EvKill (pid p)) (victims switch_hints (procs w))
      ++ [EvSleep] ++ backup_events w /\
    state_db w' = state_db w.
Proof.
  intros Hacc Hfind Hmiss.
  unfold switch_account, bindM.
  rewrite SwitchFacts.get_accounts_reads, Hacc, Hfind.
  destruct (SwitchFacts.kill_process_spec switch_hints w) as [ps Hkill].
  fold switch_hints. rewrite Hkill.
  unfold emit, modify.
  rewrite (SwitchFacts.inject_token_missing_credentials target _ Hmiss).
  unfold backup_events. cbn [state_db copy_ok with_trace with_procs].
  destruct (state_db w) as [sdb |] eqn:Hdb.
  - destruct (copy_ok w); eexists; (split; [reflexivity |]);
      cbn [trace state_db with_trace with_procs with_state_db_backup];
      rewrite <- ?app_assoc, ?app_nil_r; auto.
  - eexists. split; [reflexivity |].
    cbn [trace state_db with_trace with_procs].
    rewrite <- ?app_assoc, ?app_nil_r. auto.
Qed.

(** C4, amended.  Once injection has succeeded, [switch_account] answers
    [True] whatever [start_process] answers: the launch outcome is
    computed and dropped, and there is no separate launch-failed
    result. *)
Theorem switch_account_ignores_launch_outcome
  (w w1 w2 : World) (email_pattern : pystr) (accounts : list Account)
  (target : Account) (killed : bool) :
  fst (get_accounts w) = Ok accounts ->
  find (email_matches email_pattern) accounts = Some target ->
  kill_process switch_hints w = (Ok killed, w1) ->
  inject_token target (with_trace w1 (trace w1 ++ [EvSleep])) = (Ok true, w2) ->
  exists (launched : bool) (w3 : World),
    start_process w2 = (Ok launched, w3) /\
    switch_account email_pattern w = (Ok true, w3).
Proof.
  intros Hacc Hfind Hkill Hinject.
  unfold switch_account, bindM.
  rewrite SwitchFacts.get_accounts_reads, Hacc, Hfind.
  fold switch_hints. rewrite Hkill.
  unfold emit, modify. rewrite Hinject.
  unfold start_process.
  destruct (match exe_path_global w2 with
            | Some (c :: path) => Some (c :: path)
            | _ => find_antigravity_executable w2
            end) as [[| c path] |].
  - exists false, w2. split; reflexivity.
  - destruct (path_exists w2 (c :: path)).
    + destruct (popen_ok w2 (c :: path)).
      * eexists true, _. split; reflexivity.
      * exists false, w2. split; reflexivity.
    + exists false, w2. split; reflexivity.
  - exists false, w2. split; reflexivity.
Qed.

End SwitchClaims.

Section SwitchRuns.
Import Core Props Reference Scenario.

Lemma switch_account_missing_credentials_after_kill_witness :
  exists w' : World,
    switch_account (lit "ann") world_missing_refresh = (Ok false, w') /\
    trace w' =
      trace world_missing_refresh
      ++ map (fun p => EvKill (pid p))
           (victims switch_hints (procs world_missing_refresh))
      ++ [EvSleep] ++ backup_events world_missing_refresh /\
    state_db w' = state_db world_missing_refresh.
Proof.
  apply (switch_account_missing_credentials_after_kill
           world_missing_refresh (lit "ann") [target_missing_refresh]
           target_missing_refresh).
  - vm_compute. reflexivity.
  - vm_compute. reflexivity.
  - vm_compute. right. reflexivity.
Defined.

(** C2, as stated, fails: the stored token of the target has no refresh
    token, the host is running, and the run kills it (and then fails). *)
Lemma switch_account_kills_before_credential_check :
  fst (get_accounts world_missing_refresh) = Ok [target_missing_refresh] /\
    email_matches (lit "ann") target_missing_refresh = true /\
    missing_credentials target_missing_refresh /\
    procs world_missing_refresh = [host_proc] /\
    fst (switch_account (lit "ann") world_missing_refresh) = Ok false /\
    trace (snd (switch_account (lit "ann") world_missing_refresh))
    = [EvKill 4242; EvSleep; EvBackup] /\
    procs (snd (switch_account (lit "ann") world_missing_refresh)) = [].
Proof.
  split; [vm_compute; reflexivity |].
  split; [vm_compute; reflexivity |].
  split; [vm_compute; right; reflexivity |].
  repeat split; vm_compute; reflexivity.
Qed.

Lemma switch_account_ignores_launch_outcome_witness :
  exists (launched : bool) (w3 : World),
    start_process
      (snd (inject_token target_complete
              (with_trace world_no_executable
                 (trace world_no_executable ++ [EvSleep]))))
    = (Ok launched, w3) /\
    switch_account (lit "ann") world_no_executable = (Ok true, w3).
Proof.
  apply (switch_account_ignores_launch_outcome
           world_no_executable world_no_executable
           (snd (inject_token target_complete
                   (with_trace world_no_executable
                      (trace world_no_executable ++ [EvSleep]))))
           (lit "ann") [target_complete] target_complete false).
  - vm_compute. reflexivity.
  - vm_compute. reflexivity.
  - vm_compute. reflexivity.
  - vm_compute. reflexivity.
Defined.

(** C4, as stated, fails: injection succeeds, no executable is found (or
    the launch call raises), nothing is launched, and [switch_account]
    still answers [True]. *)
Lemma switch_account_true_though_launch_failed :
  (let w := snd (switch_account (lit "ann") world_no_executable) in
   fst (switch_account (lit "ann") world_no_executable) = Ok true /\
   trace w = [EvSleep; EvBackup; EvCommit] /\
   find_antigravity_executable w = None /\
   fst (start_process w) = Ok false)
  /\
  (let w := snd (switch_account (lit "ann") world_launch_raises) in
   fst (switch_account (lit "ann") world_launch_raises) = Ok true /\
   trace w = [EvSleep; EvBackup; EvCommit] /\
   fst (start_process w) = Ok false).
Proof. repeat split; vm_compute; reflexivity. Qed.

End SwitchRuns.

(** * Master key *)

Module MasterKeyFacts.
Import Core Props.

Lemma first_some_first_at {A B : Type} (f : A -> option B) (l : list A)
  (b : B) :
  first_some f l = Some b <-> exists i, first_at f l i b.
Proof.
  induction l as [| a l IH]; simpl.
  - split; [discriminate |].
    intros [i [[x [Hnth _]] _]]. destruct i; discriminate.
  - destruct (f a) as [b0 |] eqn:Hfa.
    + split.
      * intros Heq. inversion Heq; subst b0. exists 0%nat. split.
        -- exists a. split; [reflexivity | exact Hfa].
        -- intros j x Hj. inversion Hj.
      * intros [i [[x [Hnth Hfx]] Hbefore]].
        destruct i as [| i].
        -- simpl in Hnth. inversion Hnth; subst x. congruence.
        -- specialize (Hbefore 0%nat a (Nat.lt_0_succ i) eq_refl).
           congruence.
    + rewrite IH. split.
      * intros [i [[x [Hnth Hfx]] Hbefore]]. exists (S i). split.
        -- exists x. split; assumption.
        -- intros [| j] y Hj Hy.
           ++ simpl in Hy. inversion Hy; subst y. exact Hfa.
           ++ apply (Hbefore j y); [apply Nat.succ_lt_mono, Hj | exact Hy].
      * intros [i [[x [Hnth Hfx]] Hbefore]].
        destruct i as [| i].
        -- simpl in Hnth. inversion Hnth; subst x. congruence.
        -- exists i. split.
           ++ exists x. split; assumption.
           ++ intros j y Hj Hy.
              apply (Hbefore (S j) y); [apply -> Nat.succ_lt_mono; exact Hj
                                       | exact Hy].
Qed.

Section WithPlatform.
Context {platform : Platform}.

Lemma oscrypt_key_loop_first_some (dirs : list DataDir) :
  oscrypt_key_loop dirs = first_some local_state_key dirs.
Proof.
  induction dirs as [| d rest IH]; simpl; [reflexivity |].
  unfold local_state_key.
  destruct (local_state d) as [ls |]; [| exact IH].
  destruct (unwrap_local_state ls); [reflexivity | exact IH].
Qed.

Lemma master_key_loop_first_some (osk : option bytes) (dirs : list DataDir) :
  master_key_loop osk dirs = first_some (mk_key osk) dirs.
Proof.
  induction dirs as [| d rest IH]; simpl; [reflexivity |].
  unfold mk_key.
  destruct (mk d) as [blob |]; [| exact IH].
  destruct (unseal_mk osk blob); [reflexivity | exact IH].
Qed.

End WithPlatform.
End MasterKeyFacts.

(** C3, amended.  [get_master_key] goes through the candidate
    directories in their fixed order twice, and the two passes are
    independent: the OS-sealed key is the one of the first directory
    whose "Local State" record unwraps, and the master key is the one of
    the first directory whose ".mk" file opens given that key.  Nothing
    ties the two positions together, so the files may come from
    different directories. *)
Theorem get_master_key_two_independent_scans {platform : Platform}
  (w : World) :
  (forall osk : bytes,
     Core.oscrypt_key_loop (data_dirs w) = Some osk <->
     exists i, Props.first_at Props.local_state_key (data_dirs w) i osk) /\
  (forall k : bytes,
     Core.get_master_key w = Some k <->
     exists j,
       Props.first_at
         (Props.mk_key (Core.oscrypt_key_loop (data_dirs w)))
         (data_dirs w) j k).
Proof.
  split.
  - intros osk. rewrite MasterKeyFacts.oscrypt_key_loop_first_some.
    apply MasterKeyFacts.first_some_first_at.
  - intros k. unfold Core.get_master_key, Core.get_data_dirs.
    rewrite MasterKeyFacts.master_key_loop_first_some.
    apply MasterKeyFacts.first_some_first_at.
Qed.

(** C3, as stated, fails: no directory holds both key files, and a key
    comes out all the same, the "Local State" record of the first
    directory opening the ".mk" file of the second.  Neither directory
    alone gives a key. *)
Lemma get_master_key_mixes_directories :
  let d0 := Scenario.dir_local_state_only in
  let d1 := Scenario.dir_mk_only in
  mk d0 = None /\ local_state d1 = None /\
  @Core.get_master_key Reference.platform (Scenario.world_with_dirs [d0; d1])
  = Some Scenario.master_key /\
  @Core.get_master_key Reference.platform (Scenario.world_with_dirs [d0])
  = None /\
  @Core.get_master_key Reference.platform (Scenario.world_with_dirs [d1])
  = None /\
  @Core.get_master_key Reference.platform (Scenario.world_with_dirs [d1; d0])
  = Some Scenario.master_key.
Proof. repeat split; vm_compute; reflexivity. Qed.

(** * Account store *)

Module StoreFacts.
Import Core Props.

Section WithPlatform.
Context {platform : Platform}.

Lemma load_accounts_app (master_key : option bytes) (pre post : list Row)
  (pre' post' : list Account) :
  load_accounts master_key pre = Ok pre' ->
  load_accounts master_key post = Ok post' ->
  load_accounts master_key (pre ++ post) = Ok (pre' ++ post').
Proof.
  revert pre'. induction pre as [| r pre IH]; intros pre' Hpre Hpost.
  - simpl in Hpre. inversion Hpre. exact Hpost.
  - simpl in Hpre |- *.
    destruct (load_account master_key r) as [acc |]; [| discriminate].
    simpl in Hpre |- *.
    destruct (load_accounts master_key pre) as [accs |] eqn:Hrest;
      [| discriminate].
    simpl in Hpre. inversion Hpre; subst pre'.
    rewrite (IH accs eq_refl Hpost). reflexivity.
Qed.

(** A garbled field decrypts to [None]. *)
Lemma decrypt_db_value_garbled (field : pystr) (key : bytes) :
  garbled field key -> decrypt_db_value (Some field) key = None.
Proof.
  intros (Hne & Hbrace & Hbracket & iv & tag & ct & e & Hsplit & Hfail).
  unfold decrypt_db_value.
  destruct field as [| c field]; [contradiction |].
  rewrite Hbrace, Hbracket, Hsplit, Hfail. reflexivity.
Qed.

(** The loop body on a row whose token opens and whose quota is garbled. *)
Lemma load_account_garbled_quota (r : Row) (key : bytes)
  (q t : pystr) (tok : json) :
  key <> [] ->
  quota_json r = Some q -> garbled q key ->
  decrypt_db_value (token_json r) key = Some t -> t <> [] ->
  json_loads t = Ok tok ->
  load_account (Some key) r
  = Ok {| row := r; token := Some tok; quota := None |}.
Proof.
  intros Hkey Hq Hgarbled Htoken Ht Hloads.
  destruct key as [| b key]; [contradiction |].
  unfold load_account, load_field.
  rewrite Htoken. destruct t as [| c t]; [contradiction |].
  rewrite Hloads. cbn [bind].
  rewrite Hq, (decrypt_db_value_garbled q (b :: key) Hgarbled).
  reflexivity.
Qed.

End WithPlatform.
End StoreFacts.

(** C9.  A stored row whose token field opens to JSON and whose quota
    field is garbled ciphertext comes out of [get_accounts] as an
    account with the token present and the quota absent, and the garbled
    field raises nothing: the result is the list of accounts, the rows
    before and after it loaded as they load on their own. *)
Theorem get_accounts_garbled_quota {platform : Platform}
  (w : World) (db_path : nat) (pre post : list Row) (r : Row)
  (key : bytes) (q t : pystr) (tok : json) (pre' post' : list Account) :
  Core.find_db_path w = Some db_path ->
  Core.db_at w db_path = Some (DbTable (pre ++ r :: post)) ->
  Core.get_master_key w = Some key -> key <> [] ->
  quota_json r = Some q -> Props.garbled q key ->
  Core.decrypt_db_value (token_json r) key = Some t -> t <> [] ->
  json_loads t = Ok tok ->
  Core.load_accounts (Some key) pre = Ok pre' ->
  Core.load_accounts (Some key) post = Ok post' ->
  Core.get_accounts w
  = (Ok (pre' ++ {| row := r; token := Some tok; quota := None |} :: post'),
     w).
Proof.
  intros Hpath Hdb Hkey Hne Hq Hgarbled Htoken Ht Hloads Hpre Hpost.
  unfold Core.get_accounts. rewrite Hpath, Hdb, Hkey.
  f_equal. apply StoreFacts.load_accounts_app; [exact Hpre |].
  cbn [Core.load_accounts].
  rewrite (StoreFacts.load_account_garbled_quota r key q t tok
             Hne Hq Hgarbled Htoken Ht Hloads).
  cbn [bind]. rewrite Hpost. reflexivity.
Qed.

Lemma get_accounts_garbled_quota_witness :
  @Core.get_accounts Reference.platform Scenario.world_garbled_quota
  = (Ok ([] ++ {| row := Scenario.row_garbled_quota;
                  token := Some Reference.token_AT1_RT1;
                  quota := None |} :: []),
     Scenario.world_garbled_quota).
Proof.
  apply (@get_accounts_garbled_quota Reference.platform
           Scenario.world_garbled_quota 0%nat [] []
           Scenario.row_garbled_quota Scenario.master_key
           Scenario.tampered_envelope
           (Reference.ref_dumps Reference.token_AT1_RT1)
           Reference.token_AT1_RT1 [] []).
  - vm_compute. reflexivity.
  - vm_compute. reflexivity.
  - vm_compute. reflexivity.
  - vm_compute. discriminate.
  - vm_compute. reflexivity.
  - unfold Props.garbled.
    split; [vm_compute; discriminate |].
    split; [vm_compute; reflexivity |].
    split; [vm_compute; reflexivity |].
    exists (hex (repeat 0 16)), (hex (repeat 255 16)), (lit "7b7d"),
      InvalidTag.
    split; vm_compute; reflexivity.
  - vm_compute. reflexivity.
  - vm_compute. discriminate.
  - vm_compute. reflexivity.
  - reflexivity.
  - reflexivity.
Defined.

(** * Bytes, hexadecimal text and splitting *)

Module BytesFacts.
Import Props.

(** A boolean property checked on every value below [n] holds below [n]. *)
Lemma forall_below (n : nat) (P : Z -> bool) :
  forallb P (map Z.of_nat (seq 0 n)) = true ->
  forall z, 0 <= z < Z.of_nat n -> P z = true.
Proof.
  intros Hall z Hz. rewrite forallb_forall in Hall. apply Hall.
  apply in_map_iff. exists (Z.to_nat z). split; [lia |].
  apply in_seq. lia.
Qed.

(** The two digits [hex] writes for a byte, read back by [fromhex]. *)
Lemma hex_byte (b : Z) :
  is_byte b ->
  let hi := hex_digit (Z.shiftr b 4) in
  let lo := hex_digit (Z.land b 15) in
  is_space hi = false /\
  hex_value hi = Ok (Z.shiftr b 4) /\
  hex_value lo = Ok (Z.land b 15) /\
  Z.lor (Z.shiftl (Z.shiftr b 4) 4) (Z.land b 15) = b /\
  hexdigit hi = true /\ hexdigit lo = true.
Proof.
  intros Hb.
  pose proof (forall_below 256
    (fun b =>
       let hi := hex_digit (Z.shiftr b 4) in
       let lo := hex_digit (Z.land b 15) in
       negb (is_space hi)
       && (match hex_value hi with
           | Ok v => v =? Z.shiftr b 4 | Raise _ => false end)
       && (match hex_value lo with
           | Ok v => v =? Z.land b 15 | Raise _ => false end)
       && (Z.lor (Z.shiftl (Z.shiftr b 4) 4) (Z.land b 15) =? b)
       && hexdigit hi && hexdigit lo)
    eq_refl b Hb) as H.
  cbv beta zeta in H.
  repeat (apply andb_prop in H; destruct H as [H ?]).
  cbv zeta.
  destruct (hex_value (hex_digit (Z.shiftr b 4))) as [v1 |];
    [| discriminate].
  destruct (hex_value (hex_digit (Z.land b 15))) as [v2 |];
    [| discriminate].
  repeat split; auto.
  - apply negb_true_iff. assumption.
  - f_equal. apply Z.eqb_eq. assumption.
  - f_equal. apply Z.eqb_eq. assumption.
  - apply Z.eqb_eq. assumption.
Qed.

Lemma fromhex_hex (bs : bytes) :
  Forall is_byte bs -> fromhex (hex bs) = Ok bs.
Proof.
  induction 1 as [| b bs Hb _ IH]; [reflexivity |].
  destruct (hex_byte b Hb) as (Hsp & Hhi & Hlo & Hjoin & _).
  cbv zeta in Hsp, Hhi, Hlo.
  unfold hex. cbn [flat_map app]. fold (hex bs).
  cbn [fromhex]. rewrite Hsp, Hhi. cbn [bind]. rewrite Hlo. cbn [bind].
  rewrite IH. cbn [bind]. rewrite Hjoin. reflexivity.
Qed.

Lemma hex_digits (bs : bytes) :
  Forall is_byte bs -> Forall (fun c => hexdigit c = true) (hex bs).
Proof.
  induction 1 as [| b bs Hb _ IH]; [constructor |].
  destruct (hex_byte b Hb) as (_ & _ & _ & _ & Hhi & Hlo).
  unfold hex. cbn [flat_map app]. fold (hex bs).
  constructor; [exact Hhi |]. constructor; [exact Hlo | exact IH].
Qed.

Lemma hex_length (bs : bytes) : length (hex bs) = (2 * length bs)%nat.
Proof.
  induction bs as [| b bs IH]; [reflexivity |].
  unfold hex. cbn [flat_map app length]. fold (hex bs). rewrite IH. lia.
Qed.

(** A hexadecimal digit is not a colon, a brace or a bracket. *)
Lemma hexdigit_plain (c : Z) :
  hexdigit c = true -> c <> 58 /\ c <> 123 /\ c <> 91.
Proof. unfold hexdigit. lia. Qed.

Lemma split_plain (sep : Z) (s : pystr) :
  Forall (fun c => c <> sep) s -> split sep s = [s].
Proof.
  induction 1 as [| c s Hc _ IH]; [reflexivity |].
  cbn [split]. destruct (Z.eqb_spec c sep); [contradiction |].
  rewrite IH. reflexivity.
Qed.

Lemma split_app (sep : Z) (a rest : pystr) :
  Forall (fun c => c <> sep) a ->
  split sep (a ++ sep :: rest) = a :: split sep rest.
Proof.
  induction 1 as [| c a Hc _ IH].
  - cbn [app split]. rewrite Z.eqb_refl. reflexivity.
  - cbn [app split]. destruct (Z.eqb_spec c sep); [contradiction |].
    rewrite IH. reflexivity.
Qed.

Lemma hex_no_colon (bs : bytes) :
  Forall is_byte bs -> Forall (fun c => c <> 58) (hex bs).
Proof.
  intros H. apply hex_digits in H.
  eapply Forall_impl; [| exact H].
  intros c Hc. apply hexdigit_plain in Hc. tauto.
Qed.

(** An envelope splits into its three parts. *)
Lemma split_envelope (iv tag ct : bytes) :
  Forall is_byte iv -> Forall is_byte tag -> Forall is_byte ct ->
  split 58 (hex iv ++ lit ":" ++ hex tag ++ lit ":" ++ hex ct)
  = [hex iv; hex tag; hex ct].
Proof.
  intros Hiv Htag Hct.
  change (lit ":") with [58]. cbn [app].
  rewrite split_app by (apply hex_no_colon, Hiv).
  rewrite split_app by (apply hex_no_colon, Htag).
  rewrite split_plain by (apply hex_no_colon, Hct).
  reflexivity.
Qed.

Lemma Forall_firstn_skipn {A : Type} (P : A -> Prop) (n : nat)
  (l : list A) :
  Forall P l -> Forall P (firstn n l) /\ Forall P (skipn n l).
Proof.
  intros H. rewrite <- (firstn_skipn n l) in H.
  apply Forall_app in H. exact H.
Qed.

Lemma token_bytes_spec (n : nat) (w : World) :
  exists iv,
    token_bytes n w = (Ok iv, with_drawn w (drawn w + n)%nat) /\
    length iv = n /\ Forall is_byte iv.
Proof.
  eexists. split; [reflexivity |]. split.
  - rewrite length_map, length_seq. reflexivity.
  - apply Forall_forall. intros b Hin.
    apply in_map_iff in Hin. destruct Hin as (i & <- & _).
    unfold is_byte. apply Z.mod_pos_bound. lia.
Qed.

End BytesFacts.

(** * UTF-8 *)

Module Utf8Facts.
Import ProtoUtils Props BytesFacts.

(** A value is its bits above [k] over its low [k] bits. *)
Lemma low_bits_split (c k : Z) :
  0 <= k ->
  Z.lor (Z.shiftl (Z.shiftr c k) k) (Z.land c (Z.ones k)) = c.
Proof.
  intros Hk. apply Z.bits_inj'. intros n Hn.
  rewrite Z.lor_spec, Z.land_spec, Z.shiftl_spec by lia.
  destruct (Z_lt_ge_dec n k) as [Hlo | Hhi].
  - rewrite (Z.testbit_neg_r _ (n - k)) by lia.
    rewrite Z.ones_spec_low by lia. rewrite andb_true_r. reflexivity.
  - rewrite Z.shiftr_spec by lia.
    rewrite Z.ones_spec_high by lia. rewrite andb_false_r, orb_false_r.
    f_equal. lia.
Qed.

Lemma split6 (c : Z) :
  Z.lor (Z.shiftl (Z.shiftr c 6) 6) (Z.land c 0x3F) = c.
Proof. apply (low_bits_split c 6). lia. Qed.

Lemma low6_range (c : Z) : 0 <= Z.land c 0x3F < 64.
Proof.
  change 0x3F with (Z.ones 6). rewrite Z.land_ones by lia.
  apply Z.mod_pos_bound. lia.
Qed.

Lemma shiftr_range (c k lo hi : Z) :
  0 <= k -> lo * 2 ^ k <= c < hi * 2 ^ k -> lo <= Z.shiftr c k < hi.
Proof.
  intros Hk [Hlo Hhi]. rewrite Z.shiftr_div_pow2 by lia.
  assert (0 < 2 ^ k) by (apply Z.pow_pos_nonneg; lia).
  split.
  - apply Z.div_le_lower_bound; lia.
  - apply Z.div_lt_upper_bound; lia.
Qed.

(** A continuation byte built from six bits. *)
Lemma cont_byte (v : Z) :
  0 <= v < 64 ->
  let b := Z.lor 0x80 v in
  is_cont b = true /\ Z.land b 0x3F = v /\ is_byte b.
Proof.
  intros Hv.
  pose proof (forall_below 64
    (fun v => let b := Z.lor 0x80 v in
              is_cont b && (Z.land b 0x3F =? v) && (0 <=? b) && (b <? 256))
    eq_refl v Hv) as H.
  cbv beta zeta in H.
  repeat (apply andb_prop in H; destruct H as [H ?]).
  cbv zeta. unfold is_byte. repeat split; auto; lia.
Qed.

(** The lead byte of a two-byte sequence. *)
Lemma lead2_byte (h : Z) :
  0 <= h < 32 ->
  let b := Z.lor 0xC0 h in
  (0 <=? b) && (b <? 0x80) = false /\
  (0xC0 <=? b) && (b <? 0xE0) = true /\
  Z.land b 0x1F = h /\ is_byte b.
Proof.
  intros Hh.
  pose proof (forall_below 32
    (fun h => let b := Z.lor 0xC0 h in
              negb ((0 <=? b) && (b <? 0x80))
              && ((0xC0 <=? b) && (b <? 0xE0))
              && (Z.land b 0x1F =? h) && (0 <=? b) && (b <? 256))
    eq_refl h Hh) as H.
  cbv beta zeta in H.
  repeat (apply andb_prop in H; destruct H as [H ?]).
  cbv zeta. unfold is_byte.
  repeat split; auto; try lia; try (apply negb_true_iff; assumption).
Qed.

(** The lead byte of a three-byte sequence. *)
Lemma lead3_byte (h : Z) :
  0 <= h < 16 ->
  let b := Z.lor 0xE0 h in
  (0 <=? b) && (b <? 0x80) = false /\
  (0xC0 <=? b) && (b <? 0xE0) = false /\
  (0xE0 <=? b) && (b <? 0xF0) = true /\
  Z.land b 0x0F = h /\ is_byte b.
Proof.
  intros Hh.
  pose proof (forall_below 16
    (fun h => let b := Z.lor 0xE0 h in
              negb ((0 <=? b) && (b <? 0x80))
              && negb ((0xC0 <=? b) && (b <? 0xE0))
              && ((0xE0 <=? b) && (b <? 0xF0))
              && (Z.land b 0x0F =? h) && (0 <=? b) && (b <? 256))
    eq_refl h Hh) as H.
  cbv beta zeta in H.
  repeat (apply andb_prop in H; destruct H as [H ?]).
  cbv zeta. unfold is_byte.
  repeat split; auto; try lia; try (apply negb_true_iff; assumption).
Qed.

(** The lead byte of a four-byte sequence. *)
Lemma lead4_byte (h : Z) :
  0 <= h < 8 ->
  let b := Z.lor 0xF0 h in
  (0 <=? b) && (b <? 0x80) = false /\
  (0xC0 <=? b) && (b <? 0xE0) = false /\
  (0xE0 <=? b) && (b <? 0xF0) = false /\
  (0xF0 <=? b) && (b <? 0xF8) = true /\
  Z.land b 0x07 = h /\ is_byte b.
Proof.
  intros Hh.
  pose proof (forall_below 8
    (fun h => let b := Z.lor 0xF0 h in
              negb ((0 <=? b) && (b <? 0x80))
              && negb ((0xC0 <=? b) && (b <? 0xE0))
              && negb ((0xE0 <=? b) && (b <? 0xF0))
              && ((0xF0 <=? b) && (b <? 0xF8))
              && (Z.land b 0x07 =? h) && (0 <=? b) && (b <? 256))
    eq_refl h Hh) as H.
  cbv beta zeta in H.
  repeat (apply andb_prop in H; destruct H as [H ?]).
  cbv zeta. unfold is_byte.
  repeat split; auto; try lia; try (apply negb_true_iff; assumption).
Qed.

(** Six-bit groups put back together. *)
Lemma join2 (c : Z) :
  Z.lor (Z.shiftl (Z.shiftr c 6) 6) (Z.land c 0x3F) = c.
Proof. apply split6. Qed.

Lemma join3 (c : Z) :
  Z.lor (Z.shiftl (Z.shiftr c 12) 12)
    (Z.lor (Z.shiftl (Z.land (Z.shiftr c 6) 0x3F) 6) (Z.land c 0x3F)) = c.
Proof.
  rewrite Z.lor_assoc.
  replace (Z.shiftl (Z.shiftr c 12) 12)
    with (Z.shiftl (Z.shiftl (Z.shiftr (Z.shiftr c 6) 6) 6) 6)
    by (rewrite Z.shiftr_shiftr, Z.shiftl_shiftl by lia; reflexivity).
  rewrite <- Z.shiftl_lor, split6. apply split6.
Qed.

Lemma join4 (c : Z) :
  Z.lor (Z.shiftl (Z.shiftr c 18) 18)
    (Z.lor (Z.shiftl (Z.land (Z.shiftr c 12) 0x3F) 12)
       (Z.lor (Z.shiftl (Z.land (Z.shiftr c 6) 0x3F) 6) (Z.land c 0x3F)))
  = c.
Proof.
  rewrite Z.lor_assoc.
  replace (Z.shiftl (Z.shiftr c 18) 18)
    with (Z.shiftl (Z.shiftl (Z.shiftr (Z.shiftr c 12) 6) 6) 12)
    by (rewrite Z.shiftr_shiftr, Z.shiftl_shiftl by lia; reflexivity).
  rewrite <- Z.shiftl_lor, split6. apply join3.
Qed.

(** Decoding what one code point encodes to gives the code point back
    and goes on with the rest. *)
Lemma utf8_char_roundtrip (c : Z) (rest : bytes) :
  is_scalar c ->
  exists bs,
    utf8_encode_char c = Ok bs /\ Forall is_byte bs /\
    utf8_decode (bs ++ rest)
    = bind (utf8_decode rest) (fun s => Ok (c :: s)).
Proof.
  intros [[Hlo Hhi] Hsur]. unfold utf8_encode_char.
  destruct (Z.ltb_spec c 0) as [| _]; [lia |].
  destruct (Z.ltb_spec c 0x80) as [H1 | H1].
  { (* one byte *)
    exists [c]. split; [reflexivity |]. split.
    - constructor; [unfold is_byte; lia | constructor].
    - cbn [app utf8_decode].
      destruct (Z.leb_spec 0 c); [| lia].
      destruct (Z.ltb_spec c 0x80); [| lia]. reflexivity. }
  destruct (Z.ltb_spec c 0x800) as [H2 | H2].
  { (* two bytes *)
    assert (Hh : 2 <= Z.shiftr c 6 < 32)
      by (apply shiftr_range; [lia | change (2 ^ 6) with 64; lia]).
    destruct (lead2_byte (Z.shiftr c 6) ltac:(lia)) as (T1 & T2 & L & B0).
    destruct (cont_byte _ (low6_range c)) as (C1 & V1 & B1).
    cbv zeta in T1, T2, L, B0, C1, V1, B1.
    eexists. split; [reflexivity |]. split.
    - repeat (apply Forall_cons; [assumption |]). apply Forall_nil.
    - cbn [app utf8_decode]. rewrite T1, T2, C1, L, V1, join2.
      destruct (Z.leb_spec 0x80 c); [| lia]. reflexivity. }
  destruct (Z.leb_spec 0xD800 c) as [H3 | H3];
    destruct (Z.leb_spec c 0xDFFF) as [H4 | H4]; cbn [andb];
    try (exfalso; apply Hsur; lia).
  - (* above the surrogates *)
    destruct (Z.ltb_spec c 0x10000) as [H5 | H5].
    + assert (Hh : 0 <= Z.shiftr c 12 < 16)
        by (apply shiftr_range; [lia | change (2 ^ 12) with 4096; lia]).
      destruct (lead3_byte _ Hh) as (T1 & T2 & T3 & L & B0).
      destruct (cont_byte _ (low6_range (Z.shiftr c 6))) as (C1 & V1 & B1).
      destruct (cont_byte _ (low6_range c)) as (C2 & V2 & B2).
      cbv zeta in T1, T2, T3, L, B0, C1, V1, B1, C2, V2, B2.
      eexists. split; [reflexivity |]. split.
      * repeat (apply Forall_cons; [assumption |]). apply Forall_nil.
      * cbn [app utf8_decode].
        rewrite T1, T2, T3, C1, C2, L, V1, V2, join3.
        destruct (Z.leb_spec 0x800 c); [| lia].
        destruct (Z.leb_spec 0xD800 c); [| lia].
        destruct (Z.leb_spec c 0xDFFF); [lia |].
        reflexivity.
    + destruct (Z.ltb_spec c 0x110000) as [_ | ?]; [| lia].
      assert (Hh : 0 <= Z.shiftr c 18 < 8)
        by (apply shiftr_range; [lia | change (2 ^ 18) with 262144; lia]).
      destruct (lead4_byte _ Hh) as (T1 & T2 & T3 & T4 & L & B0).
      destruct (cont_byte _ (low6_range (Z.shiftr c 12))) as (C1 & V1 & B1).
      destruct (cont_byte _ (low6_range (Z.shiftr c 6))) as (C2 & V2 & B2).
      destruct (cont_byte _ (low6_range c)) as (C3 & V3 & B3).
      cbv zeta in T1, T2, T3, T4, L, B0, C1, V1, B1, C2, V2, B2, C3, V3, B3.
      eexists. split; [reflexivity |]. split.
      * repeat (apply Forall_cons; [assumption |]). apply Forall_nil.
      * cbn [app utf8_decode].
        rewrite T1, T2, T3, T4, C1, C2, C3, L, V1, V2, V3, join4.
        destruct (Z.leb_spec 0x10000 c); [| lia].
        destruct (Z.ltb_spec c 0x110000); [| lia].
        reflexivity.
  - (* below the surrogates: three bytes *)
    destruct (Z.ltb_spec c 0x10000) as [H5 | H5]; [| lia].
    assert (Hh : 0 <= Z.shiftr c 12 < 16)
      by (apply shiftr_range; [lia | change (2 ^ 12) with 4096; lia]).
    destruct (lead3_byte _ Hh) as (T1 & T2 & T3 & L & B0).
    destruct (cont_byte _ (low6_range (Z.shiftr c 6))) as (C1 & V1 & B1).
    destruct (cont_byte _ (low6_range c)) as (C2 & V2 & B2).
    cbv zeta in T1, T2, T3, L, B0, C1, V1, B1, C2, V2, B2.
    eexists. split; [reflexivity |]. split.
    + repeat (apply Forall_cons; [assumption |]). apply Forall_nil.
    + cbn [app utf8_decode].
      rewrite T1, T2, T3, C1, C2, L, V1, V2, join3.
      destruct (Z.leb_spec 0x800 c); [| lia].
      destruct (Z.leb_spec 0xD800 c); [lia |].
      reflexivity.
Qed.

(** [s.encode('utf-8')] succeeds on scalar values, gives bytes, and
    [decode] turns them back into [s]. *)
Lemma utf8_roundtrip (s : pystr) :
  Forall is_scalar s ->
  exists bs,
    utf8_encode s = Ok bs /\ Forall is_byte bs /\ utf8_decode bs = Ok s.
Proof.
  induction 1 as [| c s Hc _ (bs & Henc & Hbytes & Hdec)].
  - exists []. repeat split; constructor.
  - destruct (utf8_char_roundtrip c bs Hc) as (b & Hb & Hbb & Hd).
    exists (b ++ bs). cbn [utf8_encode]. rewrite Hb, Henc. cbn [bind].
    split; [reflexivity |]. split.
    + apply Forall_app. split; assumption.
    + rewrite Hd, Hdec. reflexivity.
Qed.

(** ASCII text is its own encoding. *)
Lemma utf8_ascii (s : pystr) :
  Forall (fun c => 0 <= c < 128) s ->
  utf8_encode s = Ok s /\ utf8_decode s = Ok s.
Proof.
  induction 1 as [| c s Hc _ [IHe IHd]]; [split; reflexivity |].
  cbn [utf8_encode utf8_decode]. unfold utf8_encode_char.
  destruct (Z.ltb_spec c 0); [lia |].
  destruct (Z.ltb_spec c 0x80); [| lia].
  destruct (Z.leb_spec 0 c); [| lia].
  cbn [andb bind]. rewrite IHe, IHd. split; reflexivity.
Qed.

End Utf8Facts.

(** * The reference platform meets the assumptions *)

Module ReferenceFacts.
Import Reference.

Lemma ref_tag_length (key nonce data : bytes) :
  length (ref_tag key nonce data) = 16%nat.
Proof. apply repeat_length. Qed.

Lemma mask_range (key : bytes) : 0 <= mask key < 256.
Proof.
  unfold mask. destruct key; [lia | apply Z.mod_pos_bound; lia].
Qed.

Lemma unmask_mask (m b : Z) :
  0 <= m < 256 -> is_byte b -> ((b + m) mod 256 - m) mod 256 = b.
Proof.
  unfold is_byte. intros Hm Hb.
  destruct (Z_lt_ge_dec (b + m) 256).
  - rewrite (Z.mod_small (b + m)) by lia.
    replace (b + m - m) with b by lia. apply Z.mod_small. lia.
  - replace ((b + m) mod 256) with (b + m - 256).
    + replace (b + m - 256 - m) with (b + (-1) * 256) by lia.
      rewrite Z.mod_add by lia. apply Z.mod_small. lia.
    + symmetry. replace (b + m) with (b + m - 256 + 1 * 256) at 1 by lia.
      rewrite Z.mod_add by lia. apply Z.mod_small. lia.
Qed.

#[export] Instance reference_laws : PlatformLaws Reference.platform.
Proof.
  constructor; cbn [gcm_seal gcm_open platform].
  - intros key nonce pt. unfold ref_seal.
    rewrite length_app, length_map, ref_tag_length. reflexivity.
  - intros key nonce pt _ _ _. unfold ref_seal.
    apply Forall_app. split.
    + apply Forall_forall. intros b Hin.
      apply in_map_iff in Hin. destruct Hin as (x & <- & _).
      apply Z.mod_pos_bound. lia.
    + apply Forall_forall. intros b Hin.
      apply repeat_spec in Hin. subst b.
      apply Z.mod_pos_bound. lia.
  - intros key nonce pt _ _ Hpt. unfold ref_seal, ref_open.
    set (ct := map (fun b => (b + mask key) mod 256) pt).
    replace (length (ct ++ ref_tag key nonce ct) - 16)%nat
      with (length ct + 0)%nat
      by (rewrite length_app, ref_tag_length; lia).
    rewrite firstn_app_2, skipn_app, firstn_O, app_nil_r.
    replace (length ct + 0 - length ct)%nat with 0%nat by lia.
    rewrite (skipn_all2 ct) by lia. cbn [skipn app].
    destruct (list_eq_dec Z.eq_dec (ref_tag key nonce ct)
                (ref_tag key nonce ct)); [| contradiction].
    f_equal. unfold ct. rewrite map_map.
    rewrite <- (map_id pt) at 2. apply map_ext_in.
    intros b Hin. apply unmask_mask; [apply mask_range |].
    rewrite Forall_forall in Hpt. apply Hpt, Hin.
  - intros key nonce data pt. unfold ref_open.
    destruct (list_eq_dec Z.eq_dec _ _) as [Heq |]; [| discriminate].
    intros Hpt. inversion Hpt; subst pt.
    apply (f_equal (@length Z)) in Heq.
    rewrite ref_tag_length, length_skipn in Heq.
    rewrite length_map, length_firstn. lia.
Qed.

End ReferenceFacts.

(** * Sealed fields *)

Module EnvelopeFacts.
Import ProtoUtils Core Props BytesFacts Utf8Facts.

Lemma utf8_encode_char_scalar (c : Z) (bs : bytes) :
  utf8_encode_char c = Ok bs -> is_scalar c.
Proof.
  unfold utf8_encode_char, is_scalar.
  destruct (Z.ltb_spec c 0); [discriminate |].
  destruct (Z.ltb_spec c 0x80); [lia |].
  destruct (Z.ltb_spec c 0x800); [lia |].
  destruct (Z.leb_spec 0xD800 c); destruct (Z.leb_spec c 0xDFFF);
    cbn [andb]; try discriminate;
    destruct (Z.ltb_spec c 0x10000); try lia;
    destruct (Z.ltb_spec c 0x110000); try lia; discriminate.
Qed.

Lemma utf8_encode_scalar (s : pystr) (bs : bytes) :
  utf8_encode s = Ok bs -> Forall is_scalar s.
Proof.
  revert bs. induction s as [| c s IH]; intros bs H; [constructor |].
  cbn [utf8_encode] in H.
  destruct (utf8_encode_char c) as [b |] eqn:Hc; [| discriminate].
  destruct (utf8_encode s) as [bs' |] eqn:Hs; [| discriminate].
  constructor; [eapply utf8_encode_char_scalar, Hc | eapply IH; reflexivity].
Qed.

(** Decoding never gives more code points than there are bytes. *)
Lemma utf8_decode_length (n : nat) :
  forall (bs : bytes) (s : pystr),
    (length bs <= n)%nat -> utf8_decode bs = Ok s ->
    (length s <= length bs)%nat.
Proof.
  induction n as [| n IH]; intros bs s Hn Hdec.
  - destruct bs; [| simpl in Hn; lia].
    simpl in Hdec. inversion Hdec. simpl. lia.
  - destruct bs as [| b0 r0]; [simpl in Hdec; inversion Hdec; simpl; lia |].
    cbn [utf8_decode] in Hdec. cbn [length] in Hn |- *.
    destruct ((0 <=? b0) && (b0 <? 128)).
    { destruct (utf8_decode r0) as [s0 |] eqn:H0; [| discriminate].
      inversion Hdec; subst s. cbn [length].
      specialize (IH r0 s0 ltac:(lia) H0). lia. }
    destruct ((192 <=? b0) && (b0 <? 224)).
    { destruct r0 as [| b1 r1]; [discriminate |].
      destruct (is_cont b1 && _); [| discriminate].
      destruct (utf8_decode r1) as [s1 |] eqn:H1; [| discriminate].
      inversion Hdec; subst s. cbn [length] in Hn |- *.
      specialize (IH r1 s1 ltac:(lia) H1). lia. }
    destruct ((224 <=? b0) && (b0 <? 240)).
    { destruct r0 as [| b1 [| b2 r2]]; try discriminate.
      destruct (is_cont b1 && _ && _ && _); [| discriminate].
      destruct (utf8_decode r2) as [s2 |] eqn:H2; [| discriminate].
      inversion Hdec; subst s. cbn [length] in Hn |- *.
      specialize (IH r2 s2 ltac:(lia) H2). lia. }
    destruct ((240 <=? b0) && (b0 <? 248)); [| discriminate].
    destruct r0 as [| b1 [| b2 [| b3 r3]]]; try discriminate.
    destruct (is_cont b1 && _ && _ && _ && _); [| discriminate].
    destruct (utf8_decode r3) as [s3 |] eqn:H3; [| discriminate].
    inversion Hdec; subst s. cbn [length] in Hn |- *.
    specialize (IH r3 s3 ltac:(lia) H3). lia.
Qed.

Section WithPlatform.
Context {platform : Platform}.

Lemma AESGCM_inv (key k : bytes) : AESGCM key = Ok k -> k = key.
Proof.
  unfold AESGCM.
  destruct ((len key =? 16) || (len key =? 24) || (len key =? 32));
    [intros H; inversion H; reflexivity | discriminate].
Qed.

Lemma check_nonce_16 (iv : bytes) :
  length iv = 16%nat -> check_nonce iv = Ok tt.
Proof. unfold check_nonce, len. intros ->. reflexivity. Qed.

(** [encrypt_db_value] returns exactly when the key has an AES length and
    the text encodes, and then it returns [envelope_of]. *)
Lemma encrypt_db_value_inv (text : pystr) (key : bytes) (w w' : World)
  (envelope : pystr) :
  encrypt_db_value text key w = (Ok envelope, w') ->
  exists iv data,
    length iv = 16%nat /\ Forall is_byte iv /\
    AESGCM key = Ok key /\ utf8_encode text = Ok data /\
    envelope = envelope_of key iv data /\
    w' = with_drawn w (drawn w + 16)%nat.
Proof.
  unfold encrypt_db_value, bindM.
  destruct (token_bytes_spec 16 w) as (iv & Hiv & Hlen & Hbytes).
  rewrite Hiv. unfold lift.
  destruct (AESGCM key) as [k |] eqn:Hkey; [| discriminate].
  pose proof (AESGCM_inv key k Hkey) as ->.
  destruct (utf8_encode text) as [data |] eqn:Hdata; [| discriminate].
  unfold AESGCM_encrypt, check_nonce, len. rewrite Hlen.
  cbn [bind Z.of_nat]. cbn. unfold ret.
  intros H. inversion H. exists iv, data.
  repeat split; auto.
Qed.

Lemma encrypt_db_value_ok (text : pystr) (key data : bytes) (w : World) :
  AESGCM key = Ok key -> utf8_encode text = Ok data ->
  exists iv,
    length iv = 16%nat /\ Forall is_byte iv /\
    encrypt_db_value text key w
    = (Ok (envelope_of key iv data), with_drawn w (drawn w + 16)%nat).
Proof.
  intros Hkey Hdata. unfold encrypt_db_value, bindM.
  destruct (token_bytes_spec 16 w) as (iv & Hiv & Hlen & Hbytes).
  exists iv. split; [exact Hlen |]. split; [exact Hbytes |].
  rewrite Hiv. unfold lift. rewrite Hkey, Hdata.
  unfold AESGCM_encrypt, check_nonce, len. rewrite Hlen.
  reflexivity.
Qed.

(** A value that is not empty, not taken for JSON and has three parts
    goes through AES-GCM. *)
Lemma decrypt_db_value_three_parts (v iv_hex tag_hex cipher_hex : pystr)
  (key : bytes) :
  v <> [] ->
  startswith v (lit "{") = false -> startswith v (lit "[") = false ->
  split 58 v = [iv_hex; tag_hex; cipher_hex] ->
  decrypt_db_value (Some v) key = opened iv_hex tag_hex cipher_hex key.
Proof.
  intros Hne Hbrace Hbracket Hsplit. unfold decrypt_db_value, opened.
  destruct v as [| c v]; [contradiction |].
  rewrite Hbrace, Hbracket, Hsplit. reflexivity.
Qed.

Lemma startswith_hex_false (bs : bytes) (rest : pystr) (c : Z) :
  bs <> [] -> Forall is_byte bs -> c = 123 \/ c = 91 ->
  startswith (hex bs ++ rest) [c] = false.
Proof.
  intros Hne Hbytes Hc. destruct bs as [| b bs]; [contradiction |].
  inversion Hbytes as [| ? ? Hb _]; subst.
  destruct (hex_byte b Hb) as (_ & _ & _ & _ & Hhi & _). cbv zeta in Hhi.
  apply hexdigit_plain in Hhi.
  unfold hex. cbn [flat_map app startswith].
  destruct (Z.eqb_spec c (hex_digit (Z.shiftr b 4))); [lia | reflexivity].
Qed.

Context {laws : PlatformLaws platform}.

(** The tag and the ciphertext cut out of what [gcm_seal] returns. *)
Lemma seal_parts (key iv data : bytes) :
  Forall is_byte key -> Forall is_byte iv -> Forall is_byte data ->
  let combined := gcm_seal key iv data in
  let tag := skipn (length combined - 16) combined in
  let ciphertext := firstn (length combined - 16) combined in
  Forall is_byte tag /\ Forall is_byte ciphertext /\
  length tag = 16%nat /\ length ciphertext = length data /\
  ciphertext ++ tag = combined.
Proof.
  intros Hkey Hiv Hdata. cbv zeta.
  pose proof (gcm_seal_bytes key iv data Hkey Hiv Hdata) as Hbytes.
  pose proof (gcm_seal_length key iv data) as Hlen.
  split; [apply Forall_firstn_skipn, Hbytes |].
  split; [apply Forall_firstn_skipn, Hbytes |].
  split; [rewrite length_skipn; lia |].
  split; [rewrite length_firstn; lia |].
  apply firstn_skipn.
Qed.

(** The envelope of a sealed text: its three parts, and what
    [decrypt_db_value] does with it under any key. *)
Lemma envelope_parts (key iv data : bytes) :
  Forall is_byte key -> Forall is_byte iv -> length iv = 16%nat ->
  Forall is_byte data ->
  let combined := gcm_seal key iv data in
  let tag := skipn (length combined - 16) combined in
  let ciphertext := firstn (length combined - 16) combined in
  let envelope := envelope_of key iv data in
  split 58 envelope = [hex iv; hex tag; hex ciphertext] /\
  startswith envelope (lit "{") = false /\
  startswith envelope (lit "[") = false /\
  envelope <> [] /\
  forall k, decrypt_db_value (Some envelope) k
            = opened (hex iv) (hex tag) (hex ciphertext) k.
Proof.
  intros Hkey Hiv Hlen Hdata. cbv zeta.
  destruct (seal_parts key iv data Hkey Hiv Hdata)
    as (Htag & Hct & _ & _ & _). cbv zeta in Htag, Hct.
  assert (Hne : iv <> []) by (intros ->; discriminate).
  assert (Hsplit :
    split 58 (envelope_of key iv data)
    = [hex iv;
       hex (skipn (length (gcm_seal key iv data) - 16) (gcm_seal key iv data));
       hex (firstn (length (gcm_seal key iv data) - 16)
              (gcm_seal key iv data))])
    by (apply split_envelope; assumption).
  assert (Hbrace : startswith (envelope_of key iv data) (lit "{") = false)
    by (apply startswith_hex_false; auto).
  assert (Hbracket : startswith (envelope_of key iv data) (lit "[") = false)
    by (apply startswith_hex_false; auto).
  assert (Hnonempty : envelope_of key iv data <> []).
  { unfold envelope_of. destruct iv as [| b iv]; [contradiction |].
    unfold hex. cbn [flat_map app]. discriminate. }
  repeat split; auto.
  intros k. apply decrypt_db_value_three_parts; assumption.
Qed.

(** Under the sealing key the envelope opens to the text. *)
Lemma opened_own_key (key iv data : bytes) (s : pystr) :
  Forall is_byte key -> Forall is_byte iv -> length iv = 16%nat ->
  Forall is_byte data -> AESGCM key = Ok key -> utf8_decode data = Ok s ->
  let combined := gcm_seal key iv data in
  opened (hex iv) (hex (skipn (length combined - 16) combined))
    (hex (firstn (length combined - 16) combined)) key = Some s.
Proof.
  intros Hkey Hiv Hlen Hdata Haes Hdec. cbv zeta.
  destruct (seal_parts key iv data Hkey Hiv Hdata)
    as (Htag & Hct & _ & _ & Hjoin). cbv zeta in Htag, Hct, Hjoin.
  unfold opened, unseal_parts.
  rewrite !fromhex_hex by assumption. cbn [bind].
  rewrite Haes. cbn [bind]. rewrite Hjoin.
  unfold AESGCM_decrypt. rewrite (check_nonce_16 iv Hlen). cbn [bind].
  unfold len. rewrite gcm_seal_length.
  destruct (Z.ltb_spec (Z.of_nat (length data + 16)) 16); [lia |].
  rewrite gcm_open_seal by assumption. cbn [bind].
  rewrite Hdec. reflexivity.
Qed.

(** Under any key, what comes out of the envelope is shorter than the
    envelope. *)
Lemma opened_shorter (key iv data k : bytes) (s : pystr) :
  Forall is_byte key -> Forall is_byte iv -> length iv = 16%nat ->
  Forall is_byte data ->
  let combined := gcm_seal key iv data in
  opened (hex iv) (hex (skipn (length combined - 16) combined))
    (hex (firstn (length combined - 16) combined)) k = Some s ->
  (length s < length (envelope_of key iv data))%nat.
Proof.
  intros Hkey Hiv Hlen Hdata. cbv zeta.
  destruct (seal_parts key iv data Hkey Hiv Hdata)
    as (Htag & Hct & Htaglen & Hctlen & Hjoin).
  cbv zeta in Htag, Hct, Htaglen, Hctlen, Hjoin.
  unfold opened, unseal_parts.
  rewrite !fromhex_hex by assumption. cbn [bind].
  destruct (AESGCM k) as [k' |]; cbn [bind]; [| discriminate].
  rewrite Hjoin. unfold AESGCM_decrypt.
  rewrite (check_nonce_16 iv Hlen). cbn [bind].
  destruct (len (gcm_seal key iv data) <? 16); cbn [bind];
    [discriminate |].
  destruct (gcm_open k' iv (gcm_seal key iv data)) as [pt |] eqn:Hopen;
    cbn [bind]; [| discriminate].
  destruct (utf8_decode pt) as [s' |] eqn:Hdec; [| discriminate].
  intros H. inversion H; subst s'.
  pose proof (gcm_open_length _ _ _ _ Hopen) as Hptlen.
  rewrite gcm_seal_length in Hptlen.
  pose proof (utf8_decode_length (length pt) pt s (Nat.le_refl _) Hdec).
  unfold envelope_of. rewrite !length_app, !hex_length, Hctlen. lia.
Qed.

End WithPlatform.
End EnvelopeFacts.

Section EnvelopeClaims.
Import ProtoUtils Core Props BytesFacts Utf8Facts EnvelopeFacts.
Context {platform : Platform} {laws : PlatformLaws platform}.

(** C6.  For every 32-byte key and every string of Unicode scalar
    values, [encrypt_db_value] returns an envelope, and
    [decrypt_db_value] of that envelope under the same key is the
    string. *)
Theorem decrypt_encrypt_round_trip (key : bytes) (s : pystr) (w : World) :
  length key = 32%nat -> Forall is_byte key -> Forall is_scalar s ->
  exists (envelope : pystr) (w' : World),
    encrypt_db_value s key w = (Ok envelope, w') /\
    decrypt_db_value (Some envelope) key = Some s.
Proof.
  intros Hlen Hkey Hs.
  assert (Haes : AESGCM key = Ok key)
    by (unfold AESGCM, len; rewrite Hlen; reflexivity).
  destruct (utf8_roundtrip s Hs) as (data & Henc & Hdata & Hdec).
  destruct (encrypt_db_value_ok s key data w Haes Henc)
    as (iv & Hivlen & Hiv & Hrun).
  exists (envelope_of key iv data), (with_drawn w (drawn w + 16)%nat).
  split; [exact Hrun |].
  destruct (envelope_parts key iv data Hkey Hiv Hivlen Hdata)
    as (_ & _ & _ & _ & Hopen). cbv zeta in Hopen.
  rewrite Hopen.
  apply opened_own_key; assumption.
Qed.

(** C10.  Whatever [encrypt_db_value] returns under a 32-byte key splits
    on ':' into exactly three parts of lower-case hexadecimal digits, the
    first and the second 32 digits long; it starts with neither '{' nor
    '['; so under any key [decrypt_db_value] takes it through AES-GCM and
    never hands it back unchanged. *)
Theorem encrypt_db_value_envelope_shape (key : bytes) (text : pystr)
  (w w' : World) (envelope : pystr) :
  length key = 32%nat -> Forall is_byte key ->
  encrypt_db_value text key w = (Ok envelope, w') ->
  exists iv_hex tag_hex cipher_hex : pystr,
    split 58 envelope = [iv_hex; tag_hex; cipher_hex] /\
    Forall (fun c => hexdigit c = true) iv_hex /\
    Forall (fun c => hexdigit c = true) tag_hex /\
    Forall (fun c => hexdigit c = true) cipher_hex /\
    length iv_hex = 32%nat /\ length tag_hex = 32%nat /\
    startswith envelope (lit "{") = false /\
    startswith envelope (lit "[") = false /\
    forall k : bytes,
      decrypt_db_value (Some envelope) k = opened iv_hex tag_hex cipher_hex k
      /\ decrypt_db_value (Some envelope) k <> Some envelope.
Proof.
  intros _ Hkey Hrun.
  destruct (encrypt_db_value_inv text key w w' envelope Hrun)
    as (iv & data & Hivlen & Hiv & _ & Henc & -> & _).
  destruct (utf8_roundtrip text (utf8_encode_scalar text data Henc))
    as (data' & Henc' & Hdata & _).
  rewrite Henc in Henc'. inversion Henc'; subst data'.
  destruct (seal_parts key iv data Hkey Hiv Hdata)
    as (Htag & Hct & Htaglen & _ & _).
  destruct (envelope_parts key iv data Hkey Hiv Hivlen Hdata)
    as (Hsplit & Hbrace & Hbracket & _ & Hopen).
  cbv zeta in Htag, Hct, Htaglen, Hsplit, Hbrace, Hbracket, Hopen.
  eexists _, _, _. split; [exact Hsplit |].
  split; [apply hex_digits, Hiv |].
  split; [apply hex_digits, Htag |].
  split; [apply hex_digits, Hct |].
  split; [rewrite hex_length, Hivlen; reflexivity |].
  split; [rewrite hex_length, Htaglen; reflexivity |].
  split; [exact Hbrace |]. split; [exact Hbracket |].
  intros k. split; [apply Hopen |].
  rewrite Hopen. intros Hback.
  pose proof (opened_shorter key iv data k _ Hkey Hiv Hivlen Hdata Hback).
  lia.
Qed.

End EnvelopeClaims.

Section EnvelopeRuns.
Import Core Props Reference Scenario.

Lemma master_key_bytes : Forall is_byte master_key.
Proof.
  apply Forall_forall. intros b Hin. unfold master_key in Hin.
  apply in_map_iff in Hin. destruct Hin as (i & <- & Hi).
  apply in_seq in Hi. unfold is_byte. lia.
Qed.

Lemma sample_text_scalar : Forall is_scalar sample_text.
Proof.
  unfold sample_text, is_scalar.
  repeat (apply Forall_cons; [lia |]). apply Forall_nil.
Qed.

Lemma decrypt_encrypt_round_trip_witness :
  exists (envelope : pystr) (w' : World),
    encrypt_db_value sample_text master_key (base_world [])
    = (Ok envelope, w') /\
    decrypt_db_value (Some envelope) master_key = Some sample_text.
Proof.
  apply (@decrypt_encrypt_round_trip Reference.platform
           ReferenceFacts.reference_laws master_key sample_text
           (base_world [])).
  - reflexivity.
  - exact master_key_bytes.
  - exact sample_text_scalar.
Defined.

Lemma encrypt_db_value_envelope_shape_witness :
  exists iv_hex tag_hex cipher_hex : pystr,
    split 58 (sealed sample_text) = [iv_hex; tag_hex; cipher_hex] /\
    Forall (fun c => hexdigit c = true) iv_hex /\
    Forall (fun c => hexdigit c = true) tag_hex /\
    Forall (fun c => hexdigit c = true) cipher_hex /\
    length iv_hex = 32%nat /\ length tag_hex = 32%nat /\
    startswith (sealed sample_text) (lit "{") = false /\
    startswith (sealed sample_text) (lit "[") = false /\
    forall k : bytes,
      decrypt_db_value (Some (sealed sample_text)) k
      = opened iv_hex tag_hex cipher_hex k
      /\ decrypt_db_value (Some (sealed sample_text)) k
         <> Some (sealed sample_text).
Proof.
  apply (@encrypt_db_value_envelope_shape Reference.platform
           ReferenceFacts.reference_laws master_key sample_text
           (base_world []) (with_drawn (base_world []) 16)
           (sealed sample_text)).
  - reflexivity.
  - exact master_key_bytes.
  - vm_compute. reflexivity.
Defined.

End EnvelopeRuns.

(** * Token lifecycle *)

Module LifecycleFacts.
Import Core Props.

Lemma str_eqb_eq (a b : pystr) : str_eqb a b = true <-> a = b.
Proof.
  unfold str_eqb. destruct (list_eq_dec Z.eq_dec a b); split;
    congruence.
Qed.

Lemma assoc_get_set_same (d : list (pystr * json)) (k : pystr) (v : json) :
  assoc_get (assoc_set d k v) k = Some v.
Proof.
  induction d as [| [k' v'] d IH]; cbn [assoc_set assoc_get].
  - unfold str_eqb. destruct (list_eq_dec Z.eq_dec k k); congruence.
  - destruct (str_eqb k' k) eqn:E; cbn [assoc_get]; rewrite E;
      [reflexivity | exact IH].
Qed.

Lemma assoc_get_set_other (d : list (pystr * json)) (k k' : pystr)
  (v : json) :
  k' <> k -> assoc_get (assoc_set d k v) k' = assoc_get d k'.
Proof.
  intros Hne. induction d as [| [k0 v0] d IH]; cbn [assoc_set assoc_get].
  - unfold str_eqb. destruct (list_eq_dec Z.eq_dec k k'); congruence.
  - destruct (str_eqb k0 k) eqn:E; cbn [assoc_get].
    + apply str_eqb_eq in E. subst k0.
      unfold str_eqb. destruct (list_eq_dec Z.eq_dec k k'); congruence.
    + destruct (str_eqb k0 k'); [reflexivity | exact IH].
Qed.

(** What the merge changes and what it keeps. *)
Lemma merged_token_lookup (d : list (pystr * json)) (access : json)
  (now seconds : Z) :
  assoc_get (merged_token d access now seconds) (lit "access_token")
  = Some access /\
  assoc_get (merged_token d access now seconds) (lit "expiry_timestamp")
  = Some (JInt (now + seconds * 1000)) /\
  forall k, k <> lit "access_token" -> k <> lit "expiry_timestamp" ->
            assoc_get (merged_token d access now seconds) k = assoc_get d k.
Proof.
  unfold merged_token. split; [| split].
  - rewrite assoc_get_set_other by (vm_compute; discriminate).
    apply assoc_get_set_same.
  - apply assoc_get_set_same.
  - intros k H1 H2. rewrite !assoc_get_set_other by assumption.
    reflexivity.
Qed.

Lemma nth_error_replace_nth {A : Type} (n : nat) (x y : A) (l : list A) :
  nth_error l n = Some y -> nth_error (replace_nth n x l) n = Some x.
Proof.
  revert n. induction l as [| z l IH]; intros [| n] H; try discriminate.
  - reflexivity.
  - cbn [replace_nth nth_error]. apply IH. exact H.
Qed.

Section WithPlatform.
Context {platform : Platform}.

(** The expiry check reads the clock at most once and touches nothing
    else. *)
Lemma is_token_expired_frame (j : json) (w w1 : World) (r : result bool) :
  is_token_expired j w = (r, w1) ->
  w1 = w \/ w1 = with_ticks w (S (ticks w)).
Proof.
  unfold is_token_expired.
  destruct (negb (truthy j)); [unfold ret; intros H; inversion H; auto |].
  unfold bindM, lift.
  destruct (dict_get j (lit "expiry_timestamp") JNull) as [expiry |];
    [| intros H; inversion H; auto].
  destruct (negb (truthy expiry));
    [unfold ret; intros H; inversion H; auto |].
  unfold now_ms.
  destruct (as_int expiry); unfold ret; intros H; inversion H; auto.
Qed.

(** The [try] block when every step goes through. *)
Lemma refresh_and_store_ok (w w2 : World) (email_ : pystr)
  (d resp : list (pystr * json)) (rt access : json) (seconds : Z)
  (key : bytes) (db_path : nat) (rows : list Row) (envelope : pystr) :
  assoc_get d (lit "refresh_token") = Some rt -> truthy rt = true ->
  refresh_exchange w rt = Ok (JDict resp) ->
  assoc_get resp (lit "access_token") = Some access ->
  as_int (match assoc_get resp (lit "expires_in") with
          | Some v => v | None => JInt 3600 end) = Ok seconds ->
  get_master_key w = Some key -> key <> [] ->
  find_db_path w = Some db_path ->
  db_at w db_path = Some (DbTable rows) ->
  encrypt_db_value
    (json_dumps (JDict (merged_token d access (clock w (ticks w)) seconds)))
    key (with_ticks w (S (ticks w))) = (Ok envelope, w2) ->
  exists w',
    refresh_and_store email_ (JDict d) w
    = (Ok (status email_ true true None), w') /\
    db_at w' db_path
    = Some (DbTable (update_token_json rows envelope email_)).
Proof.
  intros Hrt Htruthy Hexch Haccess Hsecs Hkey Hne Hpath Hdb Hseal.
  destruct key as [| b key]; [contradiction |].
  unfold refresh_and_store, bindM, lift, dict_get, gets.
  rewrite Hrt, Htruthy. cbn [negb].
  unfold refresh_access_token. rewrite Hexch, Hkey.
  unfold dict_index. rewrite Haccess.
  unfold dict_set, now_ms. rewrite Hsecs.
  fold (merged_token d access (clock w (ticks w)) seconds).
  rewrite Hseal.
  destruct (EnvelopeFacts.encrypt_db_value_inv _ _ _ _ _ Hseal)
    as (_ & _ & _ & _ & _ & _ & _ & ->).
  unfold store_token, get_data_dirs. cbn [data_dirs with_drawn with_ticks].
  rewrite Hpath.
  unfold db_at, get_data_dirs in Hdb.
  destruct (nth_error (data_dirs w) db_path) as [dir |] eqn:Hdir;
    [| discriminate].
  rewrite Hdb. unfold ret. eexists. split; [reflexivity |].
  unfold db_at, get_data_dirs. cbn [data_dirs with_data_dirs].
  rewrite (nth_error_replace_nth _ _ _ _ Hdir). reflexivity.
Qed.

End WithPlatform.
End LifecycleFacts.

(** C8, amended.  For an account whose token has expired and whose
    refresh goes through, the record written back is the stored record
    with the access token replaced by the one of the exchange response
    and the expiry replaced by [now_ms + expires_in * 1000] ([now_ms]
    read when merging, [expires_in] 3600 when the response has none);
    every other key keeps its stored value.  In particular the stored
    refresh token is kept whether or not the response carries a new
    one. *)
Theorem refresh_keeps_stored_refresh_token {platform : Platform}
  (w w1 w2 : World) (account : Account) (d resp : list (pystr * json))
  (rt access : json) (seconds : Z) (key : bytes) (db_path : nat)
  (rows : list Row) (envelope : pystr) :
  token account = Some (JDict d) ->
  Core.is_token_expired (JDict d) w = (Ok true, w1) ->
  assoc_get d (lit "refresh_token") = Some rt -> truthy rt = true ->
  refresh_exchange w rt = Ok (JDict resp) ->
  assoc_get resp (lit "access_token") = Some access ->
  as_int (match assoc_get resp (lit "expires_in") with
          | Some v => v | None => JInt 3600 end) = Ok seconds ->
  Core.get_master_key w = Some key -> key <> [] ->
  Core.find_db_path w = Some db_path ->
  Core.db_at w db_path = Some (DbTable rows) ->
  let now := clock w1 (ticks w1) in
  let merged := Props.merged_token d access now seconds in
  Core.encrypt_db_value (json_dumps (JDict merged)) key
    (with_ticks w1 (S (ticks w1))) = (Ok envelope, w2) ->
  exists w' : World,
    Core.validate_and_refresh_account account w
    = (Ok (Core.status (email (row account)) true true None), w') /\
    Core.db_at w' db_path
    = Some (DbTable
              (Core.update_token_json rows envelope (email (row account))))
    /\
    assoc_get merged (lit "refresh_token") = Some rt /\
    assoc_get merged (lit "access_token") = Some access /\
    assoc_get merged (lit "expiry_timestamp")
    = Some (JInt (now + seconds * 1000)) /\
    (forall k, k <> lit "access_token" -> k <> lit "expiry_timestamp" ->
               assoc_get merged k = assoc_get d k).
Proof.
  intros Htoken Hexpired Hrt Htruthy Hexch Haccess Hsecs Hkey Hne Hpath Hdb
    now merged Hseal.
  destruct (LifecycleFacts.merged_token_lookup d access now seconds)
    as (Hacc & Hexp & Hkeep).
  assert (Hd : truthy (JDict d) = true)
    by (destruct d; [discriminate | reflexivity]).
  assert (Hframe :
    refresh_exchange w1 = refresh_exchange w /\
    data_dirs w1 = data_dirs w).
  { destruct (LifecycleFacts.is_token_expired_frame _ _ _ _ Hexpired)
      as [-> | ->]; split; reflexivity. }
  destruct Hframe as [Hx Hdirs].
  destruct (LifecycleFacts.refresh_and_store_ok w1 w2
              (email (row account)) d resp rt access seconds key db_path
              rows envelope) as (w' & Hrun & Hstored); auto.
  - rewrite Hx. exact Hexch.
  - unfold Core.get_master_key, Core.get_data_dirs in *.
    rewrite Hdirs. exact Hkey.
  - unfold Core.find_db_path, Core.get_data_dirs in *.
    rewrite Hdirs. exact Hpath.
  - unfold Core.db_at, Core.get_data_dirs in *. rewrite Hdirs. exact Hdb.
  - exists w'. split.
    + unfold Core.validate_and_refresh_account. rewrite Htoken, Hd.
      cbn [negb]. unfold bindM. rewrite Hexpired. cbn [negb].
      unfold catch. rewrite Hrun. reflexivity.
    + split; [exact Hstored |].
      split; [| auto].
      unfold merged. rewrite Hkeep by (vm_compute; discriminate).
      exact Hrt.
Qed.

Section LifecycleRuns.
Import Core Props Reference Scenario.

Lemma refresh_keeps_stored_refresh_token_witness :
  exists w' : World,
    validate_and_refresh_account target_complete world_expired_token
    = (Ok (status (lit "ann@example.com") true true None), w') /\
    db_at w' 0
    = Some (DbTable
              (update_token_json
                 [account_row (ref_dumps token_AT1_RT1) None]
                 refreshed_envelope (lit "ann@example.com")))
    /\
    assoc_get refreshed_record (lit "refresh_token")
    = Some (JStr (lit "RT1")) /\
    assoc_get refreshed_record (lit "access_token")
    = Some (JStr (lit "AT2")) /\
    assoc_get refreshed_record (lit "expiry_timestamp")
    = Some (JInt (1700000100250 + 3599 * 1000)) /\
    (forall k, k <> lit "access_token" -> k <> lit "expiry_timestamp" ->
               assoc_get refreshed_record k
               = assoc_get
                   [(lit "access_token", JStr (lit "AT1"));
                    (lit "refresh_token", JStr (lit "RT1"));
                    (lit "expiry_timestamp", JInt 1700000000000)] k).
Proof.
  apply (@refresh_keeps_stored_refresh_token Reference.platform
           world_expired_token world_after_expiry_check
           (with_drawn (with_ticks world_expired_token 2) 16)
           target_complete
           [(lit "access_token", JStr (lit "AT1"));
            (lit "refresh_token", JStr (lit "RT1"));
            (lit "expiry_timestamp", JInt 1700000000000)]
           [(lit "access_token", JStr (lit "AT2"));
            (lit "expires_in", JInt 3599);
            (lit "refresh_token", JStr (lit "RT2"))]
           (JStr (lit "RT1")) (JStr (lit "AT2")) 3599 master_key 0%nat
           [account_row (ref_dumps token_AT1_RT1) None]
           refreshed_envelope).
  - reflexivity.
  - vm_compute. reflexivity.
  - vm_compute. reflexivity.
  - reflexivity.
  - reflexivity.
  - vm_compute. reflexivity.
  - reflexivity.
  - vm_compute. reflexivity.
  - vm_compute. discriminate.
  - vm_compute. reflexivity.
  - vm_compute. reflexivity.
  - vm_compute. reflexivity.
Defined.

(** C8, as stated, fails: the exchange answers with a new refresh token
    "RT2", the refresh goes through, and the record stored afterwards
    still holds the old refresh token "RT1". *)
Lemma refresh_drops_new_refresh_token :
  let run := validate_and_refresh_account target_complete
               world_expired_token in
  refresh_exchange world_expired_token (JStr (lit "RT1"))
  = Ok exchange_response /\
  dict_index exchange_response (lit "refresh_token")
  = Ok (JStr (lit "RT2")) /\
  fst run = Ok (status (lit "ann@example.com") true true None) /\
  decrypt_db_value
    (stored_token (snd run) 0 (lit "ann@example.com")) master_key
  = Some (ref_dumps
            (JDict [(lit "access_token", JStr (lit "AT2"));
                    (lit "refresh_token", JStr (lit "RT1"));
                    (lit "expiry_timestamp", JInt 1700003699250)])).
Proof. repeat split; vm_compute; reflexivity. Qed.

End LifecycleRuns.

(** * Base64 *)

Module Base64Facts.
Import ProtoUtils WireReader Props BytesFacts.

Lemma list_ind3 {A : Type} (P : list A -> Prop) :
  P [] -> (forall a, P [a]) -> (forall a b, P [a; b]) ->
  (forall a b c l, P l -> P (a :: b :: c :: l)) ->
  forall l, P l.
Proof.
  intros H0 H1 H2 H3.
  fix IH 1. intros [| a [| b [| c l]]];
    [exact H0 | exact (H1 a) | exact (H2 a b)
    | exact (H3 a b c l (IH l))].
Qed.

(** A sextet goes to a letter of the alphabet and back. *)
Lemma b64_char_index (i : Z) :
  0 <= i < 64 ->
  b64_index (b64_char i) = Ok i /\ b64_char i <> 61 /\
  ascii_char (b64_char i).
Proof.
  intros Hi.
  pose proof (forall_below 64
    (fun i => (match b64_index (b64_char i) with
               | Ok j => j =? i | Raise _ => false end)
              && negb (b64_char i =? 61)
              && (0 <=? b64_char i) && (b64_char i <? 128))
    eq_refl i Hi) as H.
  cbv beta in H.
  repeat (apply andb_prop in H; destruct H as [H ?]).
  destruct (b64_index (b64_char i)) as [j |]; [| discriminate].
  unfold ascii_char. repeat split; try lia.
  f_equal. lia.
Qed.

(** The first two sextets of a group and the byte they give back. *)
Lemma sextets_01 (a b : Z) :
  is_byte a -> is_byte b ->
  let i0 := Z.shiftr a 2 in
  let i1 := Z.lor (Z.shiftl (Z.land a 3) 4) (Z.shiftr b 4) in
  0 <= i0 < 64 /\ 0 <= i1 < 64 /\
  Z.lor (Z.shiftl i0 2) (Z.shiftr i1 4) = a /\
  Z.land i1 15 = Z.shiftr b 4.
Proof.
  intros Ha Hb.
  pose proof (forall_below 256
    (fun a =>
       forallb
         (fun b =>
            let i0 := Z.shiftr a 2 in
            let i1 := Z.lor (Z.shiftl (Z.land a 3) 4) (Z.shiftr b 4) in
            (0 <=? i0) && (i0 <? 64) && (0 <=? i1) && (i1 <? 64)
            && (Z.lor (Z.shiftl i0 2) (Z.shiftr i1 4) =? a)
            && (Z.land i1 15 =? Z.shiftr b 4))
         (map Z.of_nat (seq 0 256)))
    ltac:(vm_compute; reflexivity) a Ha) as H.
  cbv beta in H.
  pose proof (forall_below 256 _ H b Hb) as H'.
  cbv beta zeta in H'.
  repeat (apply andb_prop in H'; destruct H' as [H' ?]).
  cbv zeta. lia.
Qed.

(** The third sextet, with the second and third bytes. *)
Lemma sextets_2 (b c : Z) :
  is_byte b -> is_byte c ->
  let i2 := Z.lor (Z.shiftl (Z.land b 15) 2) (Z.shiftr c 6) in
  0 <= i2 < 64 /\
  Z.lor (Z.shiftl (Z.shiftr b 4) 4) (Z.shiftr i2 2) = b /\
  Z.lor (Z.shiftl (Z.land i2 3) 6) (Z.land c 63) = c /\
  0 <= Z.land c 63 < 64.
Proof.
  intros Hb Hc.
  pose proof (forall_below 256
    (fun b =>
       forallb
         (fun c =>
            let i2 := Z.lor (Z.shiftl (Z.land b 15) 2) (Z.shiftr c 6) in
            (0 <=? i2) && (i2 <? 64)
            && (Z.lor (Z.shiftl (Z.shiftr b 4) 4) (Z.shiftr i2 2) =? b)
            && (Z.lor (Z.shiftl (Z.land i2 3) 6) (Z.land c 63) =? c)
            && (0 <=? Z.land c 63) && (Z.land c 63 <? 64))
         (map Z.of_nat (seq 0 256)))
    ltac:(vm_compute; reflexivity) b Hb) as H.
  cbv beta in H.
  pose proof (forall_below 256 _ H c Hc) as H'.
  cbv beta zeta in H'.
  repeat (apply andb_prop in H'; destruct H' as [H' ?]).
  cbv zeta. lia.
Qed.

Lemma zero_byte : is_byte 0.
Proof. unfold is_byte. lia. Qed.

Lemma b64encode_ascii (bs : bytes) :
  Forall is_byte bs -> Forall ascii_char (b64encode bs).
Proof.
  induction bs as [| a | a b | a b c l IH] using list_ind3; intros Hbs.
  - constructor.
  - inversion Hbs as [| ? ? Ha _]; subst.
    destruct (sextets_01 a 0 Ha zero_byte) as (H0 & H1 & _).
    cbv zeta in H0, H1. change (Z.shiftr 0 4) with 0 in H1.
    rewrite Z.lor_0_r in H1.
    cbn [b64encode].
    repeat (apply Forall_cons;
            [first [apply b64_char_index; assumption
                   | unfold ascii_char; lia] |]).
    apply Forall_nil.
  - inversion Hbs as [| ? ? Ha Hbs']; subst.
    inversion Hbs' as [| ? ? Hb _]; subst.
    destruct (sextets_01 a b Ha Hb) as (H0 & H1 & _).
    destruct (sextets_2 b 0 Hb zero_byte) as (H2 & _).
    cbv zeta in H0, H1, H2. change (Z.shiftr 0 6) with 0 in H2.
    rewrite Z.lor_0_r in H2.
    cbn [b64encode].
    repeat (apply Forall_cons;
            [first [apply b64_char_index; assumption
                   | unfold ascii_char; lia] |]).
    apply Forall_nil.
  - inversion Hbs as [| ? ? Ha Hbs1]; subst.
    inversion Hbs1 as [| ? ? Hb Hbs2]; subst.
    inversion Hbs2 as [| ? ? Hc Hl]; subst.
    destruct (sextets_01 a b Ha Hb) as (H0 & H1 & _).
    destruct (sextets_2 b c Hb Hc) as (H2 & _ & _ & H3).
    cbv zeta in H0, H1, H2, H3.
    cbn [b64encode].
    repeat (apply Forall_cons; [apply b64_char_index; assumption |]).
    apply IH, Hl.
Qed.

(** Strict decoding undoes [b64encode]. *)
Lemma b64decode_b64encode (bs : bytes) :
  Forall is_byte bs -> b64decode (b64encode bs) = Ok bs.
Proof.
  induction bs as [| a | a b | a b c l IH] using list_ind3; intros Hbs.
  - reflexivity.
  - inversion Hbs as [| ? ? Ha _]; subst.
    destruct (sextets_01 a 0 Ha zero_byte) as (H0 & H1 & Hjoin & Hlow).
    cbv zeta in H0, H1, Hjoin, Hlow.
    change (Z.shiftr 0 4) with 0 in H1, Hjoin, Hlow.
    rewrite Z.lor_0_r in H1, Hjoin, Hlow.
    destruct (b64_char_index _ H0) as (E0 & _).
    destruct (b64_char_index _ H1) as (E1 & _).
    cbn [b64encode b64decode]. rewrite E0, E1. cbn [bind].
    change (61 =? 61) with true. cbv iota.
    rewrite Hlow, Hjoin. reflexivity.
  - inversion Hbs as [| ? ? Ha Hbs']; subst.
    inversion Hbs' as [| ? ? Hb _]; subst.
    destruct (sextets_01 a b Ha Hb) as (H0 & H1 & Hjoin & Hlow).
    destruct (sextets_2 b 0 Hb zero_byte) as (H2 & Hjoin2 & Hlow2 & _).
    cbv zeta in H0, H1, Hjoin, Hlow, H2, Hjoin2, Hlow2.
    change (Z.shiftr 0 6) with 0 in H2, Hjoin2, Hlow2.
    change (Z.land 0 63) with 0 in Hlow2.
    rewrite !Z.lor_0_r in H2, Hjoin2, Hlow2.
    destruct (b64_char_index _ H0) as (E0 & _).
    destruct (b64_char_index _ H1) as (E1 & _).
    destruct (b64_char_index _ H2) as (E2 & N2 & _).
    cbn [b64encode b64decode]. rewrite E0, E1. cbn [bind].
    change (61 =? 61) with true. cbv iota.
    destruct (Z.eqb_spec (b64_char (Z.shiftl (Z.land b 15) 2)) 61);
      [contradiction |].
    rewrite E2. cbn [bind].
    assert (Hz : Z.land (Z.shiftl (Z.land b 15) 2) 3 = 0).
    { apply Z.shiftl_eq_0_iff in Hlow2; [| lia].
      rewrite ?Z.lor_0_r in Hlow2. exact Hlow2. }
    rewrite Hz. change (0 =? 0) with true. cbv iota.
    rewrite Hjoin, Hlow, Hjoin2. reflexivity.
  - inversion Hbs as [| ? ? Ha Hbs1]; subst.
    inversion Hbs1 as [| ? ? Hb Hbs2]; subst.
    inversion Hbs2 as [| ? ? Hc Hl]; subst.
    destruct (sextets_01 a b Ha Hb) as (H0 & H1 & Hjoin & Hlow).
    destruct (sextets_2 b c Hb Hc) as (H2 & Hjoin2 & Hjoin3 & H3).
    cbv zeta in H0, H1, Hjoin, Hlow, H2, Hjoin2, Hjoin3, H3.
    destruct (b64_char_index _ H0) as (E0 & _).
    destruct (b64_char_index _ H1) as (E1 & _).
    destruct (b64_char_index _ H2) as (E2 & _).
    destruct (b64_char_index _ H3) as (E3 & N3 & _).
    cbn [b64encode b64decode]. rewrite E0, E1. cbn [bind].
    destruct (Z.eqb_spec (b64_char (Z.land c 63)) 61); [contradiction |].
    rewrite E2, E3. cbn [bind]. rewrite (IH Hl). cbn [bind].
    rewrite Hjoin, Hlow, Hjoin2, Hjoin3. reflexivity.
Qed.

End Base64Facts.

(** * Wire format *)

Module WireFacts.
Import ProtoUtils WireReader Props BytesFacts VarintFacts.

Lemma tag_nonneg (n w : Z) : 0 <= n -> 0 <= w -> 0 <= Z.lor (Z.shiftl n 3) w.
Proof.
  intros Hn Hw. apply Z.lor_nonneg. split; [| exact Hw].
  apply Z.shiftl_nonneg. exact Hn.
Qed.

Lemma encode_varint_loop_bytes (v : Z) :
  0 <= v -> Forall is_byte (encode_varint_loop [] v).
Proof.
  intros Hv. generalize Hv. pattern v.
  apply Z_lt_induction; [| exact Hv]. clear v Hv. intros v IH Hv.
  destruct (Z_lt_ge_dec v 128).
  - rewrite encode_varint_loop_small by lia.
    constructor; [unfold is_byte; lia | constructor].
  - rewrite encode_varint_loop_big by lia.
    pose proof (shiftr7_lt v ltac:(lia)) as Hs.
    constructor; [| apply IH; lia].
    rewrite land_127.
    assert (Hm : 0 <= v mod 128 < 128) by (apply Z.mod_pos_bound; lia).
    pose proof (forall_below 128
      (fun x => (0 <=? Z.lor x 128) && (Z.lor x 128 <? 256))
      eq_refl (v mod 128) Hm) as H.
    cbv beta in H. unfold is_byte. lia.
Qed.

Lemma delimited_bytes (n : Z) (payload : bytes) :
  0 <= n -> Forall is_byte payload -> Forall is_byte (delimited n payload).
Proof.
  intros Hn Hp. unfold delimited.
  apply Forall_app. split;
    [apply encode_varint_loop_bytes, tag_nonneg; lia |].
  apply Forall_app. split;
    [apply encode_varint_loop_bytes, len_nonneg | exact Hp].
Qed.

Lemma create_string_field_ok (n : Z) (value : pystr) (data : bytes) :
  0 <= n -> utf8_encode value = Ok data ->
  create_string_field n value = Ok (delimited n data).
Proof.
  intros Hn Hdata. unfold create_string_field.
  rewrite encode_varint_ok by (apply tag_nonneg; lia). cbn [bind].
  rewrite Hdata. cbn [bind].
  rewrite encode_varint_ok by apply len_nonneg. reflexivity.
Qed.

Lemma create_timestamp_field_ok (n seconds : Z) :
  0 <= n -> 0 <= seconds ->
  create_timestamp_field n seconds
  = Ok (delimited n (encode_varint_loop [] 8
                     ++ encode_varint_loop [] seconds)).
Proof.
  intros Hn Hs. unfold create_timestamp_field.
  change (Z.lor (Z.shiftl 1 3) 0) with 8.
  rewrite (encode_varint_ok 8) by lia. cbn [bind].
  rewrite encode_varint_ok by exact Hs. cbn [bind].
  rewrite encode_varint_ok by (apply tag_nonneg; lia). cbn [bind].
  rewrite encode_varint_ok by apply len_nonneg. reflexivity.
Qed.

Lemma take_exact_middle (pre payload post : bytes) :
  take_exact (pre ++ payload ++ post) (len pre) (len payload) = Ok payload.
Proof.
  unfold take_exact.
  pose proof (len_nonneg pre). pose proof (len_nonneg payload).
  pose proof (len_nonneg post).
  rewrite !len_app.
  destruct (Z.leb_spec 0 (len pre)); [| lia].
  destruct (Z.leb_spec 0 (len payload)); [| lia].
  destruct (Z.leb_spec (len pre + len payload)
              (len pre + (len payload + len post))); [| lia].
  cbn [andb]. unfold len. rewrite !Nat2Z.id.
  rewrite skipn_app, skipn_all, Nat.sub_diag. cbn [skipn app].
  rewrite firstn_app, firstn_all, Nat.sub_diag, firstn_O, app_nil_r.
  reflexivity.
Qed.

(** Reading a length-delimited field that sits anywhere in a buffer. *)
Lemma read_len_delim_at (n : Z) (data pre payload post : bytes) (p : Z) :
  0 <= n ->
  data = pre ++ delimited n payload ++ post -> p = len pre ->
  read_len_delim n data p = Ok (payload, p + len (delimited n payload)).
Proof.
  intros Hn -> ->. unfold read_len_delim, delimited.
  set (T := encode_varint_loop [] (Z.lor (Z.shiftl n 3) 2)).
  set (L := encode_varint_loop [] (len payload)).
  rewrite <- !app_assoc.
  unfold T at 1. rewrite read_varint_encoded by (apply tag_nonneg; lia).
  fold T. cbn [bind]. rewrite Z.eqb_refl.
  replace (pre ++ T ++ L ++ payload ++ post)
    with ((pre ++ T) ++ L ++ payload ++ post)
    by (rewrite <- app_assoc; reflexivity).
  replace (len pre + len T) with (len (pre ++ T)) by apply len_app.
  unfold L at 1. rewrite read_varint_encoded by apply len_nonneg.
  fold L. cbn [bind].
  replace ((pre ++ T) ++ L ++ payload ++ post)
    with (((pre ++ T) ++ L) ++ payload ++ post)
    by (rewrite <- !app_assoc; reflexivity).
  replace (len (pre ++ T) + len L) with (len ((pre ++ T) ++ L))
    by apply len_app.
  rewrite take_exact_middle. cbn [bind].
  f_equal. f_equal. rewrite !len_app. lia.
Qed.

Lemma at_end_len (data : bytes) (p : Z) :
  p = len data -> at_end data p = Ok tt.
Proof. intros ->. unfold at_end. rewrite Z.eqb_refl. reflexivity. Qed.

Lemma read_timestamp_encoded (seconds : Z) :
  0 <= seconds ->
  read_timestamp (encode_varint_loop [] 8 ++ encode_varint_loop [] seconds)
  = Ok seconds.
Proof.
  intros Hs. unfold read_timestamp, read_varint_field.
  set (T := encode_varint_loop [] 8).
  set (S := encode_varint_loop [] seconds).
  pose proof (read_varint_encoded 8 [] S ltac:(lia)) as H8.
  cbn [app] in H8. fold T in H8.
  change (len (@nil Z)) with 0 in H8. rewrite H8. cbn [bind].
  change (8 =? Z.lor (Z.shiftl 1 3) 0) with true. cbv iota.
  pose proof (read_varint_encoded seconds T [] Hs) as Hsec.
  rewrite app_nil_r in Hsec. fold S in Hsec.
  rewrite Z.add_0_l, Hsec. cbn [bind].
  rewrite at_end_len by (rewrite len_app; reflexivity).
  reflexivity.
Qed.

End WireFacts.

(** * Building a token blob and reading it back *)

Module TokenFacts.
Import ProtoUtils WireReader Props BytesFacts VarintFacts Utf8Facts
  Base64Facts WireFacts.

Lemma ascii_bytes (l : list Z) : Forall ascii_char l -> Forall is_byte l.
Proof.
  apply Forall_impl. unfold ascii_char, is_byte. intros c Hc. lia.
Qed.

Lemma read_len_delim_first (n : Z) (payload post : bytes) :
  0 <= n ->
  read_len_delim n (delimited n payload ++ post) 0
  = Ok (payload, len (delimited n payload)).
Proof.
  intros Hn.
  pose proof (read_len_delim_at n (delimited n payload ++ post) []
                payload post 0 Hn eq_refl eq_refl) as H.
  rewrite Z.add_0_l in H. exact H.
Qed.

Lemma read_len_delim_last (n : Z) (pre payload : bytes) :
  0 <= n ->
  read_len_delim n (pre ++ delimited n payload) (len pre)
  = Ok (payload, len (pre ++ delimited n payload)).
Proof.
  intros Hn.
  pose proof (read_len_delim_at n (pre ++ delimited n payload) pre
                payload [] (len pre) Hn) as H.
  rewrite app_nil_r in H. rewrite len_app. apply H; reflexivity.
Qed.

Lemma read_len_delim_whole (n : Z) (payload : bytes) :
  0 <= n ->
  read_len_delim n (delimited n payload) 0
  = Ok (payload, len (delimited n payload)).
Proof. intros Hn. apply (read_len_delim_last n [] payload Hn). Qed.

(** The four fields of the leaf message, read back. *)
Lemma read_oauth_info_fields (a t r : bytes) (sa st sr : pystr)
  (seconds : Z) :
  0 <= seconds ->
  utf8_decode a = Ok sa -> utf8_decode t = Ok st -> utf8_decode r = Ok sr ->
  read_oauth_info
    (delimited 1 a ++ delimited 2 t ++ delimited 3 r
     ++ delimited 4 (encode_varint_loop [] 8
                     ++ encode_varint_loop [] seconds))
  = Ok {| accessToken := sa; tokenType := st; refreshToken := sr;
          expirySeconds := seconds |}.
Proof.
  intros Hs Ha Ht Hr. unfold read_oauth_info.
  set (F1 := delimited 1 a). set (F2 := delimited 2 t).
  set (F3 := delimited 3 r).
  set (F4 := delimited 4 _).
  unfold F1 at 1. rewrite read_len_delim_first by lia. fold F1.
  cbn [bind].
  rewrite (read_len_delim_at 2 _ F1 t (F3 ++ F4) (len F1))
    by (first [lia | reflexivity]).
  fold F2. cbn [bind].
  rewrite (read_len_delim_at 3 _ (F1 ++ F2) r F4 (len F1 + len F2))
    by (first [lia | rewrite <- app_assoc; reflexivity
              | rewrite len_app; reflexivity]).
  fold F3. cbn [bind].
  rewrite (read_len_delim_at 4 _ (F1 ++ F2 ++ F3)
             (encode_varint_loop [] 8 ++ encode_varint_loop [] seconds)
             [] (len F1 + len F2 + len F3))
    by (first [lia
              | rewrite app_nil_r, <- !app_assoc; reflexivity
              | rewrite !len_app; lia]).
  fold F4. cbn [bind].
  rewrite at_end_len by (rewrite !len_app; lia). cbn [bind].
  rewrite Ha, Ht, Hr. cbn [bind].
  rewrite read_timestamp_encoded by exact Hs.
  reflexivity.
Qed.

Lemma ascii_checked (l : list Z) :
  forallb (fun c => (0 <=? c) && (c <? 128)) l = true ->
  Forall ascii_char l.
Proof.
  intros H. rewrite forallb_forall in H. apply Forall_forall.
  intros c Hin. specialize (H c Hin). unfold ascii_char. lia.
Qed.

Lemma sentinel_ascii :
  Forall ascii_char (lit "oauthTokenInfoSentinelKey").
Proof. apply ascii_checked. vm_compute. reflexivity. Qed.

Lemma bearer_ascii : Forall ascii_char (lit "Bearer").
Proof. apply ascii_checked. vm_compute. reflexivity. Qed.

(** For tokens that encode and a non-negative expiry, the builder
    returns a blob, and the blob reads back to the two tokens, "Bearer"
    and the expiry exactly as it was passed. *)
Lemma unified_token_reads_back (access_token refresh_token : pystr)
  (expiry : Z) :
  Forall is_scalar access_token -> Forall is_scalar refresh_token ->
  0 <= expiry ->
  exists blob : pystr,
    create_unified_oauth_token access_token refresh_token expiry = Ok blob
    /\ read_unified_oauth_token blob
       = Ok {| accessToken := access_token; tokenType := lit "Bearer";
               refreshToken := refresh_token; expirySeconds := expiry |}.
Proof.
  intros Hat Hrt He.
  destruct (utf8_roundtrip access_token Hat) as (da & Ea & Ba & Da).
  destruct (utf8_roundtrip refresh_token Hrt) as (dr & Er & Br & Dr).
  destruct (utf8_ascii _ bearer_ascii) as (Eb & Db).
  destruct (utf8_ascii _ sentinel_ascii) as (Es & Ds).
  set (info := delimited 1 da ++ delimited 2 (lit "Bearer")
               ++ delimited 3 dr
               ++ delimited 4 (encode_varint_loop [] 8
                               ++ encode_varint_loop [] expiry)).
  assert (Hinfo : create_oauth_info access_token refresh_token expiry
                  = Ok info).
  { unfold create_oauth_info.
    rewrite (create_string_field_ok 1 _ da) by (lia || assumption).
    cbn [bind].
    rewrite (create_string_field_ok 2 _ _ ltac:(lia) Eb). cbn [bind].
    rewrite (create_string_field_ok 3 _ dr) by (lia || assumption).
    cbn [bind].
    rewrite create_timestamp_field_ok by lia. reflexivity. }
  assert (Binfo : Forall is_byte info).
  { unfold info.
    apply Forall_app. split; [apply delimited_bytes; [lia | exact Ba] |].
    apply Forall_app. split;
      [apply delimited_bytes; [lia | apply ascii_bytes, bearer_ascii] |].
    apply Forall_app. split; [apply delimited_bytes; [lia | exact Br] |].
    apply delimited_bytes; [lia |].
    apply Forall_app. split; apply encode_varint_loop_bytes; lia. }
  pose proof (b64encode_ascii info Binfo) as Ainfo.
  destruct (utf8_ascii _ Ainfo) as (Ei & Di).
  set (wrapped := delimited 1 (b64encode info)).
  set (inner := delimited 1 (lit "oauthTokenInfoSentinelKey")
                ++ delimited 2 wrapped).
  set (outer := delimited 1 inner).
  assert (Bouter : Forall is_byte outer).
  { unfold outer, inner, wrapped.
    apply delimited_bytes; [lia |].
    apply Forall_app. split; apply delimited_bytes; try lia.
    - apply ascii_bytes, sentinel_ascii.
    - apply delimited_bytes; [lia |]. apply ascii_bytes, Ainfo. }
  pose proof (b64encode_ascii outer Bouter) as Aouter.
  destruct (utf8_ascii _ Aouter) as (Eo & Do).
  exists (b64encode outer). split.
  - unfold create_unified_oauth_token. rewrite Hinfo. cbn [bind].
    rewrite Di. cbn [bind].
    rewrite (create_string_field_ok 1 _ _ ltac:(lia) Ei). cbn [bind].
    fold wrapped.
    rewrite encode_varint_ok by (apply tag_nonneg; lia). cbn [bind].
    rewrite encode_varint_ok by apply len_nonneg. cbn [bind].
    rewrite (create_string_field_ok 1 _ _ ltac:(lia) Es). cbn [bind].
    rewrite encode_varint_ok by (apply tag_nonneg; lia). cbn [bind].
    rewrite encode_varint_ok by apply len_nonneg. cbn [bind].
    exact Do.
  - unfold read_unified_oauth_token. rewrite Eo. cbn [bind].
    rewrite (b64decode_b64encode outer Bouter). cbn [bind].
    unfold outer at 1 2. rewrite read_len_delim_whole by lia. fold outer.
    cbn [bind]. rewrite at_end_len by reflexivity. cbn [bind].
    unfold inner at 1. rewrite read_len_delim_first by lia. cbn [bind].
    fold inner. unfold inner at 1.
    rewrite read_len_delim_last by lia. fold inner. cbn [bind].
    rewrite at_end_len by reflexivity. cbn [bind].
    rewrite Ds. cbn [bind].
    unfold list_eqb.
    destruct (list_eq_dec Z.eq_dec (lit "oauthTokenInfoSentinelKey")
                (lit "oauthTokenInfoSentinelKey")); [| contradiction].
    unfold wrapped at 1 2. rewrite read_len_delim_whole by lia.
    cbn [bind]. fold wrapped. rewrite at_end_len by reflexivity.
    cbn [bind].
    rewrite (b64decode_b64encode info Binfo). cbn [bind].
    unfold info. apply read_oauth_info_fields; assumption.
Qed.

End TokenFacts.

(** C7, amended.  [create_unified_oauth_token] has no credential check:
    for an empty access token or an empty refresh token it raises
    nothing and returns a blob, whose leaf carries the strings as given.
    The check for missing credentials is the guard of its caller
    [inject_token]: for an account whose token data lacks a usable
    access or refresh token, [inject_token] answers [False] after the
    backup attempt, builds no blob and leaves the host store as it
    was. *)
Theorem missing_credentials_guard_is_in_inject_token {platform : Platform}
  (access_token refresh_token : pystr) (expiry : Z) (account : Account)
  (w : World) :
  access_token = [] \/ refresh_token = [] ->
  Forall Props.is_scalar access_token ->
  Forall Props.is_scalar refresh_token ->
  0 <= expiry ->
  Props.missing_credentials account ->
  (exists blob : pystr,
     ProtoUtils.create_unified_oauth_token access_token refresh_token expiry
     = Ok blob /\
     WireReader.read_unified_oauth_token blob
     = Ok {| WireReader.accessToken := access_token;
             WireReader.tokenType := lit "Bearer";
             WireReader.refreshToken := refresh_token;
             WireReader.expirySeconds := expiry |})
  /\
  (exists w' : World,
     Core.inject_token account w = (Ok false, w') /\
     state_db w' = state_db w /\
     trace w' = trace w ++ Props.backup_events w).
Proof.
  intros _ Hat Hrt He Hmiss. split.
  - apply TokenFacts.unified_token_reads_back; assumption.
  - rewrite (SwitchFacts.inject_token_missing_credentials account w Hmiss).
    unfold Props.backup_events.
    destruct (state_db w) as [sdb |] eqn:Hdb.
    + destruct (copy_ok w); eexists; (split; [reflexivity |]);
        cbn [state_db trace with_trace with_state_db_backup];
        rewrite ?app_nil_r; auto.
    + eexists. split; [reflexivity |]. rewrite app_nil_r. auto.
Qed.

Lemma missing_credentials_guard_is_in_inject_token_witness :
  (exists blob : pystr,
     ProtoUtils.create_unified_oauth_token [] (lit "RT1") 1700000000
     = Ok blob /\
     WireReader.read_unified_oauth_token blob
     = Ok {| WireReader.accessToken := [];
             WireReader.tokenType := lit "Bearer";
             WireReader.refreshToken := lit "RT1";
             WireReader.expirySeconds := 1700000000 |})
  /\
  (exists w' : World,
     @Core.inject_token Reference.platform Scenario.target_missing_refresh
       Scenario.world_missing_refresh = (Ok false, w') /\
     state_db w' = state_db Scenario.world_missing_refresh /\
     trace w'
     = trace Scenario.world_missing_refresh
       ++ Props.backup_events Scenario.world_missing_refresh).
Proof.
  apply (@missing_credentials_guard_is_in_inject_token Reference.platform
           [] (lit "RT1") 1700000000 Scenario.target_missing_refresh
           Scenario.world_missing_refresh).
  - left. reflexivity.
  - apply Forall_nil.
  - apply Forall_forall. intros c Hin. vm_compute in Hin.
    unfold Props.is_scalar.
    repeat (destruct Hin as [<- | Hin]; [lia |]). contradiction.
  - lia.
  - vm_compute. right. reflexivity.
Defined.

(** * More on varints *)

Module VarintShapeFacts.
Import ProtoUtils Props BytesFacts VarintFacts.

(** Bytes with the continuation bit set, and bytes without. *)
Lemma continuation_bit (b : Z) :
  128 <= b < 256 -> (Z.land b 0x80 =? 0) = false.
Proof.
  intros Hb.
  assert (H : 0 <= b < Z.of_nat 256) by lia.
  pose proof (forall_below 256
    (fun b => (b <? 128) || negb (Z.land b 0x80 =? 0)) eq_refl b H) as Hc.
  cbv beta in Hc. destruct (Z.ltb_spec b 128); [lia |].
  cbn [orb] in Hc. apply negb_true_iff. exact Hc.
Qed.

Lemma continuation_byte_range (v : Z) :
  128 <= Z.lor (Z.land v 0x7F) 0x80 < 256.
Proof.
  rewrite land_127.
  assert (Hm : 0 <= v mod 128 < Z.of_nat 128)
    by (apply Z.mod_pos_bound; lia).
  pose proof (forall_below 128
    (fun x => (128 <=? Z.lor x 128) && (Z.lor x 128 <? 256))
    eq_refl (v mod 128) Hm) as H.
  cbv beta in H. lia.
Qed.

(** The encoding is a run of continuation bytes and one final byte; the
    final byte is zero only for the value zero. *)
Lemma encode_varint_loop_shape (v : Z) :
  0 <= v ->
  exists (init : bytes) (last : Z),
    encode_varint_loop [] v = init ++ [last] /\
    Forall (fun b => 128 <= b < 256) init /\
    0 <= last < 128 /\ (v <> 0 -> last <> 0).
Proof.
  intros Hv. generalize Hv. pattern v.
  apply Z_lt_induction; [| exact Hv]. clear v Hv. intros v IH Hv.
  destruct (Z_lt_ge_dec v 128) as [Hlt | Hge].
  - exists [], v. rewrite encode_varint_loop_small by lia.
    repeat split; auto; lia.
  - pose proof (shiftr7_lt v ltac:(lia)) as Hs.
    destruct (IH (Z.shiftr v 7) ltac:(lia) ltac:(lia))
      as (init & last & Henc & Hinit & Hlast & Hnz).
    exists (Z.lor (Z.land v 0x7F) 0x80 :: init), last.
    rewrite encode_varint_loop_big by lia. rewrite Henc.
    split; [reflexivity |].
    split; [constructor; [apply continuation_byte_range | exact Hinit] |].
    split; [exact Hlast |].
    intros _. apply Hnz.
    rewrite Z.shiftr_div_pow2 by lia. change (2 ^ 7) with 128.
    assert (1 <= v / 128) by (apply Z.div_le_lower_bound; lia). lia.
Qed.

(** A buffer that ends inside a run of continuation bytes cannot be
    read. *)
Lemma read_varint_loop_unfinished (data : bytes) :
  Forall (fun b => 128 <= b < 256) data ->
  forall (fuel : nat) (res shift : Z),
    (fuel <= length data)%nat ->
    read_varint_loop fuel data res shift (len data - Z.of_nat fuel)
    = Raise ValueError.
Proof.
  intros Hall. induction fuel as [| fuel IH]; intros res shift Hfuel.
  - reflexivity.
  - cbn [read_varint_loop].
    destruct (nth_error data (length data - S fuel)) as [b |] eqn:Hnth.
    + assert (Hget : getitem data (len data - Z.of_nat (S fuel)) = Ok b).
      { unfold getitem, len.
        destruct (Z.ltb_spec (Z.of_nat (length data) - Z.of_nat (S fuel)) 0);
          [lia |].
        destruct (Z.leb_spec 0
                    (Z.of_nat (length data) - Z.of_nat (S fuel))); [| lia].
        destruct (Z.ltb_spec (Z.of_nat (length data) - Z.of_nat (S fuel))
                    (Z.of_nat (length data))); [| lia].
        cbn [andb].
        replace (Z.to_nat (Z.of_nat (length data) - Z.of_nat (S fuel)))
          with (length data - S fuel)%nat by lia.
        rewrite Hnth. reflexivity. }
      rewrite Hget. cbn [bind].
      rewrite Forall_forall in Hall.
      rewrite (continuation_bit b (Hall b (nth_error_In _ _ Hnth))).
      replace (len data - Z.of_nat (S fuel) + 1)
        with (len data - Z.of_nat fuel) by lia.
      apply IH. lia.
    + apply nth_error_None in Hnth. lia.
Qed.

End VarintShapeFacts.

(** X1.  An encoded value is read back wherever it sits in a buffer:
    reading at the offset of its first byte gives the value and the
    offset just after its last byte, whatever comes before and after. *)
Theorem read_varint_at_offset (n : Z) (pre post : bytes) :
  0 <= n ->
  exists enc : bytes,
    ProtoUtils.encode_varint n = Ok enc /\
    ProtoUtils.read_varint (pre ++ enc ++ post) (len pre)
    = Ok (n, len pre + len enc).
Proof.
  intros Hn. exists (ProtoUtils.encode_varint_loop [] n). split.
  - apply VarintFacts.encode_varint_ok, Hn.
  - apply VarintFacts.read_varint_encoded, Hn.
Qed.

Lemma read_varint_at_offset_witness :
  exists enc : bytes,
    ProtoUtils.encode_varint 300 = Ok enc /\
    ProtoUtils.read_varint ([7; 8] ++ enc ++ [9]) (len [7; 8])
    = Ok (300, len [7; 8] + len enc).
Proof. apply (read_varint_at_offset 300 [7; 8] [9]). lia. Defined.

(** X2.  The encoding of a non-negative value is canonical: every byte
    but the last has the continuation bit set (it lies in 128..255), the
    last byte lies in 0..127, and the last byte is zero only when the
    value is zero, so there is no padding group. *)
Theorem encode_varint_canonical (n : Z) (enc : bytes) :
  0 <= n -> ProtoUtils.encode_varint n = Ok enc ->
  exists (init : bytes) (last : Z),
    enc = init ++ [last] /\
    Forall (fun b => 128 <= b < 256) init /\
    0 <= last < 128 /\ (n <> 0 -> last <> 0).
Proof.
  intros Hn Henc.
  rewrite (VarintFacts.encode_varint_ok n Hn) in Henc.
  inversion Henc; subst enc.
  apply VarintShapeFacts.encode_varint_loop_shape, Hn.
Qed.

Lemma encode_varint_canonical_witness :
  exists (init : bytes) (last : Z),
    [172; 2] = init ++ [last] /\
    Forall (fun b => 128 <= b < 256) init /\
    0 <= last < 128 /\ (300 <> 0 -> last <> 0).
Proof.
  apply (encode_varint_canonical 300 [172; 2]); [lia | reflexivity].
Defined.

(** X3.  A truncated varint is refused: reading any proper prefix of an
    encoding (the empty one included) raises [ValueError]. *)
Theorem read_varint_truncated (n : Z) (enc : bytes) (k : nat) :
  0 <= n -> ProtoUtils.encode_varint n = Ok enc ->
  (k < length enc)%nat ->
  ProtoUtils.read_varint (firstn k enc) 0 = Raise ValueError.
Proof.
  intros Hn Henc Hk.
  rewrite (VarintFacts.encode_varint_ok n Hn) in Henc.
  inversion Henc; subst enc.
  destruct (VarintShapeFacts.encode_varint_loop_shape n Hn)
    as (init & last & Hshape & Hinit & _).
  rewrite Hshape in Hk |- *.
  rewrite length_app in Hk. cbn [length] in Hk.
  rewrite firstn_app.
  replace (k - length init)%nat with 0%nat by lia.
  rewrite firstn_O, app_nil_r.
  assert (Hpre : Forall (fun b => 128 <= b < 256) (firstn k init))
    by (apply BytesFacts.Forall_firstn_skipn, Hinit).
  unfold ProtoUtils.read_varint.
  pose proof (VarintShapeFacts.read_varint_loop_unfinished
                (firstn k init) Hpre (length (firstn k init)) 0 0
                (Nat.le_refl _)) as H.
  unfold len in H |- *.
  rewrite Z.sub_diag in H.
  replace (Z.to_nat (Z.of_nat (length (firstn k init)) - 0))
    with (length (firstn k init)) by lia.
  exact H.
Qed.

Lemma read_varint_truncated_witness :
  ProtoUtils.read_varint (firstn 1 [172; 2]) 0 = Raise ValueError.
Proof.
  apply (read_varint_truncated 300 [172; 2] 1);
    [lia | reflexivity | simpl; lia].
Defined.

(** * More on the token blob *)

Module TokenInversionFacts.
Import ProtoUtils WireReader Props VarintFacts WireFacts EnvelopeFacts.

Lemma create_string_field_scalar (n : Z) (value : pystr) (out : bytes) :
  0 <= n -> create_string_field n value = Ok out ->
  Forall is_scalar value.
Proof.
  intros Hn. unfold create_string_field.
  rewrite encode_varint_ok by (apply tag_nonneg; lia). cbn [bind].
  destruct (utf8_encode value) as [data |] eqn:Hdata; [| discriminate].
  intros _. eapply utf8_encode_scalar, Hdata.
Qed.

Lemma create_timestamp_field_nonneg (n seconds : Z) (out : bytes) :
  create_timestamp_field n seconds = Ok out -> 0 <= seconds.
Proof.
  unfold create_timestamp_field.
  change (Z.lor (Z.shiftl 1 3) 0) with 8.
  rewrite (encode_varint_ok 8) by lia. cbn [bind].
  unfold encode_varint at 1.
  destruct (Z.ltb_spec seconds 0); [discriminate | auto].
Qed.

Lemma create_timestamp_field_negative (n seconds : Z) :
  seconds < 0 -> create_timestamp_field n seconds = Raise ValueError.
Proof.
  intros Hs. unfold create_timestamp_field.
  change (Z.lor (Z.shiftl 1 3) 0) with 8.
  rewrite (encode_varint_ok 8) by lia. cbn [bind].
  unfold encode_varint at 1.
  destruct (Z.ltb_spec seconds 0); [reflexivity | lia].
Qed.

Lemma create_oauth_info_inv (a r : pystr) (e : Z) (out : bytes) :
  create_oauth_info a r e = Ok out ->
  Forall is_scalar a /\ Forall is_scalar r /\ 0 <= e.
Proof.
  unfold create_oauth_info.
  destruct (create_string_field 1 a) as [f1 |] eqn:H1; [| discriminate].
  cbn [bind].
  destruct (create_string_field 2 (lit "Bearer")) as [f2 |];
    [| discriminate]. cbn [bind].
  destruct (create_string_field 3 r) as [f3 |] eqn:H3; [| discriminate].
  cbn [bind].
  destruct (create_timestamp_field 4 e) as [f4 |] eqn:H4; [| discriminate].
  intros _. split; [| split].
  - apply (create_string_field_scalar 1 a f1); [lia | exact H1].
  - apply (create_string_field_scalar 3 r f3); [lia | exact H3].
  - apply (create_timestamp_field_nonneg 4 e f4 H4).
Qed.

Lemma create_unified_oauth_token_inv (a r : pystr) (e : Z) (blob : pystr) :
  create_unified_oauth_token a r e = Ok blob ->
  Forall is_scalar a /\ Forall is_scalar r /\ 0 <= e.
Proof.
  unfold create_unified_oauth_token.
  destruct (create_oauth_info a r e) as [info |] eqn:Hinfo;
    [| discriminate].
  intros _. apply (create_oauth_info_inv a r e info Hinfo).
Qed.

End TokenInversionFacts.

(** X4.  For tokens that encode and a non-negative expiry,
    [create_unified_oauth_token] returns a blob, and undoing the layers
    of the blob (base64, outer message, sentinel and wrapper, base64,
    leaf) gives back the access token, the type "Bearer", the refresh
    token and the expiry exactly as it was passed. *)
Theorem create_unified_oauth_token_reads_back
  (access_token refresh_token : pystr) (expiry : Z) :
  Forall Props.is_scalar access_token ->
  Forall Props.is_scalar refresh_token ->
  0 <= expiry ->
  exists blob : pystr,
    ProtoUtils.create_unified_oauth_token access_token refresh_token expiry
    = Ok blob /\
    WireReader.read_unified_oauth_token blob
    = Ok {| WireReader.accessToken := access_token;
            WireReader.tokenType := lit "Bearer";
            WireReader.refreshToken := refresh_token;
            WireReader.expirySeconds := expiry |}.
Proof. apply TokenFacts.unified_token_reads_back. Qed.

Lemma create_unified_oauth_token_reads_back_witness :
  exists blob : pystr,
    ProtoUtils.create_unified_oauth_token Scenario.sample_text (lit "RT1")
      1700000000 = Ok blob /\
    WireReader.read_unified_oauth_token blob
    = Ok {| WireReader.accessToken := Scenario.sample_text;
            WireReader.tokenType := lit "Bearer";
            WireReader.refreshToken := lit "RT1";
            WireReader.expirySeconds := 1700000000 |}.
Proof.
  apply (create_unified_oauth_token_reads_back Scenario.sample_text
           (lit "RT1") 1700000000).
  - unfold Scenario.sample_text, Props.is_scalar.
    repeat (apply Forall_cons; [lia |]). apply Forall_nil.
  - apply Forall_forall. intros c Hin. vm_compute in Hin.
    unfold Props.is_scalar.
    repeat (destruct Hin as [<- | Hin]; [lia |]). contradiction.
  - lia.
Defined.

(** X5.  The blob determines its inputs: two calls of
    [create_unified_oauth_token] that return the same blob were given
    the same access token, refresh token and expiry. *)
Theorem create_unified_oauth_token_injective
  (a r a' r' : pystr) (e e' : Z) (blob : pystr) :
  ProtoUtils.create_unified_oauth_token a r e = Ok blob ->
  ProtoUtils.create_unified_oauth_token a' r' e' = Ok blob ->
  a = a' /\ r = r' /\ e = e'.
Proof.
  intros H H'.
  destruct (TokenInversionFacts.create_unified_oauth_token_inv _ _ _ _ H)
    as (Ha & Hr & He).
  destruct (TokenInversionFacts.create_unified_oauth_token_inv _ _ _ _ H')
    as (Ha' & Hr' & He').
  destruct (TokenFacts.unified_token_reads_back a r e Ha Hr He)
    as (b & Hb & Hread).
  destruct (TokenFacts.unified_token_reads_back a' r' e' Ha' Hr' He')
    as (b' & Hb' & Hread').
  rewrite H in Hb. rewrite H' in Hb'.
  inversion Hb; subst b. inversion Hb'; subst b'.
  rewrite Hread in Hread'. inversion Hread'. auto.
Qed.

Lemma create_unified_oauth_token_injective_witness :
  lit "AT1" = lit "AT1" /\ lit "RT1" = lit "RT1" /\ 1700000000 = 1700000000.
Proof.
  apply (create_unified_oauth_token_injective
           (lit "AT1") (lit "RT1") (lit "AT1") (lit "RT1")
           1700000000 1700000000
           (match ProtoUtils.create_unified_oauth_token (lit "AT1")
                    (lit "RT1") 1700000000 with
            | Ok b => b | Raise _ => [] end)).
  - vm_compute. reflexivity.
  - vm_compute. reflexivity.
Defined.

(** X6.  A negative expiry is refused: for tokens that encode,
    [create_unified_oauth_token] raises [ValueError] and returns no
    blob. *)
Theorem create_unified_oauth_token_negative_expiry
  (access_token refresh_token : pystr) (expiry : Z) :
  Forall Props.is_scalar access_token ->
  Forall Props.is_scalar refresh_token ->
  expiry < 0 ->
  ProtoUtils.create_unified_oauth_token access_token refresh_token expiry
  = Raise ValueError.
Proof.
  intros Ha Hr He.
  destruct (Utf8Facts.utf8_roundtrip access_token Ha) as (da & Ea & _).
  destruct (Utf8Facts.utf8_roundtrip refresh_token Hr) as (dr & Er & _).
  destruct (Utf8Facts.utf8_ascii _ TokenFacts.bearer_ascii) as (Eb & _).
  unfold ProtoUtils.create_unified_oauth_token,
    ProtoUtils.create_oauth_info.
  rewrite (WireFacts.create_string_field_ok 1 _ da) by (lia || assumption).
  cbn [bind].
  rewrite (WireFacts.create_string_field_ok 2 _ _ ltac:(lia) Eb).
  cbn [bind].
  rewrite (WireFacts.create_string_field_ok 3 _ dr) by (lia || assumption).
  cbn [bind].
  rewrite TokenInversionFacts.create_timestamp_field_negative by exact He.
  reflexivity.
Qed.

Lemma create_unified_oauth_token_negative_expiry_witness :
  ProtoUtils.create_unified_oauth_token [] [] (-1) = Raise ValueError.
Proof.
  apply (create_unified_oauth_token_negative_expiry [] [] (-1));
    [apply Forall_nil | apply Forall_nil | lia].
Defined.

(** * More on sealed fields *)

Module EnvelopeMoreFacts.
Import ProtoUtils Core Props MoreProps BytesFacts Utf8Facts EnvelopeFacts.

Lemma split_length (v : pystr) : length (split 58 v) = S (colons v).
Proof.
  unfold colons. induction v as [| c v IH]; [reflexivity |].
  cbn [split count_occ].
  destruct (Z.eqb_spec c 58) as [-> | Hne].
  - destruct (Z.eq_dec 58 58); [| contradiction].
    cbn [length]. rewrite IH. reflexivity.
  - destruct (Z.eq_dec c 58); [contradiction |].
    destruct (split 58 v) as [| p ps]; [discriminate |].
    cbn [length] in IH |- *. exact IH.
Qed.

Lemma utf8_encode_char_raises (c : Z) (e : exn) :
  utf8_encode_char c = Raise e -> e = UnicodeError.
Proof.
  unfold utf8_encode_char.
  repeat match goal with
         | |- context [if ?b then _ else _] => destruct b
         end; intros H; inversion H; reflexivity.
Qed.

Lemma utf8_encode_raises (s : pystr) (e : exn) :
  utf8_encode s = Raise e -> e = UnicodeError.
Proof.
  induction s as [| c s IH]; [discriminate |].
  cbn [utf8_encode].
  destruct (utf8_encode_char c) as [b |] eqn:Hc.
  - cbn [bind]. destruct (utf8_encode s) as [bs |]; [discriminate |].
    cbn [bind]. intros H. inversion H; subst. apply IH. reflexivity.
  - cbn [bind]. intros H. inversion H; subst.
    eapply utf8_encode_char_raises, Hc.
Qed.

Lemma AESGCM_ok (key : bytes) : aes_key_length key -> AESGCM key = Ok key.
Proof.
  unfold aes_key_length, AESGCM, len.
  intros [-> | [-> | ->]]; reflexivity.
Qed.

Lemma AESGCM_raises (key : bytes) :
  ~ aes_key_length key -> AESGCM key = Raise ValueError.
Proof.
  unfold aes_key_length, AESGCM, len. intros Hbad.
  destruct (Z.eqb_spec (Z.of_nat (length key)) 16); [exfalso; lia |].
  destruct (Z.eqb_spec (Z.of_nat (length key)) 24); [exfalso; lia |].
  destruct (Z.eqb_spec (Z.of_nat (length key)) 32); [exfalso; lia |].
  reflexivity.
Qed.

End EnvelopeMoreFacts.

Section EnvelopeExtras.
Import ProtoUtils Core Props MoreProps BytesFacts Utf8Facts EnvelopeFacts
  EnvelopeMoreFacts.
Context {platform : Platform}.

(** X7.  The format-sniffing fallback of [decrypt_db_value]: a stored
    value that is empty, starts with '{' or '[', or does not contain
    exactly two colons is handed back unchanged, under any key, usable
    or not. *)
Theorem decrypt_db_value_passes_plain_through (v : pystr) (key : bytes) :
  v = [] \/ startswith v (lit "{") = true \/ startswith v (lit "[") = true
  \/ colons v <> 2%nat ->
  decrypt_db_value (Some v) key = Some v.
Proof.
  intros H. unfold decrypt_db_value.
  destruct v as [| c v]; [reflexivity |].
  destruct H as [H | [H | [H | H]]]; [discriminate | | |].
  - rewrite H. reflexivity.
  - rewrite H. rewrite orb_true_r. reflexivity.
  - destruct (startswith (c :: v) (lit "{") || startswith (c :: v) (lit "["));
      [reflexivity |].
    pose proof (split_length (c :: v)) as Hlen.
    destruct (split 58 (c :: v)) as [| p1 [| p2 [| p3 [| p4 ps]]]];
      try reflexivity.
    cbn [length] in Hlen. exfalso. apply H. lia.
Qed.

(** X8.  With a key of a length AES does not take, a value that has the
    three-part shape (not empty, not starting with '{' or '[', exactly
    two colons) decrypts to [None]; the [ValueError] of the cipher is
    swallowed. *)
Theorem decrypt_db_value_unusable_key (v : pystr) (key : bytes) :
  ~ aes_key_length key ->
  v <> [] -> startswith v (lit "{") = false ->
  startswith v (lit "[") = false -> colons v = 2%nat ->
  decrypt_db_value (Some v) key = None.
Proof.
  intros Hkey Hne Hbrace Hbracket Hcolons.
  pose proof (split_length v) as Hlen. rewrite Hcolons in Hlen.
  destruct (split 58 v) as [| p1 [| p2 [| p3 [| p4 ps]]]] eqn:Hsplit;
    try discriminate.
  rewrite (decrypt_db_value_three_parts v p1 p2 p3 key Hne Hbrace Hbracket
             Hsplit).
  unfold opened, unseal_parts.
  destruct (fromhex p1); [| reflexivity]. cbn [bind].
  destruct (fromhex p2); [| reflexivity]. cbn [bind].
  destruct (fromhex p3); [| reflexivity]. cbn [bind].
  rewrite (AESGCM_raises key Hkey). reflexivity.
Qed.

(** X9.  [encrypt_db_value] returns an envelope exactly when the key has
    an AES length (16, 24 or 32 bytes) and the text encodes; it then has
    drawn exactly 16 random bytes.  With another key length it raises
    [ValueError], and with an AES key and a text that does not encode it
    raises [UnicodeError]. *)
Theorem encrypt_db_value_returns_exactly_when (text : pystr) (key : bytes)
  (w : World) :
  ((exists envelope w', encrypt_db_value text key w = (Ok envelope, w'))
   <-> aes_key_length key /\ Forall is_scalar text) /\
  (forall envelope w',
     encrypt_db_value text key w = (Ok envelope, w') ->
     w' = with_drawn w (drawn w + 16)%nat) /\
  (~ aes_key_length key ->
   fst (encrypt_db_value text key w) = Raise ValueError) /\
  (aes_key_length key -> ~ Forall is_scalar text ->
   fst (encrypt_db_value text key w) = Raise UnicodeError).
Proof.
  split; [split |].
  - intros (envelope & w' & Hrun).
    destruct (encrypt_db_value_inv text key w w' envelope Hrun)
      as (iv & data & _ & _ & Haes & Henc & _).
    split; [| eapply utf8_encode_scalar, Henc].
    unfold aes_key_length. unfold AESGCM, len in Haes.
    destruct (Z.eqb_spec (Z.of_nat (length key)) 16); [lia |].
    destruct (Z.eqb_spec (Z.of_nat (length key)) 24); [lia |].
    destruct (Z.eqb_spec (Z.of_nat (length key)) 32); [lia |].
    discriminate.
  - intros [Hkey Htext].
    destruct (utf8_roundtrip text Htext) as (data & Henc & _).
    destruct (encrypt_db_value_ok text key data w (AESGCM_ok key Hkey) Henc)
      as (iv & _ & _ & Hrun).
    eauto.
  - split; [| split].
    + intros envelope w' Hrun.
      destruct (encrypt_db_value_inv text key w w' envelope Hrun)
        as (iv & data & _ & _ & _ & _ & _ & Hw). exact Hw.
    + intros Hkey. unfold encrypt_db_value, bindM.
      destruct (token_bytes_spec 16 w) as (iv & Hiv & _). rewrite Hiv.
      unfold lift. rewrite (AESGCM_raises key Hkey). reflexivity.
    + intros Hkey Htext. unfold encrypt_db_value, bindM.
      destruct (token_bytes_spec 16 w) as (iv & Hiv & _). rewrite Hiv.
      unfold lift. rewrite (AESGCM_ok key Hkey).
      destruct (utf8_encode text) as [data |] eqn:Henc.
      * exfalso. apply Htext. eapply utf8_encode_scalar, Henc.
      * rewrite (utf8_encode_raises text e Henc). reflexivity.
Qed.

End EnvelopeExtras.

Lemma decrypt_db_value_passes_plain_through_witness :
  @Core.decrypt_db_value Reference.platform (Some (lit "a:b")) [1; 2; 3]
  = Some (lit "a:b").
Proof.
  apply (@decrypt_db_value_passes_plain_through Reference.platform
           (lit "a:b") [1; 2; 3]).
  right. right. right. vm_compute. discriminate.
Defined.

Lemma decrypt_db_value_unusable_key_witness :
  @Core.decrypt_db_value Reference.platform
    (Some Scenario.tampered_envelope) [1; 2; 3] = None.
Proof.
  apply (@decrypt_db_value_unusable_key Reference.platform
           Scenario.tampered_envelope [1; 2; 3]).
  - unfold MoreProps.aes_key_length. cbn [length]. lia.
  - vm_compute. discriminate.
  - vm_compute. reflexivity.
  - vm_compute. reflexivity.
  - vm_compute. reflexivity.
Defined.

(** * More on the master key *)

Module MasterKeyMoreFacts.
Import ProtoUtils Core Props MoreProps BytesFacts Utf8Facts.

Lemma startswith_app (p rest : list Z) : startswith (p ++ rest) p = true.
Proof.
  induction p as [| c p IH]; [destruct rest; reflexivity |].
  cbn [app startswith]. rewrite Z.eqb_refl. exact IH.
Qed.

Lemma hex_ascii (bs : bytes) :
  Forall is_byte bs -> Forall (fun c => 0 <= c < 128) (hex bs).
Proof.
  intros H. apply hex_digits in H.
  eapply Forall_impl; [| exact H].
  intros c Hc. cbv beta in Hc. unfold hexdigit in Hc. lia.
Qed.

(** The three parts of a versioned key file. *)
Lemma versioned_blob_parts (nonce sealed : bytes) :
  length nonce = 12%nat ->
  Core.slice 3 15 (lit "v10" ++ nonce ++ sealed) = nonce /\
  skipn 15 (lit "v10" ++ nonce ++ sealed) = sealed.
Proof.
  intros Hlen. unfold Core.slice.
  assert (H3 : length (lit "v10") = 3%nat) by reflexivity.
  split.
  - change (firstn (15 - 3)
              (skipn (length (lit "v10")) (lit "v10" ++ nonce ++ sealed))
            = nonce).
    rewrite skipn_app, skipn_all, Nat.sub_diag.
    cbn [skipn app].
    replace (15 - 3)%nat with (length nonce) by lia.
    rewrite firstn_app, firstn_all, Nat.sub_diag, firstn_O, app_nil_r.
    reflexivity.
  - rewrite app_assoc.
    replace 15%nat with (length (lit "v10" ++ nonce))
      by (rewrite length_app, H3, Hlen; reflexivity).
    rewrite skipn_app, skipn_all, Nat.sub_diag. reflexivity.
Qed.

Section WithPlatform.
Context {platform : Platform}.

(** No ".mk" file ahead: the second loop moves on. *)
Lemma master_key_loop_skip (osk : option bytes) (pre rest : list DataDir) :
  Forall (fun d => mk d = None) pre ->
  master_key_loop osk (pre ++ rest) = master_key_loop osk rest.
Proof.
  induction 1 as [| d pre Hd _ IH]; [reflexivity |].
  cbn [app master_key_loop]. rewrite Hd. exact IH.
Qed.

(** Without an OS-sealed key a versioned file is passed over. *)
Lemma unseal_mk_versioned_no_key (osk : option bytes) (blob : bytes) :
  osk = None \/ osk = Some [] ->
  startswith blob (lit "v10") = true ->
  unseal_mk osk blob = None.
Proof.
  intros Hosk Hv. unfold unseal_mk. rewrite Hv.
  destruct Hosk as [-> | ->]; reflexivity.
Qed.

Lemma master_key_loop_versioned_no_key (osk : option bytes)
  (dirs : list DataDir) :
  osk = None \/ osk = Some [] ->
  Forall (fun d => match mk d with
                   | Some blob => startswith blob (lit "v10") = true
                   | None => True
                   end) dirs ->
  master_key_loop osk dirs = None.
Proof.
  intros Hosk Hall.
  induction Hall as [| d dirs Hd _ IH]; [reflexivity |].
  cbn [master_key_loop].
  destruct (mk d) as [blob |]; [| exact IH].
  rewrite (unseal_mk_versioned_no_key _ blob Hosk Hd). exact IH.
Qed.

End WithPlatform.
End MasterKeyMoreFacts.

Section MasterKeyExtras.
Import ProtoUtils Core Props MoreProps BytesFacts Utf8Facts EnvelopeFacts
  EnvelopeMoreFacts MasterKeyMoreFacts.
Context {platform : Platform}.

(** X10.  The versioned key-file format is read back.  When the first
    directory has a "Local State" record whose payload after the 5-byte
    prefix unwraps to an AES key, and a ".mk" file made of "v10", a
    12-byte nonce and the hexadecimal text of a key sealed under that
    AES key and nonce, [get_master_key] returns that key. *)
Theorem get_master_key_versioned_file {laws : PlatformLaws platform}
  (w : World) (d : DataDir) (rest : list DataDir)
  (prefix sealed osk nonce key : bytes) :
  data_dirs w = d :: rest ->
  local_state d = Some (Ok (prefix ++ sealed)) -> length prefix = 5%nat ->
  CryptUnprotectData sealed = Ok osk ->
  aes_key_length osk -> Forall is_byte osk ->
  length nonce = 12%nat -> Forall is_byte nonce -> Forall is_byte key ->
  mk d = Some (lit "v10" ++ nonce ++ gcm_seal osk nonce (hex key)) ->
  get_master_key w = Some key.
Proof.
  intros Hdirs Hls Hprefix Hunwrap Haes Hosk Hnlen Hnonce Hkey Hmk.
  unfold get_master_key, get_data_dirs. rewrite Hdirs.
  cbn [oscrypt_key_loop]. rewrite Hls.
  unfold unwrap_local_state. cbn [bind].
  rewrite <- Hprefix, skipn_app, skipn_all, Nat.sub_diag.
  cbn [skipn app]. rewrite Hunwrap.
  cbn [master_key_loop]. rewrite Hmk.
  unfold unseal_mk. rewrite startswith_app.
  assert (Hne : osk <> [])
    by (intros ->; destruct Haes as [H | [H | H]]; discriminate).
  destruct osk as [| b osk]; [contradiction |].
  destruct (versioned_blob_parts nonce
              (gcm_seal (b :: osk) nonce (hex key)) Hnlen) as (Hn & Hs).
  rewrite Hn, Hs.
  rewrite (AESGCM_ok _ Haes). cbn [bind].
  assert (Hcheck : check_nonce nonce = Ok tt)
    by (unfold check_nonce, len; rewrite Hnlen; reflexivity).
  unfold AESGCM_decrypt. rewrite Hcheck. cbn [bind].
  unfold len. rewrite gcm_seal_length.
  destruct (Z.ltb_spec (Z.of_nat (length (hex key) + 16)) 16); [lia |].
  pose proof (hex_ascii key Hkey) as Hascii.
  rewrite gcm_open_seal;
    [| exact Hosk | exact Hnonce
     | eapply Forall_impl; [| exact Hascii]; unfold is_byte;
       intros c Hc; cbv beta in Hc; lia].
  cbn [bind].
  destruct (utf8_ascii _ Hascii) as (_ & Hdec). rewrite Hdec. cbn [bind].
  rewrite (fromhex_hex key Hkey). reflexivity.
Qed.

(** X11.  A legacy key file does not need "Local State".  When the
    first ".mk" file in directory order does not start with "v10" and
    unwraps directly to the hexadecimal text of a key, [get_master_key]
    returns that key, whatever the "Local State" records hold. *)
Theorem get_master_key_legacy_file (w : World) (pre post : list DataDir)
  (d : DataDir) (blob unwrapped : bytes) (key_hex : pystr) (key : bytes) :
  data_dirs w = pre ++ d :: post ->
  Forall (fun x => mk x = None) pre ->
  mk d = Some blob -> startswith blob (lit "v10") = false ->
  CryptUnprotectData blob = Ok unwrapped ->
  utf8_decode unwrapped = Ok key_hex -> fromhex key_hex = Ok key ->
  get_master_key w = Some key.
Proof.
  intros Hdirs Hpre Hmk Hv Hunwrap Hdec Hhex.
  unfold get_master_key, get_data_dirs. rewrite Hdirs.
  rewrite master_key_loop_skip by exact Hpre.
  cbn [master_key_loop]. rewrite Hmk.
  unfold unseal_mk. rewrite Hv, Hunwrap. cbn [bind].
  rewrite Hdec. cbn [bind]. rewrite Hhex. reflexivity.
Qed.

(** X12.  Versioned key files are useless without the OS-sealed key and
    are passed over rather than failing: when no "Local State" record
    unwraps (or it unwraps to nothing) and every ".mk" file present
    starts with "v10", [get_master_key] returns [None]. *)
Theorem get_master_key_versioned_without_local_state (w : World) :
  oscrypt_key_loop (data_dirs w) = None
  \/ oscrypt_key_loop (data_dirs w) = Some [] ->
  Forall (fun d => match mk d with
                   | Some blob => startswith blob (lit "v10") = true
                   | None => True
                   end) (data_dirs w) ->
  get_master_key w = None.
Proof.
  intros Hosk Hall. unfold get_master_key, get_data_dirs.
  apply master_key_loop_versioned_no_key; assumption.
Qed.

End MasterKeyExtras.

Section MasterKeyRuns.
Import Core Props MoreProps Reference Scenario MoreScenario.

Lemma oscrypt_key_bytes : Forall is_byte oscrypt_key.
Proof.
  apply Forall_forall. intros b Hin. unfold oscrypt_key in Hin.
  apply in_map_iff in Hin. destruct Hin as (i & <- & Hi).
  apply in_seq in Hi. unfold is_byte. lia.
Qed.

Lemma mk_nonce_bytes : Forall is_byte mk_nonce.
Proof.
  apply Forall_forall. intros b Hin. unfold mk_nonce in Hin.
  apply in_map_iff in Hin. destruct Hin as (i & <- & Hi).
  apply in_seq in Hi. unfold is_byte. lia.
Qed.

Lemma get_master_key_versioned_file_witness :
  get_master_key (world_with_dirs [dir_both_files]) = Some master_key.
Proof.
  apply (@get_master_key_versioned_file Reference.platform
           ReferenceFacts.reference_laws
           (world_with_dirs [dir_both_files]) dir_both_files []
           (lit "DPAPI") (lit "SEAL" ++ oscrypt_key) oscrypt_key mk_nonce
           master_key).
  - reflexivity.
  - reflexivity.
  - reflexivity.
  - vm_compute. reflexivity.
  - right. right. reflexivity.
  - exact oscrypt_key_bytes.
  - reflexivity.
  - exact mk_nonce_bytes.
  - exact master_key_bytes.
  - reflexivity.
Defined.

Lemma get_master_key_legacy_file_witness :
  get_master_key (world_with_dirs [dir_bad_local_state; dir_legacy_mk])
  = Some master_key.
Proof.
  apply (@get_master_key_legacy_file Reference.platform
           (world_with_dirs [dir_bad_local_state; dir_legacy_mk])
           [dir_bad_local_state] [] dir_legacy_mk mk_file
           (hex master_key) (hex master_key) master_key).
  - reflexivity.
  - repeat constructor.
  - reflexivity.
  - vm_compute. reflexivity.
  - vm_compute. reflexivity.
  - vm_compute. reflexivity.
  - vm_compute. reflexivity.
Defined.

Lemma get_master_key_versioned_without_local_state_witness :
  get_master_key (world_with_dirs [dir_mk_only]) = None.
Proof.
  apply (@get_master_key_versioned_without_local_state Reference.platform
           (world_with_dirs [dir_mk_only])).
  - left. reflexivity.
  - repeat constructor.
Defined.

End MasterKeyRuns.

(** * More on the account store *)

Module StoreMoreFacts.
Import Core Props MoreProps.

Section WithPlatform.
Context {platform : Platform}.

Lemma load_account_row (master_key : option bytes) (r : Row)
  (acc : Account) :
  load_account master_key r = Ok acc -> row acc = r.
Proof.
  unfold load_account.
  destruct master_key as [[| b key] |];
    try (intros H; inversion H; reflexivity).
  destruct (load_field (token_json r) (b :: key)) as [tok |];
    [| discriminate]. cbn [bind].
  destruct (load_field (quota_json r) (b :: key)) as [quo |];
    [| discriminate]. cbn [bind].
  intros H. inversion H. reflexivity.
Qed.

Lemma load_accounts_rows (master_key : option bytes) (rows : list Row) :
  forall accounts,
    load_accounts master_key rows = Ok accounts ->
    map row accounts = rows.
Proof.
  induction rows as [| r rows IH]; intros accounts H.
  - inversion H. reflexivity.
  - cbn [load_accounts] in H.
    destruct (load_account master_key r) as [acc |] eqn:Hacc;
      [| discriminate]. cbn [bind] in H.
    destruct (load_accounts master_key rows) as [accs |]; [| discriminate].
    cbn [bind] in H. inversion H; subst accounts.
    cbn [map]. rewrite (load_account_row _ _ _ Hacc), (IH accs eq_refl).
    reflexivity.
Qed.


End WithPlatform.
End StoreMoreFacts.

Section StoreExtras.
Import Core Props MoreProps StoreMoreFacts.
Context {platform : Platform}.


(** X14.  Whenever [get_accounts] returns, it returns exactly one
    account per row of the table, in the order of the query (most
    recently used first), each carrying the columns of its row. *)
Theorem get_accounts_one_account_per_row (w : World)
  (accounts : list Account) :
  fst (get_accounts w) = Ok accounts ->
  map row accounts = table_rows w.
Proof.
  unfold get_accounts, table_rows.
  destruct (find_db_path w) as [db_path |];
    [| intros H; inversion H; reflexivity].
  destruct (db_at w db_path) as [[| rows] |];
    try (intros H; inversion H; reflexivity).
  cbn [fst]. apply load_accounts_rows.
Qed.

End StoreExtras.


Lemma get_accounts_one_account_per_row_witness :
  map row [Scenario.target_complete]
  = MoreProps.table_rows Scenario.world_no_executable.
Proof.
  apply (@get_accounts_one_account_per_row Reference.platform
           Scenario.world_no_executable [Scenario.target_complete]).
  vm_compute. reflexivity.
Defined.

(** * More on injection *)

Module InjectFacts.
Import ProtoUtils Core Props MoreProps LifecycleFacts.

Lemma table_get_upsert_same (tbl : list (pystr * pystr)) (k v : pystr) :
  table_get (upsert tbl k v) k = Some v.
Proof.
  induction tbl as [| [k' v'] tbl IH]; cbn [upsert table_get].
  - unfold str_eqb. destruct (list_eq_dec Z.eq_dec k k); congruence.
  - destruct (str_eqb k' k) eqn:E; cbn [table_get].
    + unfold str_eqb. destruct (list_eq_dec Z.eq_dec k k); congruence.
    + rewrite E. exact IH.
Qed.

Lemma table_get_upsert_other (tbl : list (pystr * pystr)) (k k' v : pystr) :
  k' <> k -> table_get (upsert tbl k v) k' = table_get tbl k'.
Proof.
  intros Hne. induction tbl as [| [k0 v0] tbl IH]; cbn [upsert table_get].
  - unfold str_eqb. destruct (list_eq_dec Z.eq_dec k k'); congruence.
  - destruct (str_eqb k0 k) eqn:E; cbn [table_get].
    + apply str_eqb_eq in E. subst k0.
      unfold str_eqb. destruct (list_eq_dec Z.eq_dec k k'); congruence.
    + destruct (str_eqb k0 k'); [reflexivity | exact IH].
Qed.

Lemma table_get_delete_same (tbl : list (pystr * pystr)) (k : pystr) :
  table_get (delete_key tbl k) k = None.
Proof.
  unfold delete_key.
  induction tbl as [| [k' v'] tbl IH]; cbn [filter table_get fst];
    [reflexivity |].
  destruct (str_eqb k' k) eqn:E; cbn [negb]; [exact IH |].
  cbn [table_get]. rewrite E. exact IH.
Qed.

Lemma table_get_delete_other (tbl : list (pystr * pystr)) (k k' : pystr) :
  k' <> k -> table_get (delete_key tbl k) k' = table_get tbl k'.
Proof.
  intros Hne. unfold delete_key.
  induction tbl as [| [k0 v0] tbl IH]; cbn [filter table_get fst];
    [reflexivity |].
  destruct (str_eqb k0 k) eqn:E; cbn [negb].
  - apply str_eqb_eq in E. subst k0.
    unfold str_eqb at 2. destruct (list_eq_dec Z.eq_dec k k'); [congruence |].
    exact IH.
  - cbn [table_get]. destruct (str_eqb k0 k'); [reflexivity | exact IH].
Qed.

(** What the write transaction leaves in the item table. *)
Lemma injected_items_lookup (tbl : list (pystr * pystr))
  (value_b64 auth_status : pystr) :
  let tbl' := injected_items tbl value_b64 auth_status in
  table_get tbl' key_oauth_token = Some value_b64 /\
  table_get tbl' key_auth_status = Some auth_status /\
  table_get tbl' key_onboarding = Some (lit "true") /\
  table_get tbl' key_legacy = None /\
  forall k,
    k <> key_oauth_token -> k <> key_auth_status ->
    k <> key_onboarding -> k <> key_legacy ->
    table_get tbl' k = table_get tbl k.
Proof.
  cbv zeta. unfold injected_items.
  fold key_oauth_token key_auth_status key_onboarding key_legacy.
  repeat split.
  - rewrite table_get_delete_other by (vm_compute; discriminate).
    rewrite !table_get_upsert_other by (vm_compute; discriminate).
    apply table_get_upsert_same.
  - rewrite table_get_delete_other by (vm_compute; discriminate).
    rewrite table_get_upsert_other by (vm_compute; discriminate).
    apply table_get_upsert_same.
  - rewrite table_get_delete_other by (vm_compute; discriminate).
    apply table_get_upsert_same.
  - apply table_get_delete_same.
  - intros k H1 H2 H3 H4.
    rewrite table_get_delete_other by assumption.
    rewrite !table_get_upsert_other by assumption. reflexivity.
Qed.

Section WithPlatform.
Context {platform : Platform}.

(** The backup step never raises and touches the backup file and the
    trace only. *)
Lemma backup_state_db_spec (sdb : StateDb) (w : World) :
  exists w1,
    backup_state_db sdb w = (Ok tt, w1) /\
    state_db w1 = state_db w /\ data_dirs w1 = data_dirs w /\
    procs w1 = procs w /\
    state_db_backup w1
    = (if copy_ok w then Some (items sdb) else state_db_backup w) /\
    trace w1 = trace w ++ (if copy_ok w then [EvBackup] else []).
Proof.
  unfold backup_state_db. destruct (copy_ok w).
  - eexists. split; [reflexivity |]. repeat split.
  - exists w. split; [reflexivity |]. rewrite app_nil_r. repeat split.
Qed.

(** Unless it answers [True], the write step leaves the world as it
    was. *)
Lemma write_token_failure_frame (account : Account) (sdb : StateDb)
  (w w' : World) (r : result bool) :
  write_token account sdb w = (r, w') -> r <> Ok true -> w' = w.
Proof.
  unfold write_token, bindM, lift, ret.
  destruct (dict_get _ (lit "access_token") JNull) as [a |];
    [| intros H; inversion H; reflexivity].
  destruct (dict_get _ (lit "refresh_token") JNull) as [rt |];
    [| intros H; inversion H; reflexivity].
  destruct (dict_get _ (lit "expiry_timestamp") JNull) as [ex |];
    [| intros H; inversion H; reflexivity].
  destruct (negb (truthy a) || negb (truthy rt));
    [intros H; inversion H; reflexivity |].
  destruct (call_create_unified_oauth_token a rt ex) as [blob |];
    [| intros H; inversion H; reflexivity].
  destruct (writable sdb); [| intros H; inversion H; reflexivity].
  unfold modify, emit, modify. intros H. inversion H; subst.
  intros Hne. exfalso. apply Hne. reflexivity.
Qed.

End WithPlatform.
End InjectFacts.

Section InjectExtras.
Import ProtoUtils Core Props MoreProps InjectFacts.
Context {platform : Platform}.

(** X15.  A successful injection.  For an account whose token data
    holds non-empty string tokens that encode and a non-negative integer
    expiry, on a writable host store, [inject_token] answers [True] and
    commits; afterwards the store holds the token blob under
    [antigravityUnifiedStateSync.oauthToken], the auth-status record
    under [antigravityAuthStatus], "true" under
    [antigravityOnboarding], nothing under [google.antigravity], and
    every other key as before. *)
Theorem inject_token_writes_store (account : Account) (w : World)
  (sdb : StateDb) (a r : pystr) (e : Z) :
  state_db w = Some sdb -> writable sdb = true ->
  has_credentials account a r e ->
  Forall is_scalar a -> Forall is_scalar r -> 0 <= e ->
  exists (blob : pystr) (w' : World),
    create_unified_oauth_token a r e = Ok blob /\
    inject_token account w = (Ok true, w') /\
    trace w' = trace w ++ backup_events w ++ [EvCommit] /\
    table_get (store_items w') key_oauth_token = Some blob /\
    table_get (store_items w') key_auth_status
    = Some (json_dumps (auth_status_record account (JStr a))) /\
    table_get (store_items w') key_onboarding = Some (lit "true") /\
    table_get (store_items w') key_legacy = None /\
    forall k,
      k <> key_oauth_token -> k <> key_auth_status ->
      k <> key_onboarding -> k <> key_legacy ->
      table_get (store_items w') k = table_get (items sdb) k.
Proof.
  intros Hdb Hwr (d & Htok & Ha & Hane & Hr & Hrne & He) Hsa Hsr Hpos.
  destruct (TokenFacts.unified_token_reads_back a r e Hsa Hsr Hpos)
    as (blob & Hblob & _).
  destruct (backup_state_db_spec sdb w)
    as (w1 & Hbackup & Hdb1 & _ & _ & _ & Htrace1).
  destruct (injected_items_lookup (items sdb) blob
              (json_dumps (auth_status_record account (JStr a))))
    as (L1 & L2 & L3 & L4 & L5).
  cbv zeta in L1, L2, L3, L4, L5.
  exists blob. eexists. split; [exact Hblob |].
  split.
  - unfold inject_token, bindM, gets. rewrite Hdb, Hbackup.
    unfold write_token, bindM, lift, dict_get. rewrite Htok, Ha, Hr, He.
    destruct a as [| ca a]; [contradiction |].
    destruct r as [| cr r]; [contradiction |].
    cbn [truthy negb orb].
    unfold call_create_unified_oauth_token. cbn [as_str as_int bind].
    rewrite Hblob, Hwr. unfold modify, emit, modify, ret. reflexivity.
  - cbn [trace with_trace with_state_db].
    unfold store_items. cbn [state_db with_trace with_state_db items].
    unfold backup_events. rewrite Hdb, Htrace1.
    split; [rewrite <- app_assoc; reflexivity |].
    repeat split; assumption.
Qed.

(** X16.  The write is all or nothing: whatever [inject_token] does
    (answer [False], or raise), unless it answers [True] the host store
    is exactly as it was before the call. *)
Theorem inject_token_store_unchanged_unless_true (account : Account)
  (w w' : World) (r : result bool) :
  inject_token account w = (r, w') -> r <> Ok true ->
  state_db w' = state_db w.
Proof.
  unfold inject_token, bindM, gets.
  destruct (state_db w) as [sdb |] eqn:Hdb.
  - destruct (backup_state_db_spec sdb w) as (w1 & Hbackup & Hdb1 & _).
    rewrite Hbackup. intros Hrun Hne.
    rewrite (write_token_failure_frame account sdb w1 w' r Hrun Hne).
    rewrite Hdb1. exact Hdb.
  - unfold ret. intros H _. inversion H; subst. exact Hdb.
Qed.

(** X17.  Tokens without an expiry crash the injection: for an account
    whose token data holds non-empty string tokens but no
    [expiry_timestamp] (or a null one), on a machine with a host
    store, [inject_token] raises [TypeError] (the tokens taken to
    encode), after the backup attempt and before anything is written. *)
Theorem inject_token_missing_expiry (account : Account) (w : World)
  (sdb : StateDb) (d : list (pystr * json)) (a r : pystr) :
  state_db w = Some sdb ->
  token account = Some (JDict d) ->
  assoc_get d (lit "access_token") = Some (JStr a) -> a <> [] ->
  assoc_get d (lit "refresh_token") = Some (JStr r) -> r <> [] ->
  Forall is_scalar a -> Forall is_scalar r ->
  assoc_get d (lit "expiry_timestamp") = None
  \/ assoc_get d (lit "expiry_timestamp") = Some JNull ->
  exists w' : World,
    inject_token account w = (Raise TypeError, w') /\
    state_db w' = state_db w /\
    trace w' = trace w ++ backup_events w.
Proof.
  intros Hdb Htok Ha Hane Hr Hrne _ _ He.
  destruct (backup_state_db_spec sdb w)
    as (w1 & Hbackup & Hdb1 & _ & _ & _ & Htrace1).
  exists w1. split.
  - unfold inject_token, bindM, gets. rewrite Hdb, Hbackup.
    unfold write_token, bindM, lift, dict_get. rewrite Htok, Ha, Hr.
    destruct a as [| ca a]; [contradiction |].
    destruct r as [| cr r]; [contradiction |].
    cbn [truthy negb orb].
    unfold call_create_unified_oauth_token. cbn [as_str bind].
    destruct He as [-> | ->]; reflexivity.
  - split; [exact Hdb1 |].
    unfold backup_events. rewrite Hdb. exact Htrace1.
Qed.

End InjectExtras.

Section InjectRuns.
Import Core Props MoreProps Reference Scenario MoreScenario.

Lemma ascii_scalar (s : pystr) :
  forallb (fun c => (0 <=? c) && (c <? 128)) s = true ->
  Forall is_scalar s.
Proof.
  intros H. rewrite forallb_forall in H. apply Forall_forall.
  intros c Hin. specialize (H c Hin). unfold is_scalar. lia.
Qed.

Lemma inject_token_writes_store_witness :
  exists (blob : pystr) (w' : World),
    ProtoUtils.create_unified_oauth_token (lit "AT1") (lit "RT1")
      1700000000000 = Ok blob /\
    inject_token target_complete world_no_executable = (Ok true, w') /\
    trace w'
    = trace world_no_executable ++ backup_events world_no_executable
      ++ [EvCommit] /\
    table_get (store_items w') key_oauth_token = Some blob /\
    table_get (store_items w') key_auth_status
    = Some (json_dumps (auth_status_record target_complete
                          (JStr (lit "AT1")))) /\
    table_get (store_items w') key_onboarding = Some (lit "true") /\
    table_get (store_items w') key_legacy = None /\
    forall k,
      k <> key_oauth_token -> k <> key_auth_status ->
      k <> key_onboarding -> k <> key_legacy ->
      table_get (store_items w') k
      = table_get (items {| items := []; writable := true |}) k.
Proof.
  apply (@inject_token_writes_store Reference.platform target_complete
           world_no_executable {| items := []; writable := true |}
           (lit "AT1") (lit "RT1") 1700000000000).
  - reflexivity.
  - reflexivity.
  - eexists. repeat split; try reflexivity; vm_compute; discriminate.
  - apply ascii_scalar. vm_compute. reflexivity.
  - apply ascii_scalar. vm_compute. reflexivity.
  - lia.
Defined.

Lemma inject_token_store_unchanged_unless_true_witness :
  state_db (snd (inject_token target_missing_refresh world_missing_refresh))
  = state_db world_missing_refresh.
Proof.
  apply (@inject_token_store_unchanged_unless_true Reference.platform
           target_missing_refresh world_missing_refresh
           (snd (inject_token target_missing_refresh world_missing_refresh))
           (Ok false)).
  - vm_compute. reflexivity.
  - discriminate.
Defined.

Lemma inject_token_missing_expiry_witness :
  exists w' : World,
    inject_token target_no_expiry world_no_executable
    = (Raise TypeError, w') /\
    state_db w' = state_db world_no_executable /\
    trace w' = trace world_no_executable
               ++ backup_events world_no_executable.
Proof.
  apply (@inject_token_missing_expiry Reference.platform target_no_expiry
           world_no_executable {| items := []; writable := true |}
           [(lit "access_token", JStr (lit "AT1"));
            (lit "refresh_token", JStr (lit "RT1"))]
           (lit "AT1") (lit "RT1")).
  - reflexivity.
  - reflexivity.
  - reflexivity.
  - vm_compute. discriminate.
  - reflexivity.
  - vm_compute. discriminate.
  - apply ascii_scalar. vm_compute. reflexivity.
  - apply ascii_scalar. vm_compute. reflexivity.
  - left. reflexivity.
Defined.

End InjectRuns.

(** * More on the host process *)

Module ProcessFacts.
Import Core Props MoreProps HostProps.

Lemma filter_all {A : Type} (f : A -> bool) (l : list A) :
  (forall x, In x l -> f x = true) -> filter f l = l.
Proof.
  induction l as [| a l IH]; intros H; [reflexivity |].
  cbn [filter]. rewrite (H a (or_introl eq_refl)).
  rewrite IH; [reflexivity |]. intros x Hx. apply H. right. exact Hx.
Qed.

Lemma remove_proc_unique (p : Proc) (pre rest : list Proc) :
  NoDup (map pid (pre ++ p :: rest)) ->
  remove_proc p (pre ++ p :: rest) = pre ++ rest.
Proof.
  intros Hnd. rewrite map_app in Hnd. cbn [map] in Hnd.
  apply NoDup_remove_2 in Hnd.
  unfold remove_proc. rewrite filter_app. cbn [filter].
  rewrite Z.eqb_refl. cbn [negb].
  rewrite !filter_all; [reflexivity | |].
  - intros q Hq. apply negb_true_iff, Z.eqb_neq. intros Heq.
    apply Hnd, in_or_app. right. rewrite <- Heq. apply in_map, Hq.
  - intros q Hq. apply negb_true_iff, Z.eqb_neq. intros Heq.
    apply Hnd, in_or_app. left. rewrite <- Heq. apply in_map, Hq.
Qed.

Lemma with_trace_with_procs (w : World) (ps qs : list Proc) (e : Event)
  (tr : list Event) :
  with_trace
    (with_procs
       (with_trace (with_procs w ps) (trace (with_procs w ps) ++ [e])) qs)
    (trace (with_trace (with_procs w ps) (trace (with_procs w ps) ++ [e]))
     ++ tr)
  = with_trace (with_procs w qs) (trace w ++ e :: tr).
Proof. destruct w; cbn. rewrite <- app_assoc. reflexivity. Qed.

Section WithPlatform.
Context {platform : Platform}.

(** The loop over a snapshot in which no pid occurs twice: the processes
    already passed over and left running are [pre]. *)
Lemma kill_loop_exact (name_hints : list pystr) (seen : list Proc) :
  forall (pre : list Proc) (killed : bool) (w : World),
  NoDup (map pid (pre ++ seen)) ->
  procs w = pre ++ seen ->
  kill_loop name_hints seen killed w =
  (Ok (killed
       || existsb (fun p => name_matches name_hints p && kill_ok p) seen),
   with_trace (with_procs w (pre ++ survivors name_hints seen))
     (trace w ++ map (fun p => EvKill (pid p)) (victims name_hints seen))).
Proof.
  induction seen as [| p rest IH]; intros pre killed w Hnd Hprocs.
  - cbn. unfold ret. rewrite orb_false_r, !app_nil_r.
    rewrite app_nil_r in Hprocs. rewrite <- Hprocs.
    rewrite SwitchFacts.with_trace_procs_id. reflexivity.
  - cbn [kill_loop existsb]. unfold victims, survivors. cbn [filter].
    fold (victims name_hints rest). fold (survivors name_hints rest).
    destruct (name_matches name_hints p && kill_ok p) eqn:Hv.
    + unfold bindM, modify, emit, modify. cbn [negb map].
      rewrite Hprocs, (remove_proc_unique p pre rest Hnd).
      rewrite (IH pre true); cycle 1.
      * rewrite map_app in Hnd. cbn [map] in Hnd.
        apply NoDup_remove_1 in Hnd. rewrite map_app. exact Hnd.
      * reflexivity.
      * rewrite orb_true_r. cbn [orb].
        rewrite with_trace_with_procs. reflexivity.
    + cbn [negb orb].
      rewrite (IH (pre ++ [p]) killed w).
      * rewrite <- app_assoc. reflexivity.
      * rewrite <- app_assoc. exact Hnd.
      * rewrite <- app_assoc. exact Hprocs.
Qed.

Lemma running_exe_found (exists_ : pystr -> bool) (seen : list Proc)
  (exe : pystr) :
  running_exe exists_ seen = Some exe ->
  exists p n,
    In p seen /\ pname p = Some n /\ n <> [] /\
    contains (str_lower n) (lit "antigravity") = true /\
    contains (str_lower n) (lit "manager") = false /\
    pexe p = Some exe /\ exe <> [] /\ exists_ exe = true.
Proof.
  induction seen as [| p rest IH]; cbn [running_exe]; [discriminate |].
  intros H.
  assert (Hrest : running_exe exists_ rest = Some exe ->
                  exists p0 n,
                    In p0 (p :: rest) /\ pname p0 = Some n /\ n <> [] /\
                    contains (str_lower n) (lit "antigravity") = true /\
                    contains (str_lower n) (lit "manager") = false /\
                    pexe p0 = Some exe /\ exe <> [] /\ exists_ exe = true).
  { intros Hr. destruct (IH Hr) as (p0 & n & Hin & Hrest).
    exists p0, n. split; [right; exact Hin | exact Hrest]. }
  destruct (pname p) as [[| c n] |] eqn:Hn; auto.
  destruct (pexe p) as [[| e x] |] eqn:He; auto.
  destruct (contains (str_lower (c :: n)) (lit "antigravity")) eqn:Ha;
    cbn [andb] in H; auto.
  destruct (contains (str_lower (c :: n)) (lit "manager")) eqn:Hm;
    cbn [andb negb] in H; auto.
  destruct (exists_ (e :: x)) eqn:Hx; auto.
  inversion H; subst exe. exists p, (c :: n).
  repeat split; auto; try discriminate. left. reflexivity.
Qed.

Lemma running_exe_none (exists_ : pystr -> bool) (seen : list Proc) :
  running_exe exists_ seen = None ->
  forall p n exe,
    In p seen -> pname p = Some n -> n <> [] ->
    contains (str_lower n) (lit "antigravity") = true ->
    contains (str_lower n) (lit "manager") = false ->
    pexe p = Some exe -> exe <> [] -> exists_ exe = false.
Proof.
  induction seen as [| q rest IH]; cbn [running_exe]; intros H p n exe Hin;
    [destruct Hin |].
  intros Hn Hne Ha Hm He Hxne.
  destruct Hin as [Heq | Hin]; [subst q |].
  - rewrite Hn, He in H. destruct n as [| c n]; [contradiction |].
    destruct exe as [| e x]; [contradiction |].
    rewrite Ha, Hm in H. cbn [andb negb] in H.
    destruct (exists_ (e :: x)); [discriminate | reflexivity].
  - apply (IH) with (p := p) (n := n); auto.
    destruct (pname q) as [[| c m] |]; auto.
    destruct (pexe q) as [[| e x] |]; auto.
    destruct (contains (str_lower (c :: m)) (lit "antigravity")
              && negb (contains (str_lower (c :: m)) (lit "manager"))
              && exists_ (e :: x)); [discriminate | exact H].
Qed.

Lemma installed_exe_found (exists_ : pystr -> bool)
  (candidates : list pystr) (exe : pystr) :
  installed_exe exists_ candidates = Some exe ->
  In exe candidates /\ exe <> [] /\ exists_ exe = true.
Proof.
  induction candidates as [| c rest IH]; cbn [installed_exe];
    [discriminate |].
  intros H.
  destruct c as [| a c].
  - destruct (IH H) as (Hin & Hrest). split; [right; exact Hin | exact Hrest].
  - destruct (exists_ (a :: c)) eqn:Hx.
    + inversion H; subst exe. repeat split; auto; try discriminate.
      left. reflexivity.
    + destruct (IH H) as (Hin & Hrest).
      split; [right; exact Hin | exact Hrest].
Qed.

Lemma installed_exe_none (exists_ : pystr -> bool)
  (candidates : list pystr) :
  installed_exe exists_ candidates = None ->
  forall c, In c candidates -> c <> [] -> exists_ c = false.
Proof.
  induction candidates as [| d rest IH]; cbn [installed_exe];
    intros H c Hin Hne; [destruct Hin |].
  destruct Hin as [Heq | Hin]; [subst d |].
  - destruct c as [| a c]; [contradiction |].
    destruct (exists_ (a :: c)); [discriminate | reflexivity].
  - apply IH; auto.
    destruct d as [| a d]; [exact H |].
    destruct (exists_ (a :: d)); [discriminate | exact H].
Qed.

End WithPlatform.
End ProcessFacts.

Section ProcessExtras.
Import Core Props MoreProps HostProps.
Context {platform : Platform}.

(** X18.  When no account of the table matches the pattern,
    [switch_account] returns [False] and does nothing at all: no process
    is killed, there is no pause, no backup and no write. *)
Theorem switch_account_no_match (email_pattern : pystr) (w : World)
  (accounts : list Account) :
  fst (get_accounts w) = Ok accounts ->
  Forall (fun acc => email_matches email_pattern acc = false) accounts ->
  switch_account email_pattern w = (Ok false, w).
Proof.
  intros Hacc Hnone.
  unfold switch_account, bindM.
  rewrite SwitchFacts.get_accounts_reads, Hacc.
  replace (find (email_matches email_pattern) accounts) with
    (@None Account); [reflexivity |].
  symmetry. clear Hacc.
  induction Hnone as [| acc rest Hacc' _ IH]; [reflexivity |].
  cbn [find]. rewrite Hacc'. exact IH.
Qed.

(** X19.  On a process table in which no pid occurs twice,
    [kill_process] never raises, terminates exactly the processes whose
    name contains a hint (whatever the case) and whose [kill()] goes
    through, in the order they are listed, and leaves every other
    process running; it returns [True] exactly when it terminated at
    least one.  A matching process whose [kill()] raises stays and does
    not count. *)
Theorem kill_process_kills_exactly_the_victims (name_hints : list pystr)
  (w : World) :
  NoDup (map pid (procs w)) ->
  kill_process name_hints w =
  (Ok (existsb (fun p => name_matches name_hints p && kill_ok p) (procs w)),
   with_trace (with_procs w (survivors name_hints (procs w)))
     (trace w
      ++ map (fun p => EvKill (pid p)) (victims name_hints (procs w)))).
Proof.
  intros Hnd. unfold kill_process, bindM, gets.
  rewrite (ProcessFacts.kill_loop_exact name_hints (procs w) [] false w);
    [reflexivity | exact Hnd | reflexivity].
Qed.

(** X20.  What [find_antigravity_executable] returns exists: it is the
    executable of a running process named like the host and not like the
    manager, or one of the install locations, and it is never the empty
    path.  It returns [None] only when no such process and no existing
    install location is there. *)
Theorem find_antigravity_executable_sound_and_complete (w : World) :
  match find_antigravity_executable w with
  | Some exe =>
      exe <> [] /\ path_exists w exe = true /\
      ((exists p, In p (procs w) /\ running_host w p exe)
       \/ In exe (exe_candidates w))
  | None =>
      (forall p exe, In p (procs w) -> ~ running_host w p exe) /\
      (forall c, In c (exe_candidates w) -> c <> [] ->
                 path_exists w c = false)
  end.
Proof.
  unfold find_antigravity_executable.
  destruct (running_exe (path_exists w) (procs w)) as [exe |] eqn:Hrun.
  - destruct (ProcessFacts.running_exe_found _ _ _ Hrun)
      as (p & n & Hin & Hn & Hne & Ha & Hm & He & Hxne & Hx).
    repeat split; auto. left. exists p. split; [exact Hin |].
    exists n. repeat split; auto.
  - destruct (installed_exe (path_exists w) (exe_candidates w))
      as [exe |] eqn:Hinst.
    + destruct (ProcessFacts.installed_exe_found _ _ _ Hinst)
        as (Hin & Hne & Hx).
      repeat split; auto.
    + split.
      * intros p exe Hin (n & Hn & Hne & Ha & Hm & He & Hxne & Hx).
        rewrite (ProcessFacts.running_exe_none _ _ Hrun p n exe) in Hx;
          auto. discriminate.
      * apply ProcessFacts.installed_exe_none. exact Hinst.
Qed.

(** X21.  [start_process] never raises and launches at most one program,
    which exists at the time of the call; when it returns [False]
    nothing was launched.  The path fixed when the module was loaded is
    not re-examined: if it is set and no longer exists, nothing is
    launched even when a fresh search would find the executable. *)
Theorem start_process_launches_only_what_exists (w : World) :
  (exists b w',
     start_process w = (Ok b, w') /\
     (b = false -> w' = w) /\
     (b = true ->
      exists exe,
        exe <> [] /\ path_exists w exe = true /\ popen_ok w exe = true /\
        w' = with_trace w (trace w ++ [EvLaunch exe]))) /\
  (forall p,
     exe_path_global w = Some p -> p <> [] -> path_exists w p = false ->
     start_process w = (Ok false, w)).
Proof.
  split.
  - unfold start_process.
    destruct (match exe_path_global w with
              | Some (c :: path) => Some (c :: path)
              | _ => find_antigravity_executable w
              end) as [[| c path] |].
    + exists false, w. repeat split; auto; discriminate.
    + destruct (path_exists w (c :: path)) eqn:Hx.
      * destruct (popen_ok w (c :: path)) eqn:Hp.
        -- eexists true, _. split; [reflexivity |].
           split; [discriminate |]. intros _. exists (c :: path).
           repeat split; auto. discriminate.
        -- exists false, w. repeat split; auto; discriminate.
      * exists false, w. repeat split; auto; discriminate.
    + exists false, w. repeat split; auto; discriminate.
  - intros p Hg Hne Hx. unfold start_process. rewrite Hg.
    destruct p as [| c path]; [contradiction |].
    rewrite Hx. reflexivity.
Qed.

End ProcessExtras.

(** * More on the token lifecycle *)

Module ValidateFacts.
Import Core Props MoreProps HostProps LifecycleProps.

Lemma run_eq {A : Type} (p : result A * World) (a : result A) :
  fst p = a -> p = (a, snd p).
Proof. destruct p. cbn. intros ->. reflexivity. Qed.

Lemma vault_only_refl (w : World) : vault_only w w.
Proof. destruct w; reflexivity. Qed.

Lemma vault_only_trans (w1 w2 w3 : World) :
  vault_only w1 w2 -> vault_only w2 w3 -> vault_only w1 w3.
Proof.
  unfold vault_only. intros H12 H23. rewrite H23 at 1. rewrite H12 at 1.
  destruct w1; reflexivity.
Qed.

Lemma vault_only_outside (w w' : World) :
  vault_only w w' ->
  state_db w' = state_db w /\ state_db_backup w' = state_db_backup w /\
  procs w' = procs w /\ trace w' = trace w.
Proof.
  unfold vault_only. intros H. rewrite H. destruct w; cbn. auto.
Qed.

Section WithPlatform.
Context {platform : Platform}.

Lemma encrypt_db_value_frame (text : pystr) (key : bytes) (w w' : World)
  (r : result pystr) :
  encrypt_db_value text key w = (r, w') ->
  data_dirs w' = data_dirs w /\ vault_only w w'.
Proof.
  unfold encrypt_db_value, bindM, token_bytes, lift, ret.
  destruct (AESGCM key); [| intros H; inversion H; split;
                              [reflexivity | destruct w; reflexivity]].
  destruct (ProtoUtils.utf8_encode text); [| intros H; inversion H; split;
                              [reflexivity | destruct w; reflexivity]].
  destruct (AESGCM_encrypt _ _ _); intros H; inversion H; split;
    try reflexivity; destruct w; reflexivity.
Qed.

Lemma store_token_frame (db_path : option nat) (enc email_ : pystr)
  (w w' : World) (r : result unit) :
  store_token db_path enc email_ w = (r, w') ->
  vault_only w w' /\ (forall e, r = Raise e -> data_dirs w' = data_dirs w).
Proof.
  unfold store_token.
  destruct db_path as [path |];
    [| intros H; inversion H; split; [apply vault_only_refl | reflexivity]].
  destruct (nth_error (get_data_dirs w) path) as [d |];
    [| intros H; inversion H; split; [apply vault_only_refl | reflexivity]].
  destruct (accounts_db d) as [[| rows] |];
    intros H; inversion H;
    try (split; [apply vault_only_refl | reflexivity]).
  split; [destruct w; reflexivity | discriminate].
Qed.

(** The [try] block: whatever happens in it, only the vault side of the
    world can change; a status it returns is consistent, and the data
    directories change only when it reports a refresh. *)
Lemma refresh_and_store_outcome (email_ : pystr) (token_data : json)
  (w w' : World) (r : result Status) :
  refresh_and_store email_ token_data w = (r, w') ->
  vault_only w w' /\
  match r with
  | Ok s =>
      consistent_status email_ s /\
      (refreshed s = false -> data_dirs w' = data_dirs w)
  | Raise _ => data_dirs w' = data_dirs w
  end.
Proof.
  assert (Hbad : forall e, consistent_status email_
                             (status email_ false false (Some e))).
  { intros e. unfold consistent_status, status. cbn.
    repeat split; intros; discriminate. }
  unfold refresh_and_store, bindM, lift.
  destruct (dict_get token_data (lit "refresh_token") JNull)
    as [refresh_token | e];
    [| intros H; inversion H; split; [apply vault_only_refl | reflexivity]].
  destruct (negb (truthy refresh_token)).
  { unfold ret. intros H; inversion H.
    split; [apply vault_only_refl | split; [apply Hbad | reflexivity]]. }
  unfold refresh_access_token.
  destruct (refresh_exchange w refresh_token) as [new_tokens | e];
    [| intros H; inversion H; split; [apply vault_only_refl | reflexivity]].
  unfold gets.
  destruct (get_master_key w) as [[| b key] |];
    try (unfold ret; intros H; inversion H;
         split; [apply vault_only_refl | split; [apply Hbad | reflexivity]]).
  destruct (dict_index new_tokens (lit "access_token")) as [access | e];
    [| intros H; inversion H; split; [apply vault_only_refl | reflexivity]].
  destruct (dict_set token_data (lit "access_token") access)
    as [updated1 | e];
    [| intros H; inversion H; split; [apply vault_only_refl | reflexivity]].
  unfold now_ms.
  destruct (dict_get new_tokens (lit "expires_in") (JInt 3600))
    as [expires_in | e];
    [| intros H; inversion H; split;
       [destruct w; reflexivity | reflexivity]].
  destruct (as_int expires_in) as [seconds | e];
    [| intros H; inversion H; split;
       [destruct w; reflexivity | reflexivity]].
  destruct (dict_set updated1 (lit "expiry_timestamp") _)
    as [updated_token | e];
    [| intros H; inversion H; split;
       [destruct w; reflexivity | reflexivity]].
  destruct (encrypt_db_value (json_dumps updated_token) (b :: key)
              (with_ticks w (S (ticks w)))) as [[envelope | e] w2] eqn:Henc;
    destruct (encrypt_db_value_frame _ _ _ _ _ Henc) as [Hdirs2 Hv2].
  2:{ intros H; inversion H; subst. split; [| exact Hdirs2].
      apply vault_only_trans with (2 := Hv2). destruct w; reflexivity. }
  destruct (store_token (find_db_path w) envelope email_ w2)
    as [[[] | e] w3] eqn:Hst;
    destruct (store_token_frame _ _ _ _ _ _ Hst) as [Hv3 Hdirs3].
  - unfold ret. intros H; inversion H; subst. split.
    + apply vault_only_trans with (2 := Hv3).
      apply vault_only_trans with (2 := Hv2). destruct w; reflexivity.
    + split; [| discriminate].
      unfold consistent_status, status. cbn. repeat split; auto.
  - intros H; inversion H; subst. split.
    + apply vault_only_trans with (2 := Hv3).
      apply vault_only_trans with (2 := Hv2). destruct w; reflexivity.
    + rewrite (Hdirs3 e eq_refl). exact Hdirs2.
Qed.

Lemma is_token_expired_vault (j : json) (w w1 : World) (r : result bool) :
  is_token_expired j w = (r, w1) ->
  vault_only w w1 /\ data_dirs w1 = data_dirs w.
Proof.
  intros H. destruct (LifecycleFacts.is_token_expired_frame _ _ _ _ H)
    as [-> | ->]; split; try reflexivity; destruct w; reflexivity.
Qed.

(** When the expiry check raises. *)
Lemma is_token_expired_raises (j : json) (w : World) :
  truthy j = true ->
  (exists e w1, is_token_expired j w = (Raise e, w1)) <->
  match j with
  | JDict d =>
      exists v e,
        assoc_get d (lit "expiry_timestamp") = Some v /\
        truthy v = true /\ as_int v = Raise e
  | _ => True
  end.
Proof.
  intros Hj. unfold is_token_expired. rewrite Hj. cbn [negb].
  unfold bindM, lift, dict_get.
  destruct j as [| b | z | s | l | d];
    try (split; [auto | intros _; eexists _, _; reflexivity]).
  destruct (assoc_get d (lit "expiry_timestamp")) as [v |].
  - destruct (truthy v) eqn:Hv; cbn [negb].
    + unfold now_ms. destruct (as_int v) as [z | e] eqn:Hint.
      * unfold ret. split.
        -- intros (e & w1 & H). discriminate.
        -- intros (v' & e & Hv' & _ & He). inversion Hv'; subst v'.
           congruence.
      * split.
        -- intros _. exists v, e. auto.
        -- intros _. eexists _, _. reflexivity.
    + unfold ret. split.
      * intros (e & w1 & H). discriminate.
      * intros (v' & e & Hv' & Ht & _). inversion Hv'; subst v'.
        congruence.
  - cbn. unfold ret. split.
    + intros (e & w1 & H). discriminate.
    + intros (v' & e & Hv' & _). discriminate.
Qed.

(** The whole of [validate_and_refresh_account]. *)
Lemma validate_outcome (account : Account) (w w' : World)
  (r : result Status) :
  validate_and_refresh_account account w = (r, w') ->
  vault_only w w' /\
  match r with
  | Ok s =>
      consistent_status (email (row account)) s /\
      (refreshed s = false -> data_dirs w' = data_dirs w)
  | Raise _ => data_dirs w' = data_dirs w
  end.
Proof.
  assert (Hbad : forall e, consistent_status (email (row account))
                   (status (email (row account)) false false (Some e))).
  { intros e. unfold consistent_status, status. cbn.
    repeat split; intros; discriminate. }
  unfold validate_and_refresh_account.
  destruct (token account) as [token_data |];
    [| unfold ret; intros H; inversion H; split;
       [apply vault_only_refl | split; [apply Hbad | reflexivity]]].
  destruct (negb (truthy token_data));
    [unfold ret; intros H; inversion H; split;
     [apply vault_only_refl | split; [apply Hbad | reflexivity]] |].
  unfold bindM.
  destruct (is_token_expired token_data w) as [[expired | e] w1] eqn:Hexp;
    destruct (is_token_expired_vault _ _ _ _ Hexp) as [Hv1 Hd1];
    [| intros H; inversion H; subst; split; assumption].
  destruct expired; cbn [negb].
  - unfold catch.
    destruct (refresh_and_store (email (row account)) token_data w1)
      as [[s1 | e] w2] eqn:Hrs;
      destruct (refresh_and_store_outcome _ _ _ _ _ Hrs) as [Hv2 Hout].
    + intros H; inversion H; subst.
      split; [apply vault_only_trans with (1 := Hv1); exact Hv2 |].
      destruct Hout as [Hs Hd2]. split; [exact Hs |].
      intros Hnot. rewrite (Hd2 Hnot). exact Hd1.
    + unfold ret. intros H; inversion H; subst.
      split; [apply vault_only_trans with (1 := Hv1); exact Hv2 |].
      split; [apply Hbad |]. intros _. rewrite Hout. exact Hd1.
  - unfold ret. intros H; inversion H; subst.
    split; [exact Hv1 |]. split; [| intros _; exact Hd1].
    unfold consistent_status, status. cbn. repeat split; auto.
Qed.

End WithPlatform.
End ValidateFacts.

Section ValidateExtras.
Import Core Props MoreProps HostProps LifecycleProps.
Context {platform : Platform}.

(** X22.  Every status [validate_and_refresh_account] returns is
    consistent: it carries the account's email, it is valid exactly when
    it has no error, and it says refreshed only when valid. *)
Theorem validate_and_refresh_account_status_consistent (account : Account)
  (w w' : World) (s : Status) :
  validate_and_refresh_account account w = (Ok s, w') ->
  consistent_status (email (row account)) s.
Proof.
  intros Hrun.
  destruct (ValidateFacts.validate_outcome _ _ _ _ Hrun) as (_ & Hs & _).
  exact Hs.
Qed.

(** X23.  [validate_and_refresh_account] never touches the host's
    store or the running processes and launches nothing, and it writes
    to the account database only when it reports a refresh: whenever it
    raises or returns a status that does not say refreshed, the data
    directories are as before. *)
Theorem validate_and_refresh_account_writes_only_when_refreshed
  (account : Account) (w w' : World) (r : result Status) :
  validate_and_refresh_account account w = (r, w') ->
  state_db w' = state_db w /\ procs w' = procs w /\ trace w' = trace w /\
  ((forall s, r = Ok s -> refreshed s = false) ->
   data_dirs w' = data_dirs w).
Proof.
  intros Hrun.
  destruct (ValidateFacts.validate_outcome _ _ _ _ Hrun) as (Hv & Hout).
  destruct (ValidateFacts.vault_only_outside _ _ Hv) as (H1 & _ & H2 & H3).
  repeat split; auto.
  intros Hnot. destruct r as [s | e]; [| exact Hout].
  destruct Hout as [_ Hd]. apply Hd, Hnot. reflexivity.
Qed.

(** X24.  [validate_and_refresh_account] raises exactly when the expiry
    check does: the token data is truthy and is no dict, or its
    ['expiry_timestamp'] is truthy and no number.  Everything after the
    check is inside the [try] block and ends in a status. *)
Theorem validate_and_refresh_account_raises_exactly_when
  (account : Account) (w : World) :
  (exists e w', validate_and_refresh_account account w = (Raise e, w'))
  <-> unreadable_expiry account.
Proof.
  unfold validate_and_refresh_account, unreadable_expiry.
  destruct (token account) as [token_data |].
  - destruct (truthy token_data) eqn:Ht; cbn [negb].
    + pose proof (ValidateFacts.is_token_expired_raises token_data w Ht)
        as Hexp.
      unfold bindM. split.
      * intros (e & w' & H). exists token_data.
        split; [reflexivity |]. split; [exact Ht |]. apply Hexp.
        destruct (is_token_expired token_data w) as [[expired | e1] w1].
        -- exfalso. destruct expired; cbn [negb] in H.
           ++ unfold catch, ret in H.
              destruct (refresh_and_store _ _ _) as [[s1 | e2] w2];
                discriminate.
           ++ discriminate.
        -- eexists _, _. reflexivity.
      * intros (j & Hj & _ & Hm). inversion Hj; subst j.
        apply Hexp in Hm. destruct Hm as (e & w1 & Hx).
        rewrite Hx. eexists _, _. reflexivity.
    + unfold ret. split.
      * intros (e & w' & H). discriminate.
      * intros (j & Hj & Htj & _). inversion Hj; subst j. congruence.
  - unfold ret. split.
    + intros (e & w' & H). discriminate.
    + intros (j & Hj & _). discriminate.
Qed.

End ValidateExtras.

Section HostRuns.
Import Core Props MoreProps HostProps LifecycleProps Reference Scenario
  MoreScenario HostScenario.

Lemma switch_account_no_match_witness :
  switch_account (lit "bob") world_no_executable
  = (Ok false, world_no_executable).
Proof.
  apply (@switch_account_no_match Reference.platform (lit "bob")
           world_no_executable [target_complete]).
  - vm_compute. reflexivity.
  - apply Forall_cons; [vm_compute; reflexivity | apply Forall_nil].
Defined.

Lemma kill_process_kills_exactly_the_victims_witness :
  kill_process switch_hints world_three_procs
  = (Ok true,
     with_trace (with_procs world_three_procs [editor_proc; protected_proc])
       [EvKill 4242]).
Proof.
  apply (@kill_process_kills_exactly_the_victims Reference.platform
           switch_hints world_three_procs).
  repeat (apply NoDup_cons; [cbn; intuition discriminate |]).
  apply NoDup_nil.
Defined.

Lemma start_process_launches_only_what_exists_witness :
  find_antigravity_executable world_stale_path
  = Some (lit "D:\Antigravity\Antigravity.exe") /\
  start_process world_stale_path = (Ok false, world_stale_path).
Proof.
  split; [vm_compute; reflexivity |].
  apply (proj2 (@start_process_launches_only_what_exists
                  Reference.platform world_stale_path)
           (lit "C:\Old\Antigravity.exe")).
  - reflexivity.
  - vm_compute. discriminate.
  - vm_compute. reflexivity.
Defined.

Lemma validate_and_refresh_account_status_consistent_witness :
  consistent_status (lit "ann@example.com")
    (status (lit "ann@example.com") true true None).
Proof.
  apply (@validate_and_refresh_account_status_consistent
           Reference.platform target_complete world_expired_token
           (snd (validate_and_refresh_account target_complete
                   world_expired_token))
           (status (lit "ann@example.com") true true None)).
  apply ValidateFacts.run_eq. vm_compute. reflexivity.
Defined.

Lemma validate_and_refresh_account_writes_only_when_refreshed_witness :
  let r := Ok (status (lit "ann@example.com") false false
                 (Some NoRefreshToken)) in
  let w' := snd (validate_and_refresh_account target_missing_refresh
                   world_expired_token) in
  state_db w' = state_db world_expired_token /\
  procs w' = procs world_expired_token /\
  trace w' = trace world_expired_token /\
  ((forall s, r = Ok s -> refreshed s = false) ->
   data_dirs w' = data_dirs world_expired_token).
Proof.
  apply (@validate_and_refresh_account_writes_only_when_refreshed
           Reference.platform target_missing_refresh world_expired_token).
  apply ValidateFacts.run_eq. vm_compute. reflexivity.
Defined.

End HostRuns.

(** * Maintenance of the account table *)

Module MaintenanceFacts.
Import Core Props MoreProps HostProps LifecycleProps Maintenance
  MaintenanceProps.

Lemma find_map {A B : Type} (f : B -> bool) (g : A -> B) (l : list A) :
  find f (map g l) = option_map g (find (fun a => f (g a)) l).
Proof.
  induction l as [| a l IH]; [reflexivity |].
  cbn [map find]. destruct (f (g a)); [reflexivity | exact IH].
Qed.

Lemma Forall2_map_l {A B C : Type} (P : B -> C -> Prop) (g : A -> B)
  (l : list A) (l' : list C) :
  Forall2 (fun a c => P (g a) c) l l' -> Forall2 P (map g l) l'.
Proof.
  induction 1; cbn [map]; constructor; assumption.
Qed.

(** Replacing the directory of the database by one that still has a
    database leaves the path where it was. *)
Lemma find_db_path_from_replace (dirs : list DataDir) (d' : DataDir) :
  accounts_db d' <> None ->
  forall (i p : nat),
    find_db_path_from i dirs = Some p ->
    (i <= p)%nat /\
    find_db_path_from i (replace_nth (p - i) d' dirs) = Some p.
Proof.
  intros Hd'. induction dirs as [| d rest IH]; intros i p H;
    [discriminate |].
  cbn [find_db_path_from] in H.
  destruct (accounts_db d) eqn:Hd.
  - inversion H; subst p. split; [lia |].
    rewrite Nat.sub_diag. cbn [replace_nth find_db_path_from].
    destruct (accounts_db d'); [reflexivity | contradiction].
  - destruct (IH (S i) p H) as [Hle Hfind]. split; [lia |].
    replace (p - i)%nat with (S (p - S i)) by lia.
    cbn [replace_nth find_db_path_from]. rewrite Hd. exact Hfind.
Qed.

Section WithPlatform.
Context {platform : Platform}.

Lemma get_accounts_rows (w : World) (accounts : list Account) :
  fst (get_accounts w) = Ok accounts -> map row accounts = table_rows w.
Proof.
  unfold get_accounts, table_rows.
  destruct (find_db_path w) as [db_path |];
    [| intros H; inversion H; reflexivity].
  destruct (db_at w db_path) as [[| rows] |];
    try (intros H; inversion H; reflexivity).
  cbn [fst]. apply StoreMoreFacts.load_accounts_rows.
Qed.

Lemma validate_loop_outcome (accounts : list Account) :
  forall (w w' : World) (results : list Status),
    validate_loop accounts w = (Ok results, w') ->
    Forall2 (fun acc s => consistent_status (email (row acc)) s)
      accounts results /\
    vault_only w w'.
Proof.
  induction accounts as [| acc rest IH]; intros w w' results.
  - cbn. unfold ret. intros H. inversion H.
    split; [constructor | apply ValidateFacts.vault_only_refl].
  - cbn [validate_loop]. unfold bindM.
    destruct (validate_and_refresh_account acc w) as [[s | e] w1] eqn:Hrun;
      [| discriminate].
    destruct (ValidateFacts.validate_outcome _ _ _ _ Hrun) as (Hv1 & Hs & _).
    destruct (validate_loop rest w1) as [[ss | e] w2] eqn:Hrest;
      [| discriminate].
    destruct (IH _ _ _ Hrest) as [Hall Hv2].
    unfold ret. intros H. inversion H; subst.
    split; [constructor; assumption |].
    apply ValidateFacts.vault_only_trans with (1 := Hv1). exact Hv2.
Qed.

Lemma selected_skip (min_quota : Z) (prefer_model : option pystr)
  (pre : list Account) (best : option Account) (best_score : Z)
  (acc : Account) :
  selected min_quota prefer_model pre best best_score ->
  (forall s, scored prefer_model acc s ->
             (min_quota <=? s) && (best_score <? s) = false) ->
  selected min_quota prefer_model (pre ++ [acc]) best best_score.
Proof.
  unfold selected. intros Hinv Hacc.
  destruct best as [b |].
  - destruct Hinv as (p1 & p2 & -> & Hb & Hmin & Hpos & H1 & H2).
    exists p1, (p2 ++ [acc]). rewrite <- app_assoc. cbn [app].
    repeat split; auto.
    intros a s Hin Hs. apply in_app_or in Hin.
    destruct Hin as [Hin | [<- | []]]; [eapply H2; eassumption |].
    specialize (Hacc s Hs). apply andb_false_iff in Hacc. lia.
  - destruct Hinv as [-> Hpre]. split; [reflexivity |].
    intros a s Hin Hs. apply in_app_or in Hin.
    destruct Hin as [Hin | [<- | []]]; [eapply Hpre; eassumption |].
    specialize (Hacc s Hs). apply andb_false_iff in Hacc. lia.
Qed.

Lemma selected_take (min_quota : Z) (prefer_model : option pystr)
  (pre : list Account) (best : option Account) (best_score : Z)
  (acc : Account) (s : Z) :
  selected min_quota prefer_model pre best best_score ->
  scored prefer_model acc s ->
  (min_quota <=? s) && (best_score <? s) = true ->
  selected min_quota prefer_model (pre ++ [acc]) (Some acc) s.
Proof.
  unfold selected. intros Hinv Hs Hsel.
  apply andb_true_iff in Hsel. destruct Hsel as [Hmin Hgt].
  apply Z.leb_le in Hmin. apply Z.ltb_lt in Hgt.
  exists pre, []. split; [reflexivity |]. split; [exact Hs |].
  destruct best as [b |].
  - destruct Hinv as (p1 & p2 & -> & Hb & Hbmin & Hpos & H1 & H2).
    repeat split; try lia; [| intros a s' []].
    intros a s' Hin Hs'. apply in_app_or in Hin.
    destruct Hin as [Hin | [<- | Hin]].
    + specialize (H1 a s' Hin Hs'). lia.
    + unfold scored in Hb, Hs'. rewrite Hb in Hs'. inversion Hs'. lia.
    + specialize (H2 a s' Hin Hs'). lia.
  - destruct Hinv as [-> Hpre].
    repeat split; try lia; [| intros a s' []].
    intros a s' Hin Hs'. specialize (Hpre a s' Hin Hs'). lia.
Qed.

Lemma select_loop_selected (min_quota : Z) (prefer_model : option pystr)
  (rest : list Account) :
  forall (pre : list Account) (best res : option Account)
         (best_score : Z),
    selected min_quota prefer_model pre best best_score ->
    select_loop min_quota prefer_model rest best best_score = Ok res ->
    exists s, selected min_quota prefer_model (pre ++ rest) res s.
Proof.
  induction rest as [| acc rest IH]; intros pre best res best_score Hinv H.
  - cbn in H. inversion H; subst res. rewrite app_nil_r.
    exists best_score. exact Hinv.
  - cbn [select_loop] in H.
    destruct (account_score prefer_model acc) as [[s |] | e] eqn:Hsc;
      cbn [bind] in H; [| | discriminate].
    + destruct ((min_quota <=? s) && (best_score <? s)) eqn:Hsel.
      * replace (pre ++ acc :: rest) with ((pre ++ [acc]) ++ rest)
          by (rewrite <- app_assoc; reflexivity).
        apply (IH _ _ _ _ (selected_take _ _ _ _ _ _ _ Hinv Hsc Hsel) H).
      * replace (pre ++ acc :: rest) with ((pre ++ [acc]) ++ rest)
          by (rewrite <- app_assoc; reflexivity).
        apply (IH (pre ++ [acc]) best res best_score); [| exact H].
        apply selected_skip; [exact Hinv |].
        intros s' Hs'. unfold scored in Hs'. rewrite Hsc in Hs'.
        inversion Hs'; subst s'. exact Hsel.
    + replace (pre ++ acc :: rest) with ((pre ++ [acc]) ++ rest)
        by (rewrite <- app_assoc; reflexivity).
      apply (IH (pre ++ [acc]) best res best_score); [| exact H].
      apply selected_skip; [exact Hinv |].
      intros s' Hs'. unfold scored in Hs'. rewrite Hsc in Hs'.
      discriminate.
Qed.

End WithPlatform.
End MaintenanceFacts.

Section MaintenanceExtras.
Import Core Props MoreProps HostProps LifecycleProps Maintenance
  MaintenanceProps.
Context {platform : Platform}.

(** X25.  Whenever [validate_all_accounts] returns, it returns one
    status per row of the account table, in the order of the table, each
    naming its row's email and each consistent; the host's store, the
    running processes and the trace are as before.  The accounts are
    read once, before the first check. *)
Theorem validate_all_accounts_one_status_per_row (w w' : World)
  (results : list Status) :
  validate_all_accounts w = (Ok results, w') ->
  Forall2 (fun r s => consistent_status (email r) s) (table_rows w) results
  /\ state_db w' = state_db w /\ procs w' = procs w /\ trace w' = trace w.
Proof.
  unfold validate_all_accounts, bindM.
  rewrite SwitchFacts.get_accounts_reads.
  destruct (fst (get_accounts w)) as [accounts | e] eqn:Hacc;
    [| discriminate].
  intros Hloop.
  destruct (MaintenanceFacts.validate_loop_outcome _ _ _ _ Hloop)
    as [Hall Hv].
  destruct (ValidateFacts.vault_only_outside _ _ Hv) as (H1 & _ & H2 & H3).
  repeat split; auto.
  rewrite <- (MaintenanceFacts.get_accounts_rows w accounts Hacc).
  apply MaintenanceFacts.Forall2_map_l. exact Hall.
Qed.

(** X26.  When [remove_account] returns [True], the rows deleted are
    exactly those carrying the email of the first row of the table (most
    recently used first) whose email contains the pattern, whatever the
    case; every other row stays, in order.  When it returns [False],
    nothing has changed. *)
Theorem remove_account_removes_first_match (email_pattern : pystr)
  (w w' : World) (b : bool) :
  remove_account email_pattern w = (Ok b, w') ->
  if b then
    exists r,
      find (row_matches email_pattern) (table_rows w) = Some r /\
      table_rows w' = delete_rows (table_rows w) (email r)
  else w' = w.
Proof.
  unfold remove_account, bindM, gets.
  destruct (find_db_path w) as [path |] eqn:Hpath;
    [| unfold ret; intros H; inversion H; reflexivity].
  rewrite SwitchFacts.get_accounts_reads.
  destruct (fst (get_accounts w)) as [accounts | e] eqn:Hacc;
    [| discriminate].
  pose proof (MaintenanceFacts.get_accounts_rows w accounts Hacc) as Hrows.
  destruct (find (email_matches email_pattern) accounts) as [target |]
    eqn:Hfind; [| unfold ret; intros H; inversion H; reflexivity].
  unfold catch, delete_account.
  destruct (nth_error (get_data_dirs w) path) as [d |] eqn:Hdir;
    [| unfold ret; intros H; inversion H; reflexivity].
  destruct (accounts_db d) as [[| rows] |] eqn:Hdb;
    try (unfold ret; intros H; inversion H; reflexivity).
  unfold ret. intros H. inversion H; subst b w'. clear H.
  assert (Htable : table_rows w = rows).
  { unfold table_rows, db_at. rewrite Hpath, Hdir, Hdb. reflexivity. }
  exists (row target). split.
  - rewrite <- Hrows, MaintenanceFacts.find_map.
    change (fun a => row_matches email_pattern (row a))
      with (email_matches email_pattern).
    rewrite Hfind. reflexivity.
  - rewrite Htable. unfold table_rows, find_db_path, db_at, get_data_dirs.
    cbn [data_dirs with_data_dirs].
    unfold find_db_path, get_data_dirs in Hpath.
    destruct (MaintenanceFacts.find_db_path_from_replace (data_dirs w)
                {| local_state := local_state d; mk := mk d;
                   accounts_db :=
                     Some (DbTable (delete_rows rows (email (row target))))
                |} ltac:(discriminate) 0%nat path Hpath) as [_ Hfind'].
    rewrite Nat.sub_0_r in Hfind'. rewrite Hfind'.
    unfold get_data_dirs in Hdir.
    rewrite (LifecycleFacts.nth_error_replace_nth _ _ _ _ Hdir).
    reflexivity.
Qed.

(** X27.  Whenever [auto_select_best_account] returns, it has changed
    nothing, and what it returns is the first account of the table with
    the greatest score among those that pass: its score is at least
    [min_quota] and not negative, every account before it scores
    strictly less, every account after it scores no more.  It returns
    [None] exactly when no account passes, that is when every score is
    below [min_quota] or negative. *)
Theorem auto_select_best_account_picks_the_best (min_quota : Z)
  (prefer_model : option pystr) (w w' : World) (best : option Account) :
  auto_select_best_account min_quota prefer_model w = (Ok best, w') ->
  w' = w /\
  exists accounts,
    fst (get_accounts w) = Ok accounts /\
    match best with
    | Some b =>
        exists pre post s,
          accounts = pre ++ b :: post /\
          scored prefer_model b s /\ min_quota <= s /\ 0 <= s /\
          (forall acc s', In acc pre -> scored prefer_model acc s' ->
                          s' < s) /\
          (forall acc s', In acc post -> scored prefer_model acc s' ->
                          s' <= s)
    | None =>
        forall acc s', In acc accounts -> scored prefer_model acc s' ->
                       s' < min_quota \/ s' < 0
    end.
Proof.
  unfold auto_select_best_account, bindM, lift.
  rewrite SwitchFacts.get_accounts_reads.
  destruct (fst (get_accounts w)) as [accounts | e] eqn:Hacc;
    [| discriminate].
  destruct (select_loop min_quota prefer_model accounts None (-1))
    as [res | e] eqn:Hloop; [| discriminate].
  intros H. inversion H; subst. split; [reflexivity |].
  exists accounts. split; [reflexivity |].
  destruct (MaintenanceFacts.select_loop_selected min_quota prefer_model
              accounts [] None best (-1)) as [s Hsel].
  - split; [reflexivity |]. intros acc s [].
  - exact Hloop.
  - cbn [app] in Hsel. unfold selected in Hsel.
    destruct best as [b |].
    + destruct Hsel as (p1 & p2 & Heq & Hrest). exists p1, p2, s.
      split; [exact Heq | exact Hrest].
    + destruct Hsel as [_ Hall]. exact Hall.
Qed.

End MaintenanceExtras.

Section MaintenanceRuns.
Import Core Props MoreProps HostProps Maintenance MaintenanceProps
  Reference Scenario MaintenanceScenario.

Lemma validate_all_accounts_one_status_per_row_witness :
  let w' := snd (@validate_all_accounts wide_platform world_two_accounts) in
  Forall2 (fun r s => consistent_status (email r) s)
    (table_rows world_two_accounts)
    [status (lit "ann@example.com") true true None;
     status (lit "bob@example.com") false false (Some NoRefreshToken)]
  /\ state_db w' = state_db world_two_accounts
  /\ procs w' = procs world_two_accounts
  /\ trace w' = trace world_two_accounts.
Proof.
  apply (@validate_all_accounts_one_status_per_row wide_platform
           world_two_accounts).
  apply ValidateFacts.run_eq. vm_compute. reflexivity.
Defined.

Lemma remove_account_removes_first_match_witness :
  let w' := snd (@remove_account wide_platform (lit "BOB")
                   world_two_accounts) in
  exists r,
    find (@row_matches wide_platform (lit "BOB"))
      (table_rows world_two_accounts) = Some r /\
    table_rows w' = delete_rows (table_rows world_two_accounts) (email r).
Proof.
  apply (@remove_account_removes_first_match wide_platform (lit "BOB")
           world_two_accounts
           (snd (@remove_account wide_platform (lit "BOB")
                   world_two_accounts))
           true).
  apply ValidateFacts.run_eq. vm_compute. reflexivity.
Defined.

Lemma auto_select_best_account_picks_the_best_witness :
  world_two_accounts = world_two_accounts /\
  exists accounts,
    fst (@get_accounts wide_platform world_two_accounts) = Ok accounts /\
    exists pre post s,
      accounts = pre ++ bob_account :: post /\
      @scored wide_platform None bob_account s /\ 50 <= s /\ 0 <= s /\
      (forall acc s', In acc pre -> @scored wide_platform None acc s' ->
                      s' < s) /\
      (forall acc s', In acc post -> @scored wide_platform None acc s' ->
                      s' <= s).
Proof.
  apply (@auto_select_best_account_picks_the_best wide_platform 50 None
           world_two_accounts world_two_accounts (Some bob_account)).
  vm_compute. reflexivity.
Defined.

End MaintenanceRuns.

(** * The user's PATH *)

Module WindowsPathFacts.
Import WindowsPath.




End WindowsPathFacts.

Section WindowsPathExtras.
Import WindowsPath.


End WindowsPathExtras.


(** * The host's view of the account *)

Module IdeFacts.
Import Core Props MoreProps Maintenance.

Section WithPlatform.
Context {platform : Platform}.

(** What a write step that answers [True] has left in the store. *)
Lemma write_token_true_inv (account : Account) (sdb : StateDb)
  (w w' : World) :
  write_token account sdb w = (Ok true, w') ->
  exists access blob,
    dict_get (match token account with Some t => t | None => JDict [] end)
      (lit "access_token") JNull = Ok access /\
    state_db w'
    = Some {| items :=
                injected_items (items sdb) blob
                  (json_dumps (auth_status_record account access));
              writable := writable sdb |}.
Proof.
  unfold write_token, bindM, lift, ret.
  destruct (dict_get _ (lit "access_token") JNull) as [a |];
    [| discriminate].
  destruct (dict_get _ (lit "refresh_token") JNull) as [rt |];
    [| discriminate].
  destruct (dict_get _ (lit "expiry_timestamp") JNull) as [ex |];
    [| discriminate].
  destruct (negb (truthy a) || negb (truthy rt)); [discriminate |].
  destruct (call_create_unified_oauth_token a rt ex) as [blob |];
    [| discriminate].
  destruct (writable sdb); [| discriminate].
  unfold modify, emit, modify. intros H. inversion H; subst.
  exists a, blob. split; reflexivity.
Qed.

Lemma inject_token_true_inv (account : Account) (w w' : World) :
  inject_token account w = (Ok true, w') ->
  exists sdb access blob,
    dict_get (match token account with Some t => t | None => JDict [] end)
      (lit "access_token") JNull = Ok access /\
    state_db w'
    = Some {| items :=
                injected_items (items sdb) blob
                  (json_dumps (auth_status_record account access));
              writable := writable sdb |}.
Proof.
  unfold inject_token, bindM, gets.
  destruct (state_db w) as [sdb |]; [| discriminate].
  destruct (InjectFacts.backup_state_db_spec sdb w) as (w1 & Hbackup & _).
  rewrite Hbackup. intros H.
  destruct (write_token_true_inv _ _ _ _ H) as (access & blob & Ha & Hdb).
  exists sdb, access, blob. split; assumption.
Qed.

(** Reading the auth-status record back. *)
Lemma read_auth_status_record (account : Account) (access : json) :
  json_loads (json_dumps (auth_status_record account access))
  = Ok (auth_status_record account access) ->
  read_auth_status (json_dumps (auth_status_record account access))
  = Ok [{| ide_email := JStr (email (row account));
           ide_name := name_or_email account |}].
Proof.
  intros Hloads. unfold read_auth_status. rewrite Hloads. cbn [bind].
  unfold auth_status_record, dict_get. cbn [assoc_get].
  change (str_eqb (lit "name") (lit "email")) with false.
  change (str_eqb (lit "email") (lit "email")) with true.
  change (str_eqb (lit "name") (lit "name")) with true.
  reflexivity.
Qed.

End WithPlatform.
End IdeFacts.

Section IdeExtras.
Import Core Props MoreProps Maintenance.
Context {platform : Platform}.

(** X29.  What [inject_token] writes, [get_ide_accounts] reads back:
    after an injection that answered [True], and with a JSON reader
    that reads the auth-status record back as it was printed,
    [get_ide_accounts] returns exactly one account, with the email of
    the injected account and its name (its email when it has no
    name). *)
Theorem get_ide_accounts_after_inject_token (account : Account)
  (w w' : World) (d : list (pystr * json)) (access : json) :
  inject_token account w = (Ok true, w') ->
  token account = Some (JDict d) ->
  assoc_get d (lit "access_token") = Some access ->
  json_loads (json_dumps (auth_status_record account access))
  = Ok (auth_status_record account access) ->
  get_ide_accounts w'
  = (Ok [{| ide_email := JStr (email (row account));
            ide_name := name_or_email account |}], w').
Proof.
  intros Hrun Htok Ha Hloads.
  destruct (IdeFacts.inject_token_true_inv _ _ _ Hrun)
    as (sdb & access' & blob & Ha' & Hdb).
  rewrite Htok in Ha'. unfold dict_get in Ha'. rewrite Ha in Ha'.
  inversion Ha'; subst access'.
  unfold get_ide_accounts, bindM, gets. rewrite Hdb. cbn [items].
  destruct (InjectFacts.injected_items_lookup (items sdb) blob
              (json_dumps (auth_status_record account access)))
    as (_ & Hauth & _).
  cbv zeta in Hauth. unfold key_auth_status in Hauth. rewrite Hauth.
  rewrite (IdeFacts.read_auth_status_record account access Hloads).
  reflexivity.
Qed.

End IdeExtras.

Lemma get_ide_accounts_after_inject_token_witness :
  let w' :=
    snd (@Core.inject_token MaintenanceScenario.wide_platform
           Scenario.target_complete Scenario.world_no_executable) in
  @Maintenance.get_ide_accounts MaintenanceScenario.wide_platform w'
  = (Ok [{| Maintenance.ide_email := JStr (lit "ann@example.com");
            Maintenance.ide_name := JStr (lit "Ann") |}], w').
Proof.
  apply (@get_ide_accounts_after_inject_token
           MaintenanceScenario.wide_platform Scenario.target_complete
           Scenario.world_no_executable
           (snd (@Core.inject_token MaintenanceScenario.wide_platform
                   Scenario.target_complete Scenario.world_no_executable))
           [(lit "access_token", JStr (lit "AT1"));
            (lit "refresh_token", JStr (lit "RT1"));
            (lit "expiry_timestamp", JInt 1700000000000)]
           (JStr (lit "AT1"))).
  - apply ValidateFacts.run_eq. vm_compute. reflexivity.
  - reflexivity.
  - reflexivity.
  - vm_compute. reflexivity.
Defined.

(** * Aliases *)

Module AliasFacts.
Import Aliases.

Lemma assoc_get_without_same (d : list (pystr * json)) (k : pystr) :
  assoc_get (without d k) k = None.
Proof.
  unfold without.
  induction d as [| [k' v] d IH]; cbn [filter assoc_get fst];
    [reflexivity |].
  destruct (str_eqb k' k) eqn:E; cbn [negb]; [exact IH |].
  cbn [assoc_get]. rewrite E. exact IH.
Qed.

Lemma assoc_get_without_other (d : list (pystr * json)) (k k' : pystr) :
  k' <> k -> assoc_get (without d k) k' = assoc_get d k'.
Proof.
  intros Hne. unfold without.
  induction d as [| [k0 v] d IH]; cbn [filter assoc_get fst];
    [reflexivity |].
  destruct (str_eqb k0 k) eqn:E; cbn [negb].
  - apply LifecycleFacts.str_eqb_eq in E. subst k0.
    unfold str_eqb at 2.
    destruct (list_eq_dec Z.eq_dec k k'); [congruence | exact IH].
  - cbn [assoc_get]. destruct (str_eqb k0 k'); [reflexivity | exact IH].
Qed.

Section WithPlatform.
Context {platform : Platform}.
Variable json_dump_indent : json -> pystr.

(** A write that went through, read back. *)
Lemma get_aliases_written (aliases : json) (f f' : AliasFile) :
  write_aliases json_dump_indent aliases f = (true, f') ->
  json_loads (json_dump_indent aliases) = Ok aliases ->
  get_aliases f' = aliases.
Proof.
  unfold write_aliases. destruct (write_ok f); [| discriminate].
  intros H Hloads. inversion H; subst f'.
  unfold get_aliases. cbn [alias_text with_alias_text].
  rewrite Hloads. reflexivity.
Qed.

Lemma set_alias_true_inv (alias email_ : pystr) (f f1 : AliasFile) :
  set_alias json_dump_indent alias email_ f = (Ok true, f1) ->
  get_aliases f = JDict (alias_pairs f) /\
  write_aliases json_dump_indent
    (JDict (assoc_set (alias_pairs f) alias (JStr email_))) f = (true, f1).
Proof.
  unfold set_alias, alias_pairs, Core.dict_set.
  destruct (get_aliases f) as [| b | z | s | l | d]; try discriminate.
  destruct (makedirs_ok f); [| discriminate].
  destruct (write_aliases json_dump_indent _ f) as [b f'].
  intros H. inversion H; subst. split; reflexivity.
Qed.

Lemma remove_alias_true_inv (alias : pystr) (f f2 : AliasFile)
  (d : list (pystr * json)) :
  get_aliases f = JDict d ->
  remove_alias json_dump_indent alias f = (Ok true, f2) ->
  write_aliases json_dump_indent (JDict (without d alias)) f = (true, f2).
Proof.
  unfold remove_alias. intros ->. cbn [str_in dict_del].
  destruct (assoc_get d alias); [| discriminate].
  fold (without d alias).
  destruct (write_aliases json_dump_indent _ f) as [b f'].
  intros H. inversion H; subst. reflexivity.
Qed.

End WithPlatform.
End AliasFacts.

Section AliasExtras.
Import Aliases.
Context {platform : Platform}.
Variable json_dump_indent : json -> pystr.

(** X30.  Aliases round-trip through the file.  After a [set_alias]
    that returned [True], with a JSON reader that reads the written
    dict back as it was printed, [resolve_email_or_alias] maps the
    alias to the email and every other pattern to what it was mapped to
    before.  If a [remove_alias] of the same alias then returns [True]
    (and its file is read back likewise), the alias resolves to itself
    again and every other pattern still resolves as at the start. *)
Theorem set_alias_resolve_remove_alias (alias email_ : pystr)
  (f f1 : AliasFile) :
  let written := assoc_set (alias_pairs f) alias (JStr email_) in
  set_alias json_dump_indent alias email_ f = (Ok true, f1) ->
  json_loads (json_dump_indent (JDict written)) = Ok (JDict written) ->
  resolve_email_or_alias alias f1 = Ok (JStr email_) /\
  (forall p, p <> alias ->
             resolve_email_or_alias p f1 = resolve_email_or_alias p f) /\
  (forall f2,
     remove_alias json_dump_indent alias f1 = (Ok true, f2) ->
     json_loads (json_dump_indent (JDict (without written alias)))
     = Ok (JDict (without written alias)) ->
     resolve_email_or_alias alias f2 = Ok (JStr alias) /\
     (forall p, p <> alias ->
                resolve_email_or_alias p f2 = resolve_email_or_alias p f)).
Proof.
  intros written Hset Hloads.
  destruct (AliasFacts.set_alias_true_inv _ _ _ _ _ Hset) as [Hd Hw].
  pose proof (AliasFacts.get_aliases_written _ _ _ _ Hw Hloads) as H1.
  fold written in H1.
  assert (Hother : forall p, p <> alias ->
            dict_get (JDict written) p (JStr p)
            = resolve_email_or_alias p f).
  { intros p Hp. unfold resolve_email_or_alias. rewrite Hd.
    unfold dict_get, written.
    rewrite LifecycleFacts.assoc_get_set_other by exact Hp. reflexivity. }
  split; [| split].
  - unfold resolve_email_or_alias. rewrite H1. unfold dict_get, written.
    rewrite LifecycleFacts.assoc_get_set_same. reflexivity.
  - intros p Hp. unfold resolve_email_or_alias at 1. rewrite H1.
    apply Hother, Hp.
  - intros f2 Hrem Hloads2.
    pose proof (AliasFacts.remove_alias_true_inv _ _ _ _ _ H1 Hrem) as Hw2.
    pose proof (AliasFacts.get_aliases_written _ _ _ _ Hw2 Hloads2) as H2.
    split.
    + unfold resolve_email_or_alias. rewrite H2. unfold dict_get.
      rewrite AliasFacts.assoc_get_without_same. reflexivity.
    + intros p Hp. unfold resolve_email_or_alias at 1. rewrite H2.
      unfold dict_get.
      rewrite AliasFacts.assoc_get_without_other by exact Hp.
      apply Hother, Hp.
Qed.

End AliasExtras.

Lemma set_alias_resolve_remove_alias_witness :
  let P := MaintenanceScenario.wide_platform in
  let f := AliasScenario.no_alias_file in
  let alias := lit "work" in
  let f1 := snd (@Aliases.set_alias P Reference.ref_dumps alias
                   (lit "ann@example.com") f) in
  @Aliases.resolve_email_or_alias P alias f1
  = Ok (JStr (lit "ann@example.com")) /\
  (forall p, p <> alias ->
             @Aliases.resolve_email_or_alias P p f1
             = @Aliases.resolve_email_or_alias P p f) /\
  (forall f2,
     @Aliases.remove_alias P Reference.ref_dumps alias f1 = (Ok true, f2) ->
     @json_loads P
       (Reference.ref_dumps
          (JDict (Aliases.without
                    (assoc_set (@Aliases.alias_pairs P f) alias
                       (JStr (lit "ann@example.com"))) alias)))
     = Ok (JDict (Aliases.without
                    (assoc_set (@Aliases.alias_pairs P f) alias
                       (JStr (lit "ann@example.com"))) alias)) ->
     @Aliases.resolve_email_or_alias P alias f2 = Ok (JStr alias) /\
     (forall p, p <> alias ->
                @Aliases.resolve_email_or_alias P p f2
                = @Aliases.resolve_email_or_alias P p f)).
Proof.
  apply (@set_alias_resolve_remove_alias MaintenanceScenario.wide_platform
           Reference.ref_dumps (lit "work") (lit "ann@example.com")
           AliasScenario.no_alias_file).
  - vm_compute. reflexivity.
  - vm_compute. reflexivity.
Defined.
